(** * The org parser of braindump (src/org/parser.ts), embedded in Rocq

    The parser is a recursive descent over a [Reader] (a cursor with a stack
    of narrow windows), driven by JavaScript regular expressions.  The
    embedding has four layers:

    - [Js]: the parts of the JavaScript runtime the parser relies on
      (strings as lists of code units, [trim], and a backtracking matcher
      for the regular expression features the parser's literals use);
    - [Reader]: the cursor of src/org/reader.ts, which is not part of the
      sources at hand and is modelled from the specification (section 4.1);
    - [Utils]: the patterns and tables of src/org/parser/utils.ts, also not at
      hand: the parser is parameterised by them, and one instance is
      modelled from the specification to run the parser on concrete texts;
    - [Parser]: the class [Parser] of src/org/parser.ts, method by method.

    Two helpers of the conversion to HTML, [removeCommonIndent] and
    [intersperse], are embedded in [OrgToHast].

    Loops that the source writes as [while (true)] take a fuel argument;
    running out of fuel is reported as [OutOfFuel], an outcome distinct from
    every error the source can throw. *)

From Stdlib Require Import List String Ascii Bool Arith Lia ZArith.
From Stdlib Require Import Permutation.
Import ListNotations.

Set Warnings "-register-all".

Local Open Scope string_scope.
Local Open Scope list_scope.

(* ================================================================== *)
(** ** JavaScript strings and regular expressions *)

Module Js.

(** A JavaScript string, as the list of its code units.  The embedding covers
    the code units below 256. *)
Definition text := list ascii.

Definition txt (s : string) : text := list_ascii_of_string s.

Definition tab : ascii := "009"%char.
Definition nl : ascii := "010"%char.
Definition vt : ascii := "011"%char.
Definition ff : ascii := "012"%char.
Definition cr : ascii := "013"%char.
Definition space : ascii := " "%char.
Definition nbsp : ascii := "160"%char.

Definition text_eqb (a b : text) : bool :=
  if list_eq_dec ascii_dec a b then true else false.

(** [s.substring(a, b)] for [a <= b]. *)
Definition substring (s : text) (a b : nat) : text :=
  firstn (b - a) (skipn a s).

Definition oneOf (cs : list ascii) (c : ascii) : bool :=
  existsb (Ascii.eqb c) cs.

Definition noneOf (cs : list ascii) (c : ascii) : bool :=
  negb (oneOf cs c).

(** WhiteSpace and LineTerminator code units: what [\s] matches and what
    [trim] strips. *)
Definition isWhite : ascii -> bool := oneOf [tab; nl; vt; ff; cr; space; nbsp].

Definition isLineTerminator : ascii -> bool := oneOf [nl; cr].

Fixpoint trimStart (s : text) : text :=
  match s with
  | c :: s' => if isWhite c then trimStart s' else s
  | [] => []
  end.

Definition trimEnd (s : text) : text := rev (trimStart (rev s)).

(** [s.trim()]. *)
Definition trim (s : text) : text := trimEnd (trimStart s).

Definition toLowerCase1 (c : ascii) : ascii :=
  let n := nat_of_ascii c in
  if ((65 <=? n)%nat && (n <=? 90)%nat)%bool then ascii_of_nat (n + 32) else c.

Definition toLowerCase (s : text) : text := map toLowerCase1 s.

(** *** Patterns

    The fragment of the pattern language that the parser's literals use:
    classes of one character, sequence, alternation, greedy and lazy
    quantifiers with bounds, capturing groups (named, or numbered by their
    decimal name), and the assertions [^] and [$]. *)
Inductive regex : Type :=
| Eps : regex
| Chr : (ascii -> bool) -> regex
| Seq : regex -> regex -> regex
| Alt : regex -> regex -> regex
| Rep : bool -> nat -> option nat -> regex -> regex
| Grp : string -> regex -> regex
| Bol : regex
| Eol : regex.

(** Shorthands for the usual quantifiers and classes. *)
Definition star (r : regex) : regex := Rep true 0 None r.
Definition plus (r : regex) : regex := Rep true 1 None r.
Definition lazyPlus (r : regex) : regex := Rep false 1 None r.
Definition opt (r : regex) : regex := Rep true 0 (Some 1) r.
Definition chr (c : ascii) : regex := Chr (Ascii.eqb c).
Definition dot : regex := Chr (fun c => negb (isLineTerminator c)).

Fixpoint seqs (rs : list regex) : regex :=
  match rs with
  | [] => Eps
  | [r] => r
  | r :: rs' => Seq r (seqs rs')
  end.

Fixpoint alts (r : regex) (rs : list regex) : regex :=
  match rs with
  | [] => r
  | r' :: rs' => Alt r (alts r' rs')
  end.

Fixpoint groupsOf (r : regex) : list string :=
  match r with
  | Seq a b | Alt a b => groupsOf a ++ groupsOf b
  | Rep _ _ _ a => groupsOf a
  | Grp g a => g :: groupsOf a
  | _ => []
  end.

(** A regular expression object: its pattern and its [m] flag. *)
Record RegExp := mkRegExp { source : regex; multiline : bool }.

(** The state of a match in progress: the end index and the captures, each
    a pair of indices into the input. *)
Record mstate := MState { endIndex : nat; captures : list (string * (nat * nat)) }.

Definition Cont := mstate -> option mstate.

Definition clearCaptures (gs : list string) (x : mstate) : mstate :=
  MState (endIndex x)
         (filter (fun p => negb (existsb (String.eqb (fst p)) gs)) (captures x)).

(** The loop of a quantifier (RepeatMatcher of the language specification):
    [lo] iterations are owed, [hi] bounds the iterations left, and an
    iteration that is not owed and consumes nothing is rejected.  At most
    [lo + (length input - endIndex x)] further iterations can follow, which
    is the fuel [matcher] gives it. *)
Fixpoint repeatMatcher (fuel : nat) (ma : mstate -> Cont -> option mstate)
    (gs : list string) (greedy : bool) (lo : nat) (hi : option nat)
    (x : mstate) (c : Cont) : option mstate :=
  match fuel with
  | 0 => None
  | S fuel' =>
      match hi with
      | Some 0 => c x
      | _ =>
          let d : Cont := fun y =>
            if ((lo =? 0)%nat && (endIndex y =? endIndex x)%nat)%bool then None
            else repeatMatcher fuel' ma gs greedy (pred lo) (option_map pred hi) y c in
          let xr := clearCaptures gs x in
          if (0 <? lo)%nat then ma xr d
          else if greedy then
            match ma xr d with
            | Some z => Some z
            | None => c x
            end
          else
            match c x with
            | Some z => Some z
            | None => ma xr d
            end
      end
  end.

Section Matcher.
Variable input : text.
Variable flagM : bool.

Definition atLineStart (i : nat) : bool :=
  match i with
  | 0 => true
  | S j => flagM && match nth_error input j with
                    | Some c => isLineTerminator c
                    | None => false
                    end
  end.

Definition atLineEnd (i : nat) : bool :=
  match nth_error input i with
  | None => true
  | Some c => flagM && isLineTerminator c
  end.

(** The backtracking matcher: [matcher r x c] matches [r] at state [x] and
    hands every way of doing so, in priority order, to the continuation
    [c], until one is accepted. *)
Fixpoint matcher (r : regex) (x : mstate) (c : Cont) : option mstate :=
  match r with
  | Eps => c x
  | Chr p =>
      match nth_error input (endIndex x) with
      | Some ch => if p ch then c (MState (S (endIndex x)) (captures x)) else None
      | None => None
      end
  | Seq a b => matcher a x (fun y => matcher b y c)
  | Alt a b =>
      match matcher a x c with
      | Some z => Some z
      | None => matcher b x c
      end
  | Rep greedy lo hi a =>
      repeatMatcher (S (lo + (List.length input - endIndex x))) (matcher a)
                    (groupsOf a) greedy lo hi x c
  | Grp g a =>
      matcher a x (fun y =>
        c (MState (endIndex y) ((g, (endIndex x, endIndex y)) :: captures y)))
  | Bol => if atLineStart (endIndex x) then c x else None
  | Eol => if atLineEnd (endIndex x) then c x else None
  end.
End Matcher.

(** What [exec] returns on success: the index of the match, the matched
    text (element 0 of the array) and the groups that took part. *)
Record MatchResult := mkMatch
  { index : nat; matched : text; groups : list (string * text) }.

Definition toMatch (input : text) (i : nat) (y : mstate) : MatchResult :=
  mkMatch i (substring input i (endIndex y))
          (map (fun p => (fst p, substring input (fst (snd p)) (snd (snd p))))
               (captures y)).

(** The search of [exec] for a pattern without the [g] and [y] flags: the
    start indices are tried in increasing order. *)
Fixpoint execFrom (re : RegExp) (input : text) (n i : nat) : option MatchResult :=
  match n with
  | 0 => None
  | S n' =>
      match matcher input (multiline re) (source re) (MState i []) Some with
      | Some y => Some (toMatch input i y)
      | None => execFrom re input n' (S i)
      end
  end.

(** [re.exec(input)], also what [input.match(re)] returns. *)
Definition exec (re : RegExp) (input : text) : option MatchResult :=
  execFrom re input (S (List.length input)) 0.

(** [m.groups.name] or [m[n]]: [None] stands for [undefined]. *)
Fixpoint assoc (g : string) (l : list (string * text)) : option text :=
  match l with
  | [] => None
  | (k, v) :: l' => if String.eqb k g then Some v else assoc g l'
  end.

Definition group (g : string) (m : MatchResult) : option text := assoc g (groups m).

End Js.

(* ================================================================== *)
(** ** The Reader *)

Module Reader.
Import Js.

(** Modelled from the spec: the class [Reader] of src/org/reader.ts is not
    among the sources.  Section 4.1 describes it as a cursor over an immutable
    buffer with a stack of narrow windows, and section 9 as a stack of
    (begin, end, savedOffset) triples; this record is that state. *)
Record t := mk
  { buffer : text;
    offset : nat;
    windowBegin : nat;
    windowEnd : nat;
    narrows : list (nat * nat * nat) }.

(** Modelled from the spec: [new Reader(text)], the cursor at 0 and the whole
    buffer visible. *)
Definition new (s : text) : t := mk s 0 0 (List.length s) [].

(** Modelled from the spec: [endOffset()], the current visible end (top of
    the narrow stack, or the buffer length). *)
Definition endOffset (r : t) : nat := windowEnd r.

(** Modelled from the spec: [eof()] is [offset() == endOffset()]. *)
Definition eof (r : t) : bool := (offset r =? endOffset r)%nat.

(** Modelled from the spec: [rest()], the visible bytes from the cursor to
    the end. *)
Definition rest (r : t) : text := substring (buffer r) (offset r) (endOffset r).

(** Modelled from the spec: [peek(n)], the next [n] visible bytes (possibly
    fewer at the end). *)
Definition peek (n : nat) (r : t) : text := firstn n (rest r).

Fixpoint throughNewline (s : text) : text :=
  match s with
  | [] => []
  | c :: s' => if Ascii.eqb c nl then [c] else c :: throughNewline s'
  end.

(** Modelled from the spec: [line()], the bytes from the cursor through the
    next newline inclusive, or through the end if no newline remains. *)
Definition line (r : t) : text := throughNewline (rest r).

(** Modelled from the spec: [match(regex)] matches the pattern against the
    visible slice starting at the cursor; the index of the result is relative
    to the slice. *)
Definition match_ (re : RegExp) (r : t) : option MatchResult := exec re (rest r).

(** Modelled from the spec: [advance(n)] moves the cursor forward by a byte
    count. *)
Definition advance (n : nat) (r : t) : t :=
  mk (buffer r) (offset r + n) (windowBegin r) (windowEnd r) (narrows r).

(** Modelled from the spec: [advance(match)] moves the cursor forward by
    [match.index + match[0].length].  The parser also passes the result of a
    failed match ([null]) and tests it afterwards, so [null] leaves the cursor
    where it is. *)
Definition advanceMatch (m : option MatchResult) (r : t) : t :=
  match m with
  | Some m' => advance (index m' + List.length (matched m')) r
  | None => r
  end.

(** Modelled from the spec: [advance(this.r.line())], the parser's way to
    advance past a line, moves the cursor by the length of the string. *)
Definition advanceText (s : text) (r : t) : t := advance (List.length s) r.

(** Modelled from the spec: [resetOffset(abs)] sets the cursor to an absolute
    offset. *)
Definition resetOffset (abs : nat) (r : t) : t :=
  mk (buffer r) abs (windowBegin r) (windowEnd r) (narrows r).

(** Modelled from the spec: [substring(a, b)], the bytes [a, b) of the
    underlying buffer regardless of the window. *)
Definition substring (a b : nat) (r : t) : text := Js.substring (buffer r) a b.

(** Modelled from the spec: [narrow(begin, end)] pushes the current window
    and replaces it with [begin, end), repositioning the cursor to [begin]. *)
Definition narrow (b e : nat) (r : t) : t :=
  mk (buffer r) b b e ((windowBegin r, windowEnd r, offset r) :: narrows r).

(** Modelled from the spec: [widen(preservePosition)] pops the window; the
    cursor is restored to the value it held when [narrow] was called, unless
    [preservePosition] is true.  With no window to pop it does nothing. *)
Definition widen (preservePosition : bool) (r : t) : t :=
  match narrows r with
  | (b, e, saved) :: ns =>
      mk (buffer r) (if preservePosition then offset r else saved) b e ns
  | [] => r
  end.

End Reader.

(* ================================================================== *)
(** ** The patterns and tables of parser/utils *)

(** What the parser imports from src/org/parser/utils.ts, which is not among
    the sources: [linkPlainRe()] returns the source of a pattern, the other
    four functions return regular expression objects, [restriction] maps an
    element type to a set of object types and [greaterElements] is a set of
    element types.  The parser is parameterised by them. *)
Record Utils := mkUtils
  { linkPlainRe : Js.regex;
    itemRe : Js.RegExp;
    fullItemRe : Js.RegExp;
    paragraphSeparateRe : Js.RegExp;
    listEndRe : Js.RegExp;
    restriction : string -> list string;
    greaterElements : list string }.

(* ================================================================== *)
(** ** The AST (src/org/types.ts) *)

Module Ast.
Import Js.

(** [ListStructureItem]; [undefined] and [null] groups are [None]. *)
Record ListStructureItem := mkItem
  { begin : nat;
    indent : nat;
    bullet : option text;
    counter : option text;
    checkbox : option text;
    tag : option text;
    end_ : nat }.

Definition setEnd (e : nat) (i : ListStructureItem) : ListStructureItem :=
  mkItem (begin i) (indent i) (bullet i) (counter i) (checkbox i) (tag i) e.

(** The nodes the parser builds with [u(type, props, children)]. *)
Inductive node : Type :=
| OrgData (contentsBegin contentsEnd : nat) (children : list node)
| Headline (level : nat) (rawValue : text) (title : list node)
           (contentsBegin contentsEnd : nat) (children : list node)
| Section (contentsBegin contentsEnd : nat) (children : list node)
| Paragraph (contentsBegin contentsEnd : nat) (children : list node)
| PlainList (indent contentsBegin contentsEnd : nat)
            (structure : list ListStructureItem) (children : list node)
| Item (indent : nat) (bullet : option text) (checkbox : option string)
       (contentsBegin contentsEnd : nat) (children : list node)
| Link (linkType rawLink : text) (children : list node)
| Text (value : text).

(** [node.type]. *)
Definition type (n : node) : string :=
  match n with
  | OrgData _ _ _ => "org-data"
  | Headline _ _ _ _ _ _ => "headline"
  | Section _ _ _ => "section"
  | Paragraph _ _ _ => "paragraph"
  | PlainList _ _ _ _ _ => "plain-list"
  | Item _ _ _ _ _ _ => "item"
  | Link _ _ _ => "link"
  | Text _ => "text"
  end.

(** [node.contentsBegin] and [node.contentsEnd]; [None] is [undefined]. *)
Definition contentsBegin (n : node) : option nat :=
  match n with
  | OrgData b _ _ | Headline _ _ _ b _ _ | Section b _ _ | Paragraph b _ _
  | PlainList _ b _ _ _ | Item _ _ _ b _ _ => Some b
  | Link _ _ _ | Text _ => None
  end.

Definition contentsEnd (n : node) : option nat :=
  match n with
  | OrgData _ e _ | Headline _ _ _ _ e _ | Section _ e _ | Paragraph _ e _
  | PlainList _ _ e _ _ | Item _ _ _ _ e _ => Some e
  | Link _ _ _ | Text _ => None
  end.

Definition children (n : node) : list node :=
  match n with
  | OrgData _ _ c | Headline _ _ _ _ _ c | Section _ _ c | Paragraph _ _ c
  | PlainList _ _ _ _ c | Item _ _ _ _ _ c | Link _ _ c => c
  | Text _ => []
  end.

(** [node.structure]. *)
Definition structure (n : node) : option (list ListStructureItem) :=
  match n with
  | PlainList _ _ _ s _ => Some s
  | _ => None
  end.

(** The assignment [element.children = c]. *)
Definition setChildren (c : list node) (n : node) : node :=
  match n with
  | OrgData b e _ => OrgData b e c
  | Headline l v t b e _ => Headline l v t b e c
  | Section b e _ => Section b e c
  | Paragraph b e _ => Paragraph b e c
  | PlainList i b e s _ => PlainList i b e s c
  | Item i bu ch b e _ => Item i bu ch b e c
  | Link lt rl _ => Link lt rl c
  | Text v => Text v
  end.

End Ast.

(* ================================================================== *)
(** ** The parser (src/org/parser.ts) *)

Module Parser.
Import Js Ast.

(** What a method throws, and the fuel of the embedding running out. *)
Inductive error : Type :=
| NoProgressElements       (* Error('no progress (elements)') *)
| NoProgress               (* Error('no progress') *)
| CannotFindItem           (* Error('parseList: cannot find item. ...') *)
| ParseItemFailed          (* Error('parseItem: fullItemRe failed') *)
| FullItemReDidntMatch     (* Error("fullItemRe didn't match: ...") *)
| TypeError                (* raised by the runtime *)
| OutOfFuel.

Inductive result (A : Type) : Type :=
| Ok (a : A)
| Err (e : error).
Arguments Ok {A} a.
Arguments Err {A} e.

(** A method of the parser: it reads and moves the one Reader, and returns
    or throws. *)
Definition M (A : Type) : Type := Reader.t -> result (A * Reader.t).

Definition ret {A} (a : A) : M A := fun r => Ok (a, r).

Definition bind {A B} (m : M A) (k : A -> M B) : M B :=
  fun r => match m r with
           | Ok (a, r') => k a r'
           | Err e => Err e
           end.

Definition throw {A} (e : error) : M A := fun _ => Err e.

(** Reading the Reader, and updating it. *)
Definition get {A} (f : Reader.t -> A) : M A := fun r => Ok (f r, r).
Definition upd (f : Reader.t -> Reader.t) : M unit := fun r => Ok (tt, f r).

Notation "x <- m ;; k" := (bind m (fun x => k))
  (at level 61, m at next level, right associativity).
Notation "m ;;; k" := (bind m (fun _ => k))
  (at level 61, right associativity).

Inductive ParseMode : Type :=
| FirstSection | ItemMode | NodeProperty | Planning | PropertyDrawer
| SectionMode | TableRow | TopComment | NullMode.

Definition ParseMode_eqb (a b : ParseMode) : bool :=
  match a, b with
  | FirstSection, FirstSection | ItemMode, ItemMode
  | NodeProperty, NodeProperty | Planning, Planning
  | PropertyDrawer, PropertyDrawer | SectionMode, SectionMode
  | TableRow, TableRow | TopComment, TopComment | NullMode, NullMode => true
  | _, _ => false
  end.

(** The value passed as [restriction]: declared a [Set<string>], but
    [parseLink] passes the string ['link']. *)
Inductive Restriction : Type :=
| RSet (s : list string)
| RString (s : string).

(** [restriction.has(x)]: a string has no method [has]. *)
Definition has (x : string) (restr : Restriction) : result bool :=
  match restr with
  | RSet s => Ok (existsb (String.eqb x) s)
  | RString _ => Err TypeError
  end.

Definition asterisk : regex := chr "*"%char.
Definition blank : regex := Chr (oneOf [space; tab]).

(** [/^\*+[ \t]/m], the next heading as [parseElement] looks for it. *)
Definition nextHeadingRe : RegExp :=
  mkRegExp (seqs [Bol; plus asterisk; blank]) true.

(** [/^\*+[ \\t]/m], the next heading as [parseSection] looks for it: in
    a literal the class is a space, a backslash or the letter t. *)
Definition sectionEndRe : RegExp :=
  mkRegExp (seqs [Bol; plus asterisk; Chr (oneOf [space; "\"%char; "t"%char])]) true.

(** [/^\*+ /] of [atHeading]. *)
Definition atHeadingRe : RegExp :=
  mkRegExp (seqs [Bol; plus asterisk; chr space]) false.

(** [new RegExp(`^(\\*+)[ \\t]+`)]. *)
Definition starsRe : RegExp :=
  mkRegExp (seqs [Bol; Grp "1" (plus asterisk); plus blank]) false.

(** [/^.*/]. *)
Definition titleRe : RegExp := mkRegExp (seqs [Bol; star dot]) false.

(** [new RegExp(`^\\*{1,${level}}[ \\t]`, 'm')]. *)
Definition endOfSubtreeRe (level : nat) : RegExp :=
  mkRegExp (seqs [Bol; Rep true 1 (Some level) asterisk; blank]) true.

Definition notBracket : regex := Chr (noneOf ["["%char; "]"%char]).
Definition bracket : regex := Chr (oneOf ["["%char; "]"%char]).
Definition backslash : regex := chr "\"%char.

(** [/\[\[(?<link>([^\[\]]|\\(\\\\)*[\[\]]|\\+[^\[\]])+)\](\[(?<text>.+?)\])?\]/] *)
Definition linkBracketRe : RegExp :=
  mkRegExp
    (seqs [chr "["%char; chr "["%char;
           Grp "link"
             (plus (Grp "2"
                (alts notBracket
                   [seqs [backslash; star (Grp "3" (Seq backslash backslash)); bracket];
                    seqs [plus backslash; notBracket]])));
           chr "]"%char;
           opt (Grp "4" (seqs [chr "["%char; Grp "text" (lazyPlus dot); chr "]"%char]));
           chr "]"%char])
    false.

(** [/(.+?):/], applied to the target of a bracket link. *)
Definition linkTypeRe : RegExp :=
  mkRegExp (seqs [Grp "1" (lazyPlus dot); chr ":"%char]) false.

Definition nonWhite : regex := Chr (fun c => negb (isWhite c)).

(** [/^(\S+):\S+/]. *)
Definition plainLinkRe : RegExp :=
  mkRegExp (seqs [Bol; Grp "1" (plus nonWhite); chr ":"%char; plus nonWhite]) false.

(** [/^[ \t]*$/]. *)
Definition emptyLineRe : RegExp := mkRegExp (seqs [Bol; star blank; Eol]) false.

(** [/^[ \t]*/]. *)
Definition indentRe : RegExp := mkRegExp (seqs [Bol; star blank]) false.

(** [nextMode(mode, type, parent)]. *)
Definition nextMode (mode : ParseMode) (type : string) (parent : bool) : ParseMode :=
  if parent then
    if String.eqb type "headline" then SectionMode
    else if ParseMode_eqb mode FirstSection && String.eqb type "section" then TopComment
    else if String.eqb type "inlinetask" then Planning
    else if String.eqb type "plain-list" then ItemMode
    else if String.eqb type "property-drawer" then NodeProperty
    else if String.eqb type "section" then Planning
    else if String.eqb type "table" then TableRow
    else NullMode
  else
    if ParseMode_eqb mode ItemMode then ItemMode
    else if ParseMode_eqb mode NodeProperty then NodeProperty
    else if ParseMode_eqb mode Planning && String.eqb type "planning" then PropertyDrawer
    else if ParseMode_eqb mode TableRow then TableRow
    else if ParseMode_eqb mode TopComment && String.eqb type "comment" then PropertyDrawer
    else NullMode.

(** [Parser.parseMulti(parse)] for a [parse] that returns a string or
    [null]: the loop runs while the result is truthy, that is, a non-empty
    string. *)
Fixpoint parseMulti (fuel : nat) (parse : M (option text)) (result : list text)
  : M (list text) :=
  match fuel with
  | 0 => throw OutOfFuel
  | S fuel' =>
      x <- parse ;;
      match x with
      | Some (c :: s) => parseMulti fuel' parse (result ++ [c :: s])
      | _ => ret result
      end
  end.

(** The callback that [parseEmptyLines] hands to [parseMulti]. *)
Definition emptyLine : M (option text) :=
  line <- get Reader.line ;;
  if (List.length (trim line) =? 0)%nat
  then upd (Reader.advance (List.length line)) ;;; ret (Some line)
  else ret None.

(** [parseEmptyLines()]. *)
Definition parseEmptyLines (fuel : nat) : M (list text) :=
  parseMulti fuel emptyLine [].

(** [atHeading()]. *)
Definition atHeading (r : Reader.t) : bool :=
  match Reader.match_ atHeadingRe r with
  | Some _ => true
  | None => false
  end.

(** [parseSection()]. *)
Definition parseSection : M node :=
  begin <- get Reader.offset ;;
  m <- get (Reader.match_ sectionEndRe) ;;
  endOffset <- get Reader.endOffset ;;
  let e := match m with
           | Some m' => begin + index m'
           | None => endOffset
           end in
  upd (Reader.resetOffset e) ;;;
  ret (Section begin e []).

(** The loop of [parseList]: from [pos], hop to the end of the first entry
    that begins at [pos] with the indent of the list, until there is none. *)
Fixpoint parseListLoop (fuel : nat) (structure : list ListStructureItem)
    (indent pos : nat) : option nat :=
  match fuel with
  | 0 => None
  | S fuel' =>
      match find (fun x => (Ast.begin x =? pos)%nat && (Ast.indent x =? indent)%nat)
                 structure with
      | None => Some pos
      | Some next => parseListLoop fuel' structure indent (end_ next)
      end
  end.

(** [parseList(structure)]. *)
Definition parseList (fuel : nat) (structure : list ListStructureItem) : M node :=
  contentsBegin <- get Reader.offset ;;
  match find (fun x => (Ast.begin x =? contentsBegin)%nat) structure with
  | None => throw CannotFindItem
  | Some item =>
      let indent := Ast.indent item in
      match parseListLoop fuel structure indent (end_ item) with
      | None => throw OutOfFuel
      | Some contentsEnd =>
          upd (Reader.resetOffset contentsEnd) ;;;
          ret (PlainList indent contentsBegin contentsEnd structure [])
      end
  end.

(** [parseParagraph()]. *)
Definition parseParagraph (U : Utils) (fuel : nat) : M node :=
  contentsBegin <- get Reader.offset ;;
  next <- get (Reader.match_ (paragraphSeparateRe U)) ;;
  endOffset <- get Reader.endOffset ;;
  let contentsEnd := match next with
                     | Some m => contentsBegin + index m
                     | None => endOffset
                     end in
  upd (Reader.resetOffset contentsEnd) ;;;
  parseEmptyLines fuel ;;;
  ret (Paragraph contentsBegin contentsEnd []).

(** The checkbox of [parseItem]. *)
Definition checkboxOf (c : option text) : option string :=
  match c with
  | None => None
  | Some s =>
      if text_eqb s (txt "[ ]") then Some "off"
      else if text_eqb (toLowerCase s) (txt "[x]") then Some "on"
      else if text_eqb s (txt "[-]") then Some "trans"
      else None
  end.

(** [parseItem(structure)]; reading a property of [undefined] is a
    TypeError. *)
Definition parseItem (U : Utils) (structure : option (list ListStructureItem))
  : M node :=
  offset <- get Reader.offset ;;
  m <- get (Reader.match_ (fullItemRe U)) ;;
  upd (Reader.advanceMatch m) ;;;
  match m with
  | None => throw ParseItemFailed
  | Some m' =>
      let bullet := group "bullet" m' in
      let checkbox := checkboxOf (group "checkbox" m') in
      match structure with
      | None => throw TypeError
      | Some structure' =>
          let item := find (fun x => (Ast.begin x =? offset)%nat) structure' in
          contentsBegin <- get Reader.offset ;;
          match item with
          | None => throw TypeError
          | Some item' =>
              let contentsEnd := end_ item' in
              upd (Reader.resetOffset contentsEnd) ;;;
              ret (Item (Ast.indent item') bullet checkbox contentsBegin contentsEnd [])
          end
      end
  end.

(** The inner loop of [parseListStructure] that ends previous siblings:
    while the item on top of the stack has an indent not below [indent], it
    is popped, closed at [offset] and pushed onto [struct].  The stack
    [items] is kept with its top first. *)
Fixpoint endPreviousSiblings (indent offset : nat)
    (items struct : list ListStructureItem)
  : list ListStructureItem * list ListStructureItem :=
  match items with
  | item :: items' =>
      if (indent <=? Ast.indent item)%nat
      then endPreviousSiblings indent offset items' (struct ++ [setEnd offset item])
      else (items, struct)
  | [] => ([], struct)
  end.

Fixpoint insertByBegin (x : ListStructureItem) (l : list ListStructureItem)
  : list ListStructureItem :=
  match l with
  | [] => [x]
  | y :: l' => if (Ast.begin x <? Ast.begin y)%nat then x :: l
               else y :: insertByBegin x l'
  end.

(** [struct.sort((a, b) => a.begin - b.begin)]; the sort is stable. *)
Definition sortByBegin (l : list ListStructureItem) : list ListStructureItem :=
  fold_left (fun acc x => insertByBegin x acc) l [].

Definition isSome {A} (o : option A) : bool :=
  match o with
  | Some _ => true
  | None => false
  end.

Section WithUtils.
Variable U : Utils.

(** The outer loop of [parseListStructure]; it returns the stack of open
    items (top first) and [struct] when the source breaks out of it. *)
Fixpoint parseListStructureLoop (fuel : nat)
    (items struct : list ListStructureItem)
  : M (list ListStructureItem * list ListStructureItem) :=
  match fuel with
  | 0 => throw OutOfFuel
  | S fuel' =>
      eof <- get Reader.eof ;;
      listEnd <- get (Reader.match_ (listEndRe U)) ;;
      if eof || match listEnd with
                | Some m => (index m =? 0)%nat
                | None => false
                end
      then ret (items, struct)
      else
        m <- get (Reader.match_ (itemRe U)) ;;
        match m with
        | Some m' =>
            match group "indent" m' with
            | None => throw TypeError
            | Some ind =>
                let indent := List.length ind in
                offset <- get Reader.offset ;;
                let '(items1, struct1) :=
                  endPreviousSiblings indent offset items struct in
                fullM <- get (Reader.match_ (fullItemRe U)) ;;
                match fullM with
                | None => throw FullItemReDidntMatch
                | Some fm =>
                    let item := mkItem offset indent (group "bullet" fm)
                                  (group "counter" fm) (group "checkbox" fm)
                                  (group "tag" fm) offset in
                    line <- get Reader.line ;;
                    upd (Reader.advanceText line) ;;;
                    parseListStructureLoop fuel' (item :: items1) struct1
                end
            end
        | None =>
            e <- get (Reader.match_ emptyLineRe) ;;
            if isSome e then
              line <- get Reader.line ;;
              upd (Reader.advanceText line) ;;;
              parseListStructureLoop fuel' items struct
            else
              im <- get (Reader.match_ indentRe) ;;
              match im with
              | None => throw TypeError
              | Some im' =>
                  let indent := List.length (matched im') in
                  offset <- get Reader.offset ;;
                  let '(items1, struct1) :=
                    endPreviousSiblings indent offset items struct in
                  match items1 with
                  | [] => ret (items1, struct1)
                  | _ :: _ =>
                      line <- get Reader.line ;;
                      upd (Reader.advanceText line) ;;;
                      parseListStructureLoop fuel' items1 struct1
                  end
              end
        end
  end.

(** [parseListStructure()]. *)
Definition parseListStructure (fuel : nat) : M (list ListStructureItem) :=
  open <- parseListStructureLoop fuel [] [] ;;
  let '(items, struct) := open in
  parseEmptyLines fuel ;;;
  e <- get Reader.offset ;;
  ret (sortByBegin (struct ++ rev (map (setEnd e) items))).

(** The pattern [objectRegexp] of [parseObjects]: ["\\[(?:\\[)"] joined
    with [linkPlainRe()] by ["|"]. *)
Definition objectRegexp : RegExp :=
  mkRegExp (Alt (Seq (chr "["%char) (chr "["%char)) (linkPlainRe U)) false.

(** Element 1 of a match whose first group takes part in every match. *)
Definition group1 (m : MatchResult) : text :=
  match group "1" m with
  | Some s => s
  | None => []
  end.

(** [parseLink()], over the recursive call to [parseObjects]. *)
Definition parseLink (parseObjects : Restriction -> M (list node))
  : M (option node) :=
  initialOffset <- get Reader.offset ;;
  c <- get (Reader.peek 1) ;;
  if text_eqb c (txt "[") then
    m <- get (Reader.match_ linkBracketRe) ;;
    upd (Reader.advanceMatch m) ;;;
    match m with
    | Some m' =>
        match group "link" m' with
        | None => throw TypeError
        | Some link =>
            children <-
              match group "text" m' with
              | Some (c0 :: t) =>
                  let contentStart := initialOffset + 2 + List.length link + 2 in
                  let contentEnd := contentStart + List.length (c0 :: t) in
                  upd (Reader.narrow contentStart contentEnd) ;;;
                  children <- parseObjects (RString "link") ;;
                  upd (Reader.widen false) ;;;
                  ret children
              | _ => ret []
              end ;;
            let linkType := exec linkTypeRe link in
            ret (Some (Link (match linkType with
                             | Some lt => group1 lt
                             | None => txt "fuzzy"
                             end)
                            link children))
        end
    | None => ret None
    end
  else
    m <- get (Reader.match_ plainLinkRe) ;;
    upd (Reader.advanceMatch m) ;;;
    match m with
    | Some m' => ret (Some (Link (group1 m') (matched m') []))
    | None => ret None
    end.

(** [parseObject(restriction)], over the recursive call to
    [parseObjects]. *)
Definition parseObject (parseObjects : Restriction -> M (list node))
    (restr : Restriction) : M (option node) :=
  c <- get (Reader.peek 2) ;;
  let default : M (option node) :=
    h <- (fun r => match has "link" restr with
                   | Ok b => Ok (b, r)
                   | Err e => Err e
                   end) ;;
    if h then parseLink parseObjects else ret None in
  match c with
  | c0 :: c' =>
      if Ascii.eqb c0 "["%char then
        match c' with
        | c1 :: _ => if Ascii.eqb c1 "["%char then default else ret None
        | [] => ret None
        end
      else default
  | [] => default
  end.

(** The loop of [parseObjects(restriction)], and what follows it. *)
Fixpoint parseObjectsLoop (fuel : nat) (restr : Restriction) (prevOffset : Z)
    (objects : list node) : M (list node) :=
  match fuel with
  | 0 => throw OutOfFuel
  | S fuel' =>
      offset <- get Reader.offset ;;
      if (prevOffset =? Z.of_nat offset)%Z then throw NoProgress
      else
        m <- get (Reader.match_ objectRegexp) ;;
        match m with
        | None =>
            text <- get Reader.rest ;;
            upd (Reader.advance (List.length text)) ;;;
            if (List.length (trim text) =? 0)%nat then ret objects
            else ret (objects ++ [Text text])
        | Some m' =>
            objects1 <-
              (if (index m' =? 0)%nat then ret objects
               else
                 text <- get (Reader.peek (index m')) ;;
                 upd (Reader.advance (index m')) ;;;
                 ret (objects ++ [Text text])) ;;
            o <- parseObject
                   (fun restr' => parseObjectsLoop fuel' restr' (-1)%Z [])
                   restr ;;
            parseObjectsLoop fuel' restr (Z.of_nat offset)
              (match o with
               | Some n => objects1 ++ [n]
               | None => objects1
               end)
        end
  end.

(** [parseObjects(restriction)]. *)
Definition parseObjects (fuel : nat) (restr : Restriction) : M (list node) :=
  parseObjectsLoop fuel restr (-1)%Z [].

(** [parseHeadline()]. *)
Definition parseHeadline (fuel : nat) : M node :=
  stars <- get (Reader.match_ starsRe) ;;
  upd (Reader.advanceMatch stars) ;;;
  match stars with
  | None => throw TypeError
  | Some st =>
      match group "1" st with
      | None => throw TypeError
      | Some s1 =>
          let level := List.length s1 in
          titleMatch <- get (Reader.match_ titleRe) ;;
          match titleMatch with
          | None => throw TypeError
          | Some tm =>
              titleStart <- get Reader.offset ;;
              let titleEnd := titleStart + List.length (matched tm) in
              rawValue <- get (Reader.substring titleStart titleEnd) ;;
              upd (Reader.advanceMatch titleMatch) ;;;
              upd (Reader.narrow titleStart titleEnd) ;;;
              title <- parseObjects fuel (RSet (restriction U "headline")) ;;
              upd (Reader.widen false) ;;;
              line <- get Reader.line ;;
              upd (Reader.advanceText line) ;;;
              parseEmptyLines fuel ;;;
              contentsBegin <- get Reader.offset ;;
              endOfSubtree <- get (Reader.match_ (endOfSubtreeRe level)) ;;
              endOffset <- get Reader.endOffset ;;
              let contentsEnd := match endOfSubtree with
                                 | Some m => contentsBegin + index m
                                 | None => endOffset
                                 end in
              upd (Reader.resetOffset contentsEnd) ;;;
              ret (Headline level rawValue title contentsBegin contentsEnd [])
          end
      end
  end.

(** [parseElement(mode, structure)]. *)
Definition parseElement (fuel : nat) (mode : ParseMode)
    (structure : option (list ListStructureItem)) : M node :=
  if ParseMode_eqb mode ItemMode then parseItem U structure
  else
    h <- get atHeading ;;
    if h then parseHeadline fuel
    else if ParseMode_eqb mode SectionMode then parseSection
    else if ParseMode_eqb mode FirstSection then
      nextHeading <- get (Reader.match_ nextHeadingRe) ;;
      offset <- get Reader.offset ;;
      endOffset <- get Reader.endOffset ;;
      upd (Reader.narrow offset (match nextHeading with
                                 | Some m => offset + index m
                                 | None => endOffset
                                 end)) ;;;
      result <- parseSection ;;
      upd (Reader.widen true) ;;;
      ret result
    else
      im <- get (Reader.match_ (itemRe U)) ;;
      if isSome im then
        structure' <-
          match structure with
          | Some s => ret s
          | None =>
              offset <- get Reader.offset ;;
              s <- parseListStructure fuel ;;
              upd (Reader.resetOffset offset) ;;;
              ret s
          end ;;
        parseList fuel structure'
      else parseParagraph U fuel.

(** The loop of [parseElements(mode, structure)]. *)
Fixpoint parseElementsLoop (fuel : nat) (mode : ParseMode)
    (structure : option (list ListStructureItem)) (prevOffset : Z)
    (elements : list node) : M (list node) :=
  match fuel with
  | 0 => throw OutOfFuel
  | S fuel' =>
      eof <- get Reader.eof ;;
      if eof then ret elements
      else
        offset <- get Reader.offset ;;
        if (Z.of_nat offset =? prevOffset)%Z then throw NoProgressElements
        else
          element <- parseElement fuel' mode structure ;;
          let type := Ast.type element in
          element' <-
            match Ast.contentsBegin element, Ast.contentsEnd element with
            | Some cbeg, Some cend =>
                if existsb (String.eqb type) (greaterElements U) then
                  upd (Reader.narrow cbeg cend) ;;;
                  children <- parseElementsLoop fuel' (nextMode mode type true)
                                (match structure with
                                 | Some s => Some s
                                 | None => Ast.structure element
                                 end)
                                (-1)%Z [] ;;
                  upd (Reader.widen false) ;;;
                  ret (setChildren children element)
                else
                  upd (Reader.narrow cbeg cend) ;;;
                  children <- parseObjects fuel' (RSet (restriction U type)) ;;
                  upd (Reader.widen false) ;;;
                  ret (setChildren children element)
            | _, _ => ret element
            end ;;
          parseElementsLoop fuel' (nextMode mode type false) structure
                            (Z.of_nat offset) (elements ++ [element'])
  end.

(** [parseElements(mode, structure)]. *)
Definition parseElements (fuel : nat) (mode : ParseMode)
    (structure : option (list ListStructureItem)) : M (list node) :=
  parseElementsLoop fuel mode structure (-1)%Z [].

(** [new Parser(text).parse()], which is [parse(text)]. *)
Definition parse (fuel : nat) (text : Js.text) : result node :=
  match (parseEmptyLines fuel ;;;
         children <- parseElements fuel FirstSection None ;;
         endOffset <- get Reader.endOffset ;;
         ret (OrgData 0 endOffset children)) (Reader.new text) with
  | Ok (n, _) => Ok n
  | Err e => Err e
  end.

End WithUtils.

End Parser.

(* ================================================================== *)
(** ** An instance of the utilities *)

Module SpecUtils.
Import Js.

Definition digit : regex :=
  Chr (fun c => (48 <=? nat_of_ascii c)%nat && (nat_of_ascii c <=? 57)%nat).

(** Modelled from the spec: the bullets of section 3 ([-], [+], [*], [1.],
    [2)]); utils.ts is not among the sources. *)
Definition bulletRe : regex :=
  Alt (Chr (oneOf ["-"%char; "+"%char; "*"%char]))
      (Seq (plus digit) (Chr (oneOf ["."%char; ")"%char]))).

(** Modelled from the spec: [linkPlainRe()], missing with utils.ts; section
    4.3.8 gives the plain form as SCHEME:NON_WHITESPACE+, here [\S+:\S+]. *)
Definition linkPlainRe : regex :=
  seqs [plus Parser.nonWhite; chr ":"%char; plus Parser.nonWhite].

(** Modelled from the spec: [itemRe()], missing with utils.ts; the item-line
    pattern of section 4.2, leading whitespace captured as [indent], a bullet,
    then a blank, a newline or the end of the input; no flags. *)
Definition itemRe : RegExp :=
  mkRegExp (seqs [Bol; Grp "indent" (star Parser.blank); bulletRe;
                  alts Parser.blank [chr nl; Eol]])
           false.

(** Modelled from the spec: [fullItemRe()], missing with utils.ts; the
    fuller item pattern of section 4.2, with the bullet and the checkbox
    ([[ ]], [[X]], [[x]], [[-]]) of section 4.3.4.  The spec gives no syntax
    for counters and tags, so the pattern has no such groups.  In order: the
    start of a line, the group [indent] of blanks, the group [bullet], blanks
    or the end of the line, and optionally the group [checkbox] followed by
    blanks or the end of the line; flag [m]. *)
Definition fullItemRe : RegExp :=
  mkRegExp (seqs [Bol; Grp "indent" (star Parser.blank); Grp "bullet" bulletRe;
                  Alt (plus Parser.blank) Eol;
                  opt (seqs [Grp "checkbox"
                               (seqs [chr "["%char;
                                      Chr (oneOf [space; "X"%char; "x"%char; "-"%char]);
                                      chr "]"%char]);
                             Alt (plus Parser.blank) Eol])])
           true.

(** Modelled from the spec: [paragraphSeparateRe()], missing with utils.ts;
    section 9 asks for blank lines, heading lines and item-start lines at
    least.  At the start of a line, one of: blanks up to the end of the line;
    asterisks and a space; blanks, a bullet, and a blank or the end of the
    line.  Flag [m]. *)
Definition paragraphSeparateRe : RegExp :=
  mkRegExp (seqs [Bol;
                  alts (seqs [star Parser.blank; Eol])
                       [seqs [plus Parser.asterisk; chr space];
                        seqs [star Parser.blank; bulletRe; Alt Parser.blank Eol]]])
           true.

(** Modelled from the spec: [listEndRe()], missing with utils.ts; section
    4.2 has two consecutive blank lines end a list: [/^[ \t]*\n[ \t]*\n/]. *)
Definition listEndRe : RegExp :=
  mkRegExp (seqs [Bol; star Parser.blank; chr nl; star Parser.blank; chr nl]) false.

(** Modelled from the spec: [restriction(type)], missing with utils.ts;
    section 4.3.9 has it return at least link and text for every element,
    and forbid links in a link description. *)
Definition restriction (type : string) : list string :=
  if String.eqb type "link" then ["text"] else ["link"; "text"].

(** Modelled from the spec: [greaterElements], missing with utils.ts; the
    types of greater elements, as the union [GreaterElementType] of
    src/org/types.ts lists them. *)
Definition greaterElements : list string :=
  ["org-data"; "headline"; "property-drawer"; "section"; "drawer";
   "plain-list"; "item"; "quote-block"; "verse-block"; "center-block";
   "special-block"; "footnote-definition"; "table"].

Definition utils : Utils :=
  mkUtils linkPlainRe itemRe fullItemRe paragraphSeparateRe listEndRe
          restriction greaterElements.

End SpecUtils.

(* ================================================================== *)
(** ** The walk of parseList, as the specification words it *)

Module ListWalk.
Import Ast.

(** [x] is the first entry of [l] that satisfies [P]. *)
Definition FirstWith (P : ListStructureItem -> Prop) (l : list ListStructureItem)
    (x : ListStructureItem) : Prop :=
  exists l1 l2, l = l1 ++ x :: l2 /\ P x /\ Forall (fun y => ~ P y) l1.

(** Section 4.3.3: from [pos], hop to the end of the entry whose [begin]
    equals the current position and whose [indent] equals the list indent;
    continue until none matches.  [HopsTo structure indent pos final] holds
    when the walk from [pos] stops at [final]. *)
Inductive HopsTo (structure : list ListStructureItem) (indent : nat)
  : nat -> nat -> Prop :=
| HopsStop pos :
    Forall (fun x => ~ (begin x = pos /\ Ast.indent x = indent)) structure ->
    HopsTo structure indent pos pos
| HopsNext pos next final :
    FirstWith (fun x => begin x = pos /\ Ast.indent x = indent) structure next ->
    HopsTo structure indent (end_ next) final ->
    HopsTo structure indent pos final.

End ListWalk.

(* ================================================================== *)
(** ** Properties of the positions of an AST *)

Module Positions.
Import Ast.

(** The [contentsBegin] of the nodes of [l] that carry one, in order. *)
Definition begins (l : list node) : list nat :=
  flat_map (fun n => match contentsBegin n with
                     | Some b => [b]
                     | None => []
                     end) l.

Fixpoint increasing (l : list nat) : bool :=
  match l with
  | a :: (b :: _) as l' => (a <? b)%nat && increasing l'
  | _ => true
  end.

(** Child ordering at one node: the children that carry position fields are
    strictly increasing in [contentsBegin]. *)
Definition childrenIncreasing (n : node) : bool := increasing (begins (children n)).

End Positions.

(* ================================================================== *)
(** ** Notions used to state the properties *)

Module Notions.
Import Js Ast Parser.

(** A character of a blank line: a space, a tab, or the newline that ends
    the line. *)
Definition blankChar (c : ascii) : Prop := c = space \/ c = tab \/ c = nl.

(** [r'] has the buffer, the window and the stack of windows of [r]. *)
Definition sameWindow (r r' : Reader.t) : Prop :=
  Reader.buffer r' = Reader.buffer r
  /\ Reader.windowBegin r' = Reader.windowBegin r
  /\ Reader.windowEnd r' = Reader.windowEnd r
  /\ Reader.narrows r' = Reader.narrows r.

(** [r'] is [r] with the cursor moved forward: the buffer, the window and the
    stack of windows are the same. *)
Definition movedForward (r r' : Reader.t) : Prop :=
  Reader.buffer r' = Reader.buffer r
  /\ Reader.windowBegin r' = Reader.windowBegin r
  /\ Reader.windowEnd r' = Reader.windowEnd r
  /\ Reader.narrows r' = Reader.narrows r
  /\ Reader.offset r <= Reader.offset r'.

(** The first test of the loop of [parseListStructure], without [eof]: the
    list-ending pattern matches at the cursor. *)
Definition atListEnd (U : Utils) (r : Reader.t) : bool :=
  match Reader.match_ (listEndRe U) r with
  | Some m => (index m =? 0)%nat
  | None => false
  end.

Definition colon : ascii := ":"%char.

(** The type that [parseLink] gives a bracket link with target [link]. *)
Definition linkTypeOf (link : text) : text :=
  match exec linkTypeRe link with
  | Some lt => group1 lt
  | None => txt "fuzzy"
  end.

(** The descent of [parseElements] into the element it has just parsed. *)
Definition withChildren (U : Utils) (fuel : nat) (mode : ParseMode)
    (structure : option (list ListStructureItem)) (element : node) : M node :=
  let type := Ast.type element in
  match Ast.contentsBegin element, Ast.contentsEnd element with
  | Some cbeg, Some cend =>
      if existsb (String.eqb type) (greaterElements U) then
        upd (Reader.narrow cbeg cend) ;;;
        children <- parseElementsLoop U fuel (nextMode mode type true)
                      (match structure with
                       | Some s => Some s
                       | None => Ast.structure element
                       end)
                      (-1)%Z [] ;;
        upd (Reader.widen false) ;;;
        ret (setChildren children element)
      else
        upd (Reader.narrow cbeg cend) ;;;
        children <- parseObjects U fuel (RSet (restriction U type)) ;;
        upd (Reader.widen false) ;;;
        ret (setChildren children element)
  | _, _ => ret element
  end.

(** The document [* a\n*\tb]: a headline with no contents, then a line that
    ends the headline (an asterisk and a tab) without being a heading for
    [atHeading]. *)
Definition tabbedHeading : text :=
  txt "* a" ++ [nl] ++ txt "*" ++ [tab] ++ txt "b".

End Notions.

(* ================================================================== *)
(** ** What a pattern matches *)

Module Semantics.
Import Js.

(** [n] rounds of [R], the captures of the groups [gs] cleared before each
    round. *)
Fixpoint Iter (R : mstate -> mstate -> Prop) (gs : list string) (n : nat)
    (x y : mstate) : Prop :=
  match n with
  | 0 => y = x
  | S n' => exists m, R (clearCaptures gs x) m /\ Iter R gs n' m y
  end.

(** The least number of rounds a quantifier with the bounds [lo] and [hi]
    makes. *)
Definition rounds (lo : nat) (hi : option nat) : nat :=
  match hi with
  | Some h => Nat.min lo h
  | None => lo
  end.

(** [n] rounds are no more than a quantifier with the upper bound [hi]
    allows. *)
Definition atMost (n : nat) (hi : option nat) : Prop :=
  match hi with
  | Some h => n <= h
  | None => True
  end.

(** [Matches input flagM r x y]: the pattern [r] can take the state [x] to
    the state [y] on [input], priorities apart. *)
Fixpoint Matches (input : text) (flagM : bool) (r : regex) (x y : mstate) : Prop :=
  match r with
  | Eps => y = x
  | Chr p =>
      exists ch, nth_error input (endIndex x) = Some ch /\ p ch = true
                 /\ y = MState (S (endIndex x)) (captures x)
  | Seq a b => exists m, Matches input flagM a x m /\ Matches input flagM b m y
  | Alt a b => Matches input flagM a x y \/ Matches input flagM b x y
  | Rep _ lo hi a =>
      exists n, rounds lo hi <= n /\ atMost n hi
                /\ Iter (Matches input flagM a) (groupsOf a) n x y
  | Grp g a =>
      exists m, Matches input flagM a x m
                /\ y = MState (endIndex m) ((g, (endIndex x, endIndex m)) :: captures m)
  | Bol => atLineStart input flagM (endIndex x) = true /\ y = x
  | Eol => atLineEnd input flagM (endIndex x) = true /\ y = x
  end.

(** Every character class of [r] holds only characters with [P]. *)
Fixpoint classesIn (P : ascii -> Prop) (r : regex) : Prop :=
  match r with
  | Chr p => forall c, p c = true -> P c
  | Seq a b | Alt a b => classesIn P a /\ classesIn P b
  | Rep _ _ _ a | Grp _ a => classesIn P a
  | _ => True
  end.

(** The least number of characters a match of [r] takes. *)
Fixpoint minLength (r : regex) : nat :=
  match r with
  | Chr _ => 1
  | Seq a b => minLength a + minLength b
  | Alt a b => Nat.min (minLength a) (minLength b)
  | Rep _ lo hi a => rounds lo hi * minLength a
  | Grp _ a => minLength a
  | _ => 0
  end.

End Semantics.

(* ================================================================== *)
(** ** Readers whose cursor is inside the window *)

Module WindowNotions.
Import Js Ast Parser.

(** The cursor is not past the end of the window, and the window not past the
    end of the buffer. *)
Definition inWindow (r : Reader.t) : Prop :=
  Reader.offset r <= Reader.windowEnd r
  /\ Reader.windowEnd r <= List.length (Reader.buffer r).

Definition allWhite (s : text) : Prop := Forall (fun c => isWhite c = true) s.

(** Where a search from the cursor ends: at the index of the match, or at
    the end of the window. *)
Definition stopAt (m : option MatchResult) (r : Reader.t) : nat :=
  match m with
  | Some m' => Reader.offset r + index m'
  | None => Reader.endOffset r
  end.

(** A node that [parseObjects] can return: a link, or a text that is not
    empty. *)
Definition objectNode (n : node) : Prop :=
  match n with
  | Text v => v <> []
  | Link _ _ _ => True
  | _ => False
  end.

(** A node that is no plain list, or a plain list whose children are all
    items. *)
Definition listOfItems (n : node) : Prop :=
  match n with
  | PlainList _ _ _ _ items => Forall (fun i => Ast.type i = "item") items
  | _ => True
  end.

(** [r'] is [r] with the cursor moved forward inside the visible text. *)
Definition advances (r r' : Reader.t) : Prop :=
  exists k, k <= List.length (Reader.rest r) /\ r' = Reader.advance k r.

(** The elements [l] lie between [lo] and [hi], one after the other: each
    carries a contents range that begins at or after the end of the one
    before, and ends at or after it begins. *)
Fixpoint laidOut (lo hi : nat) (l : list node) : Prop :=
  match l with
  | [] => lo <= hi
  | n :: l' =>
      exists cb ce,
        Ast.contentsBegin n = Some cb /\ Ast.contentsEnd n = Some ce
        /\ lo <= cb /\ cb <= ce /\ laidOut ce hi l'
  end.

(** The ranges of the tree under [n], lists apart: the children of the
    root, and the children of every headline, section or paragraph that is a
    greater element for [g], lie inside the contents of their parent, one
    after the other; and so on below them.  The children of plain lists are
    not looked at. *)
Fixpoint placed (g : list string) (n : node) : Prop :=
  match n with
  | OrgData b e c =>
      laidOut b e c
      /\ (fix all (l : list node) : Prop :=
            match l with
            | [] => True
            | x :: l' => placed g x /\ all l'
            end) c
  | Headline _ _ _ b e c | Section b e c | Paragraph b e c =>
      (existsb (String.eqb (Ast.type n)) g = true -> laidOut b e c)
      /\ (fix all (l : list node) : Prop :=
            match l with
            | [] => True
            | x :: l' => placed g x /\ all l'
            end) c
  | _ => True
  end.

(** [if (o) objects.push(o)]: what [parseObjects] pushes for the result [o]
    of [parseObject]. *)
Definition objectOf (o : option node) : list node :=
  match o with
  | Some n => [n]
  | None => []
  end.

(** The objects that [parseObjects] pushes from the Reader [r] on, one
    iteration of its loop after the other.
    - When the object pattern does not match any more, the trailing text is
      what is left of the window: it is pushed, as one text node, when it is
      not all whitespace, and nothing is pushed when it is.
    - When the object pattern matches, the text before the match is pushed,
      as one text node, when the match is not at the cursor, whatever that
      text is, and nothing is pushed for it when the match is at the cursor;
      then comes the object that [parseObject] returns at the match, if it
      returns one; then what is pushed from where [parseObject] has left the
      cursor. *)
Inductive Pushed (U : Utils) (restr : Restriction) : Reader.t -> list node -> Prop :=
| PushedBlank r :
    Reader.match_ (objectRegexp U) r = None ->
    allWhite (Reader.rest r) ->
    Pushed U restr r []
| PushedTrailing r :
    Reader.match_ (objectRegexp U) r = None ->
    ~ allWhite (Reader.rest r) ->
    Pushed U restr r [Text (Reader.rest r)]
| PushedAtCursor r m fuel o r2 tl :
    Reader.match_ (objectRegexp U) r = Some m ->
    index m = 0 ->
    parseObject (fun restr' => parseObjectsLoop U fuel restr' (-1)%Z []) restr r
    = Ok (o, r2) ->
    Pushed U restr r2 tl ->
    Pushed U restr r (objectOf o ++ tl)
| PushedAfterText r m fuel o r2 tl :
    Reader.match_ (objectRegexp U) r = Some m ->
    index m <> 0 ->
    parseObject (fun restr' => parseObjectsLoop U fuel restr' (-1)%Z []) restr
                (Reader.advance (index m) r)
    = Ok (o, r2) ->
    Pushed U restr r2 tl ->
    Pushed U restr r (Text (Reader.peek (index m) r) :: objectOf o ++ tl).

End WindowNotions.

(* ================================================================== *)
(** ** Helpers of the conversion to HTML (orgToHast) *)

Module OrgToHast.
Import Js.

(** [s.split(/\n/g)]: the pattern matches one newline and has no group, so
    the pieces are the lines of [s]; there is always at least one. *)
Fixpoint split (s : text) : list text :=
  match s with
  | [] => [[]]
  | c :: s' =>
      if Ascii.eqb c nl then [] :: split s'
      else match split s' with
           | l :: ls => (c :: l) :: ls
           | [] => [[c]]
           end
  end.

(** [lines.join(sep)]. *)
Fixpoint join (sep : text) (ls : list text) : text :=
  match ls with
  | [] => []
  | [l] => l
  | l :: ls' => l ++ sep ++ join sep ls'
  end.

(** [/\S/]. *)
Definition nonWhiteRe : RegExp := mkRegExp Parser.nonWhite false.

(** [l.match(/\S/)?.index ?? Infinity]; [None] stands for [Infinity]. *)
Definition indexOfNonWhite (l : text) : option nat :=
  match exec nonWhiteRe l with
  | Some m => Some (index m)
  | None => None
  end.

(** [Math.min] of two numbers that may be [Infinity]. *)
Definition min2 (a b : option nat) : option nat :=
  match a, b with
  | Some x, Some y => Some (Nat.min x y)
  | Some x, None => Some x
  | None, _ => b
  end.

(** [Math.min(...xs)], which is [Infinity] for no argument. *)
Definition mathMin (xs : list (option nat)) : option nat :=
  fold_right min2 None xs.

(** [removeCommonIndent(s)]; [l.substring(indent)] is [skipn indent l]. *)
Definition removeCommonIndent (s : text) : text :=
  let lines := split s in
  let minIndent := mathMin (map indexOfNonWhite lines) in
  let indent := match minIndent with
                | None => 0
                | Some n => n
                end in
  join [nl] (map (skipn indent) lines).

(** [intersperse(items, sep)] of the headline case:
    [items.flatMap((e) => [sep, e]).slice(1)]. *)
Definition intersperse {T : Type} (items : list T) (sep : T) : list T :=
  skipn 1 (flat_map (fun e => [sep; e]) items).

End OrgToHast.

(* ================================================================== *)
(** ** The fuel of the quantifier loop *)

Module MatcherFacts.
Import Js.

Section Fuel.
Variable input : text.
Variable flagM : bool.

(** A matcher calls its continuation only at states between the state it
    starts from and the end of the input: two continuations that agree there
    give the same result. *)
Definition local (ma : mstate -> Cont -> option mstate) : Prop :=
  forall x c1 c2,
    (forall y, endIndex x <= endIndex y <= List.length input -> c1 y = c2 y) ->
    endIndex x <= List.length input ->
    ma x c1 = ma x c2.

Lemma repeatMatcher_local ma gs greedy :
  local ma ->
  forall fuel lo hi, local (fun x c => repeatMatcher fuel ma gs greedy lo hi x c).
Proof.
  intros Hma. induction fuel as [|fuel IH]; intros lo hi x c1 c2 Hc Hx.
  - reflexivity.
  - cbn [repeatMatcher].
    assert (Hcx : c1 x = c2 x) by (apply Hc; lia).
    assert (Hd : ma (clearCaptures gs x)
                    (fun y => if ((lo =? 0)%nat && (endIndex y =? endIndex x)%nat)%bool
                              then None
                              else repeatMatcher fuel ma gs greedy (pred lo)
                                     (option_map pred hi) y c1)
                 = ma (clearCaptures gs x)
                      (fun y => if ((lo =? 0)%nat && (endIndex y =? endIndex x)%nat)%bool
                                then None
                                else repeatMatcher fuel ma gs greedy (pred lo)
                                       (option_map pred hi) y c2)).
    { apply Hma; [|exact Hx]. cbn [clearCaptures endIndex]. intros y Hy.
      destruct (_ && _)%bool; [reflexivity|].
      apply IH; [|lia]. intros z Hz. apply Hc. lia. }
    destruct hi as [[|hi]|]; try exact Hcx; rewrite Hd, Hcx; reflexivity.
Qed.

Lemma matcher_local r : local (matcher input flagM r).
Proof.
  induction r as [|p|a IHa b IHb|a IHa b IHb|greedy lo hi a IHa|g a IHa| |];
    intros x c1 c2 Hc Hx; cbn [matcher].
  - apply Hc. lia.
  - destruct (nth_error input (endIndex x)) as [ch|] eqn:Hch; [|reflexivity].
    destruct (p ch); [|reflexivity].
    apply Hc. cbn [endIndex].
    assert (endIndex x < List.length input) by (apply nth_error_Some; congruence).
    lia.
  - apply IHa; [|exact Hx]. intros y Hy. apply IHb; [|lia].
    intros z Hz. apply Hc. lia.
  - rewrite (IHa x c1 c2 Hc Hx), (IHb x c1 c2 Hc Hx). reflexivity.
  - apply (repeatMatcher_local _ _ _ IHa); assumption.
  - apply IHa; [|exact Hx]. intros y Hy. apply Hc. cbn [endIndex]. lia.
  - destruct (atLineStart _ _ _); [apply Hc; lia | reflexivity].
  - destruct (atLineEnd _ _ _); [apply Hc; lia | reflexivity].
Qed.

(** Fuel above [lo + (length input - endIndex x)] is enough for the loop of a
    quantifier: any two such amounts give the same result. *)
Lemma repeatMatcher_fuel ma gs greedy :
  local ma ->
  forall fuel1 fuel2 lo hi x c,
    endIndex x <= List.length input ->
    lo + (List.length input - endIndex x) < fuel1 ->
    lo + (List.length input - endIndex x) < fuel2 ->
    repeatMatcher fuel1 ma gs greedy lo hi x c
    = repeatMatcher fuel2 ma gs greedy lo hi x c.
Proof.
  intros Hma. induction fuel1 as [|fuel1 IH]; intros fuel2 lo hi x c Hx H1 H2;
    [lia|].
  destruct fuel2 as [|fuel2]; [lia|]. cbn [repeatMatcher].
  assert (Hd : ma (clearCaptures gs x)
                  (fun y => if ((lo =? 0)%nat && (endIndex y =? endIndex x)%nat)%bool
                            then None
                            else repeatMatcher fuel1 ma gs greedy (pred lo)
                                   (option_map pred hi) y c)
               = ma (clearCaptures gs x)
                    (fun y => if ((lo =? 0)%nat && (endIndex y =? endIndex x)%nat)%bool
                              then None
                              else repeatMatcher fuel2 ma gs greedy (pred lo)
                                     (option_map pred hi) y c)).
  { apply Hma; [|exact Hx]. cbn [clearCaptures endIndex]. intros y Hy.
    destruct (lo =? 0)%nat eqn:Hlo, (endIndex y =? endIndex x)%nat eqn:Hy';
      cbn [andb]; try reflexivity.
    - apply Nat.eqb_eq in Hlo. apply Nat.eqb_neq in Hy'. apply IH; lia.
    - apply Nat.eqb_neq in Hlo. apply Nat.eqb_eq in Hy'. apply IH; lia.
    - apply Nat.eqb_neq in Hlo. apply IH; lia. }
  destruct hi as [[|hi]|]; try reflexivity; rewrite Hd; reflexivity.
Qed.

(** The fuel that [matcher] gives the loop of a quantifier never runs out:
    any larger amount gives the same result. *)
Lemma matcher_Rep_fuel greedy lo hi a x c k :
  endIndex x <= List.length input ->
  matcher input flagM (Rep greedy lo hi a) x c
  = repeatMatcher (S (lo + (List.length input - endIndex x)) + k)
                  (matcher input flagM a) (groupsOf a) greedy lo hi x c.
Proof.
  intros Hx. cbn [matcher].
  apply repeatMatcher_fuel; [apply matcher_local | exact Hx | lia | lia].
Qed.

End Fuel.

End MatcherFacts.
(* ================================================================== *)
(** ** Facts about strings and the Reader *)

Module ReaderFacts.
Import Js Notions.


Lemma rest_new s : Reader.rest (Reader.new s) = s.
Proof.
  unfold Reader.rest, Reader.new, Reader.endOffset, substring; simpl.
  rewrite Nat.sub_0_r. apply firstn_all.
Qed.

Lemma rest_advance n r :
  Reader.rest (Reader.advance n r) = skipn n (Reader.rest r).
Proof.
  unfold Reader.rest, Reader.advance, Reader.endOffset, substring; simpl.
  rewrite skipn_firstn_comm, skipn_skipn.
  f_equal; [lia | f_equal; lia].
Qed.

Lemma advance_0 r : Reader.advance 0 r = r.
Proof. destruct r; unfold Reader.advance; simpl. now rewrite Nat.add_0_r. Qed.

Lemma advance_advance n m r :
  Reader.advance m (Reader.advance n r) = Reader.advance (n + m) r.
Proof. unfold Reader.advance; simpl. now rewrite Nat.add_assoc. Qed.

Lemma throughNewline_split s :
  s = Reader.throughNewline s ++ skipn (List.length (Reader.throughNewline s)) s.
Proof.
  induction s as [|c s IH]; simpl; [reflexivity|].
  destruct (Ascii.eqb c nl); simpl; [reflexivity|].
  now rewrite <- IH.
Qed.

Lemma throughNewline_length s :
  s <> [] -> 0 < List.length (Reader.throughNewline s) <= List.length s.
Proof.
  induction s as [|c s IH]; [congruence|]. intros _. simpl.
  destruct (Ascii.eqb c nl); simpl; [lia|].
  destruct s; [simpl; lia|]. assert (a :: s <> []) by congruence.
  specialize (IH H). lia.
Qed.

Lemma blankChar_white c : blankChar c -> isWhite c = true.
Proof. intros [-> | [-> | ->]]; reflexivity. Qed.

Lemma trimStart_white s : Forall (fun c => isWhite c = true) s -> trimStart s = [].
Proof.
  induction 1 as [|c s Hc _ IH]; simpl; [reflexivity|]. now rewrite Hc.
Qed.

Lemma trim_blank s : Forall blankChar s -> trim s = [].
Proof.
  intros H. unfold trim, trimEnd. rewrite (trimStart_white s); [reflexivity|].
  eapply Forall_impl; [|exact H]. apply blankChar_white.
Qed.

Lemma Forall_firstn_skipn {A} (P : A -> Prop) n (l : list A) :
  Forall P l -> Forall P (firstn n l) /\ Forall P (skipn n l).
Proof.
  intros H. rewrite <- (firstn_skipn n l) in H. now apply Forall_app in H.
Qed.

Lemma throughNewline_firstn s :
  Reader.throughNewline s = firstn (List.length (Reader.throughNewline s)) s.
Proof.
  induction s as [|c s IH]; simpl; [reflexivity|].
  destruct (Ascii.eqb c nl); simpl; [reflexivity|]. now rewrite <- IH.
Qed.

End ReaderFacts.

(* ================================================================== *)
(** ** Blank documents *)

Module BlankDocument.
Import Js Ast Parser Notions ReaderFacts.

Lemma parseMulti_blank fuel : forall acc r,
  Forall blankChar (Reader.rest r) ->
  List.length (Reader.rest r) < fuel ->
  exists acc',
    parseMulti fuel emptyLine acc r
    = Ok (acc', Reader.advance (List.length (Reader.rest r)) r).
Proof.
  induction fuel as [|fuel IH]; intros acc r Hb Hlen; [lia|].
  simpl. unfold bind at 1. unfold emptyLine at 1.
  unfold bind, get, upd, ret, Reader.line.
  destruct (Reader.rest r) as [|c s] eqn:Hrest.
  - simpl. rewrite !advance_0. eauto.
  - assert (Hne : c :: s <> []) by congruence.
    pose proof (throughNewline_length _ Hne) as Hl.
    pose proof (throughNewline_firstn (c :: s)) as Hf.
    remember (Reader.throughNewline (c :: s)) as ln eqn:Hln.
    assert (Hbl : Forall blankChar ln).
    { rewrite Hf. now apply Forall_firstn_skipn. }
    rewrite (trim_blank _ Hbl). simpl.
    destruct ln as [|c' ln']; [simpl in Hl; lia|].
    set (r1 := Reader.advance (List.length (c' :: ln')) r).
    assert (Hr1 : Reader.rest r1 = skipn (List.length (c' :: ln')) (c :: s)).
    { unfold r1. now rewrite rest_advance, Hrest. }
    destruct (IH (acc ++ [c' :: ln']) r1) as [acc' Hacc'].
    + rewrite Hr1. now apply Forall_firstn_skipn.
    + rewrite Hr1, length_skipn. simpl in *. lia.
    + exists acc'. rewrite Hacc'. unfold r1 at 2. rewrite advance_advance.
      do 3 f_equal. rewrite Hr1, length_skipn. simpl in *. lia.
Qed.

(** C10.  For every input made of blank lines only (every character a space,
    a tab or a newline, the empty input included), [parse] returns an
    org-data node with no children, [contentsBegin] 0 and [contentsEnd] the
    length of the input; fuel above the length of the input is enough. *)
Theorem parse_blank_document (U : Utils) (s : text) (fuel : nat) :
  Forall blankChar s ->
  List.length s < fuel ->
  parse U fuel s = Ok (OrgData 0 (List.length s) []).
Proof.
  intros Hb Hfuel. unfold parse, parseEmptyLines. unfold bind at 1.
  destruct (parseMulti_blank fuel [] (Reader.new s)) as [acc' Hacc'].
  - now rewrite rest_new.
  - now rewrite rest_new.
  - rewrite Hacc', rest_new. unfold parseElements.
    destruct fuel as [|fuel']; [lia|]. simpl.
    unfold bind, get, ret, Reader.eof, Reader.endOffset; simpl.
    now rewrite Nat.eqb_refl.
Qed.

(** The input of two blank lines, the second one a tab. *)
Lemma parse_blank_document_witness :
  parse SpecUtils.utils 7 [space; space; nl; tab; nl]
  = Ok (OrgData 0 5 []).
Proof.
  apply (parse_blank_document SpecUtils.utils [space; space; nl; tab; nl] 7).
  - unfold blankChar; repeat (constructor; [now auto|]); constructor.
  - simpl; lia.
Defined.

End BlankDocument.

(* ================================================================== *)
(** ** parseList *)

Module ListFacts.
Import Js Ast Parser Notions ListWalk.

Lemma find_FirstWith (p : ListStructureItem -> bool) l x :
  find p l = Some x -> FirstWith (fun y => p y = true) l x.
Proof.
  induction l as [|a l IH]; simpl; [discriminate|].
  destruct (p a) eqn:Hpa.
  - intros [= ->]. exists [], l. auto.
  - intros H. destruct (IH H) as (l1 & l2 & -> & Hx & Hl1).
    exists (a :: l1), l2. repeat split; auto.
    constructor; [congruence | assumption].
Qed.

Lemma FirstWith_find (p : ListStructureItem -> bool) l x :
  FirstWith (fun y => p y = true) l x -> find p l = Some x.
Proof.
  intros (l1 & l2 & -> & Hx & Hl1).
  induction Hl1 as [|a l1 Ha _ IH]; simpl.
  - now rewrite Hx.
  - destruct (p a); [congruence | exact IH].
Qed.

Lemma FirstWith_ext (P Q : ListStructureItem -> Prop) l x :
  (forall y, P y <-> Q y) -> FirstWith P l x -> FirstWith Q l x.
Proof.
  intros HPQ (l1 & l2 & -> & Hx & Hl1). exists l1, l2. repeat split.
  - now apply HPQ.
  - eapply Forall_impl; [|exact Hl1]. intros y Hy HQ. now apply Hy, HPQ.
Qed.

Lemma find_none_Forall (p : ListStructureItem -> bool) l :
  find p l = None <-> Forall (fun y => p y <> true) l.
Proof.
  induction l as [|a l IH]; simpl.
  - split; auto.
  - destruct (p a) eqn:Hpa; split; try discriminate.
    + intros H. inversion H; congruence.
    + intros H. constructor; [congruence | now apply IH].
    + intros H. inversion H. now apply IH.
Qed.

Definition hopb (indent pos : nat) (x : ListStructureItem) : bool :=
  (begin x =? pos)%nat && (Ast.indent x =? indent)%nat.

Lemma hopb_spec indent pos x :
  hopb indent pos x = true <-> begin x = pos /\ Ast.indent x = indent.
Proof.
  unfold hopb. now rewrite andb_true_iff, !Nat.eqb_eq.
Qed.

(** The loop of [parseList] stops where the walk of the specification
    stops, given enough fuel. *)
Lemma parseListLoop_HopsTo structure indent pos final :
  HopsTo structure indent pos final ->
  exists fuel0, forall fuel, fuel0 <= fuel ->
    parseListLoop fuel structure indent pos = Some final.
Proof.
  induction 1 as [pos Hnone | pos next final Hfirst _ [fuel0 IH]].
  - exists 1. intros [|fuel] Hf; [lia|]. simpl. fold (hopb indent pos).
    replace (find (hopb indent pos) structure) with (@None ListStructureItem);
      [reflexivity|].
    symmetry. apply find_none_Forall.
    eapply Forall_impl; [|exact Hnone]. intros y Hy Hp. now apply Hy, hopb_spec.
  - exists (S fuel0). intros [|fuel] Hf; [lia|]. simpl. fold (hopb indent pos).
    rewrite (FirstWith_find (hopb indent pos) structure next).
    + apply IH. lia.
    + eapply FirstWith_ext; [|exact Hfirst]. intros y. symmetry. apply hopb_spec.
Qed.

Lemma filter_length_le {A} (p q : A -> bool) l :
  (forall x, q x = true -> p x = true) ->
  List.length (filter q l) <= List.length (filter p l).
Proof.
  intros Hqp. induction l as [|a l IH]; simpl; [lia|].
  destruct (q a) eqn:Hq.
  - rewrite (Hqp a Hq). simpl. lia.
  - destruct (p a); simpl; lia.
Qed.

Lemma filter_length_lt {A} (p q : A -> bool) l a :
  (forall x, q x = true -> p x = true) ->
  In a l -> p a = true -> q a = false ->
  List.length (filter q l) < List.length (filter p l).
Proof.
  intros Hqp Hin Hp Hq. induction l as [|b l IH]; simpl; [contradiction|].
  destruct Hin as [-> | Hin].
  - rewrite Hp, Hq. simpl. pose proof (filter_length_le p q l Hqp). lia.
  - specialize (IH Hin). destruct (q b) eqn:Hqb.
    + rewrite (Hqp b Hqb). simpl. lia.
    + destruct (p b); simpl; lia.
Qed.

(** When every entry ends after it begins, the walk stops. *)
Lemma HopsTo_total structure indent :
  Forall (fun x => begin x < end_ x) structure ->
  forall pos, exists final, HopsTo structure indent pos final.
Proof.
  intros Hwf.
  assert (H : forall n pos,
             List.length (filter (fun x => (pos <=? begin x)%nat) structure) < n ->
             exists final, HopsTo structure indent pos final).
  { induction n as [|n IH]; intros pos Hn; [lia|].
    destruct (find (hopb indent pos) structure) as [next|] eqn:Hfind.
    - pose proof (find_some _ _ Hfind) as [Hin Hp].
      apply hopb_spec in Hp. destruct Hp as [Hb Hi].
      rewrite Forall_forall in Hwf. pose proof (Hwf next Hin) as Hlt.
      destruct (IH (end_ next)) as [final Hfinal].
      + eapply Nat.lt_le_trans;
          [apply (filter_length_lt (fun x => (pos <=? begin x)%nat)
                                   (fun x => (end_ next <=? begin x)%nat)
                                   structure next)|]; try assumption.
        * intros x Hx. apply Nat.leb_le in Hx. apply Nat.leb_le. lia.
        * apply Nat.leb_le. lia.
        * apply Nat.leb_gt. lia.
        * lia.
      + exists final. eapply HopsNext; [|exact Hfinal].
        eapply FirstWith_ext; [|apply find_FirstWith, Hfind].
        intros y. apply hopb_spec.
    - exists pos. apply HopsStop. apply find_none_Forall in Hfind.
      eapply Forall_impl; [|exact Hfind]. intros y Hy Hp. now apply Hy, hopb_spec. }
  intros pos. eapply H. apply Nat.lt_succ_diag_r.
Qed.

(** C5.  With the cursor at the [begin] of some entry of the structure,
    [parseList] takes the indent of the first entry that begins at the cursor
    as the list indent; whenever the walk of section 4.3.3 from that entry's
    [end] stops at [final], it returns (given enough fuel) a plain-list node
    with that indent, the contents range from the cursor to [final] and the
    whole structure, and leaves the cursor at [final]; and the walk does stop
    when every entry ends after it begins. *)
Theorem parseList_walk (structure : list ListStructureItem) (r : Reader.t) :
  (exists e, In e structure /\ begin e = Reader.offset r) ->
  exists item,
    FirstWith (fun x => begin x = Reader.offset r) structure item /\
    (forall final,
        HopsTo structure (Ast.indent item) (end_ item) final ->
        exists fuel0, forall fuel, fuel0 <= fuel ->
          parseList fuel structure r
          = Ok (PlainList (Ast.indent item) (Reader.offset r) final structure [],
                Reader.resetOffset final r)) /\
    (Forall (fun x => begin x < end_ x) structure ->
     exists final, HopsTo structure (Ast.indent item) (end_ item) final).
Proof.
  intros (e & Hin & Hbegin).
  destruct (find (fun x => (begin x =? Reader.offset r)%nat) structure)
    as [item|] eqn:Hfind.
  - exists item. split; [|split].
    + eapply FirstWith_ext; [|apply find_FirstWith, Hfind].
      intros y. apply Nat.eqb_eq.
    + intros final Hwalk.
      destruct (parseListLoop_HopsTo _ _ _ _ Hwalk) as [fuel0 Hloop].
      exists fuel0. intros fuel Hfuel.
      unfold parseList, bind, get, upd, ret, throw.
      rewrite Hfind, (Hloop fuel Hfuel). reflexivity.
    + intros Hwf. apply HopsTo_total, Hwf.
  - exfalso. apply find_none_Forall in Hfind. rewrite Forall_forall in Hfind.
    apply (Hfind e Hin). now apply Nat.eqb_eq.
Qed.

(** The structure and the cursor of the two-item list of section 8. *)
Lemma parseList_walk_witness :
  let s := [mkItem 0 0 (Some (txt "-")) None None None 5;
            mkItem 5 0 (Some (txt "-")) None None None 12] in
  let r := Reader.new (txt "- hi" ++ [nl] ++ txt "- there") in
  exists item,
    FirstWith (fun x => begin x = Reader.offset r) s item /\
    (forall final,
        HopsTo s (Ast.indent item) (end_ item) final ->
        exists fuel0, forall fuel, fuel0 <= fuel ->
          parseList fuel s r
          = Ok (PlainList (Ast.indent item) (Reader.offset r) final s [],
                Reader.resetOffset final r)) /\
    (Forall (fun x => begin x < end_ x) s ->
     exists final, HopsTo s (Ast.indent item) (end_ item) final).
Proof.
  intros s r. apply (parseList_walk s r).
  exists (mkItem 0 0 (Some (txt "-")) None None None 5).
  split; [left; reflexivity | reflexivity].
Defined.

End ListFacts.

(* ================================================================== *)
(** ** parseObjects, parseObject and parseLink *)

Module ObjectFacts.
Import Js Ast Parser Notions ReaderFacts.

Section WithUtils.
Variable U : Utils.

(** One iteration of the loop of [parseObjects]. *)
Lemma parseObjectsLoop_step fuel restr prevOffset objects r :
  parseObjectsLoop U (S fuel) restr prevOffset objects r
  = if (prevOffset =? Z.of_nat (Reader.offset r))%Z then Err NoProgress
    else
      match Reader.match_ (objectRegexp U) r with
      | None =>
          Ok (if (List.length (trim (Reader.rest r)) =? 0)%nat then objects
              else objects ++ [Text (Reader.rest r)],
              Reader.advance (List.length (Reader.rest r)) r)
      | Some m =>
          let objects1 := if (index m =? 0)%nat then objects
                          else objects ++ [Text (Reader.peek (index m) r)] in
          let r1 := if (index m =? 0)%nat then r
                    else Reader.advance (index m) r in
          match parseObject
                  (fun restr' => parseObjectsLoop U fuel restr' (-1)%Z [])
                  restr r1 with
          | Ok (o, r2) =>
              parseObjectsLoop U fuel restr (Z.of_nat (Reader.offset r))
                (match o with
                 | Some n => objects1 ++ [n]
                 | None => objects1
                 end) r2
          | Err e => Err e
          end
      end.
Proof.
  cbn [parseObjectsLoop]. unfold bind at 1. unfold get at 1.
  destruct (prevOffset =? Z.of_nat (Reader.offset r))%Z; [reflexivity|].
  unfold bind at 1. unfold get at 1.
  destruct (Reader.match_ (objectRegexp U) r) as [m|].
  - unfold bind at 1.
    destruct (index m =? 0)%nat; reflexivity.
  - unfold bind, get, upd, ret.
    destruct (List.length (trim (Reader.rest r)) =? 0)%nat; reflexivity.
Qed.

(** When [parseLink] returns [null], it has not moved the cursor. *)
Lemma parseLink_null po r r' :
  parseLink po r = Ok (None, r') -> r' = r.
Proof.
  unfold parseLink, bind, get, upd, ret, throw.
  destruct (text_eqb (Reader.peek 1 r) (txt "[")).
  - destruct (Reader.match_ linkBracketRe r) as [m|]; simpl.
    + destruct (group "link" m); [|discriminate].
      destruct (group "text" m) as [[|c0 tx]|]; try discriminate.
      destruct (po _ _) as [[ch r2]|]; discriminate.
    + now intros [= ->].
  - destruct (Reader.match_ plainLinkRe r) as [m|]; simpl.
    + discriminate.
    + now intros [= ->].
Qed.

(** When [parseObject] returns [null], it has not moved the cursor. *)
Lemma parseObject_null po restr r r' :
  parseObject po restr r = Ok (None, r') -> r' = r.
Proof.
  unfold parseObject, bind, get, ret.
  assert (Hdefault :
    match (match has "link" restr with
           | Ok b => Ok (b, r)
           | Err e => Err e
           end) with
    | Ok (h, r1) => (if h then parseLink po else (fun r0 => Ok (None, r0))) r1
    | Err e => Err e
    end = Ok (None, r') -> r' = r).
  { destruct (has "link" restr) as [[|]|]; try discriminate.
    - apply parseLink_null.
    - now intros [= ->]. }
  destruct (Reader.peek 2 r) as [|c0 [|c1 tx]]; try exact Hdefault.
  - destruct (Ascii.eqb c0 "["); [now intros [= ->] | exact Hdefault].
  - destruct (Ascii.eqb c0 "["); [|exact Hdefault].
    destruct (Ascii.eqb c1 "["); [exact Hdefault | now intros [= ->]].
Qed.

(** The objects accumulated so far are a prefix of the result. *)
Lemma parseObjectsLoop_prefix fuel : forall restr prevOffset objects r objs r',
  parseObjectsLoop U fuel restr prevOffset objects r = Ok (objs, r') ->
  exists tl, objs = objects ++ tl.
Proof.
  induction fuel as [|fuel IH]; intros restr prevOffset objects r objs r' H.
  - discriminate.
  - rewrite parseObjectsLoop_step in H.
    destruct (prevOffset =? Z.of_nat (Reader.offset r))%Z; [discriminate|].
    destruct (Reader.match_ (objectRegexp U) r) as [m|].
    + cbv zeta in H.
      destruct (parseObject _ restr _) as [[o r2]|]; [|discriminate].
      apply IH in H. destruct H as [tl ->].
      destruct o, (index m =? 0)%nat; rewrite <- ?app_assoc; eauto.
    + injection H as <- _.
      destruct (List.length (trim (Reader.rest r)) =? 0)%nat;
        [exists []; now rewrite app_nil_r | eauto].
Qed.

(** Two opening brackets at the cursor: the object pattern matches there,
    by its first alternative. *)
Lemma objectRegexp_brackets r s :
  Reader.rest r = "["%char :: "["%char :: s ->
  Reader.match_ (objectRegexp U) r = Some (mkMatch 0 (txt "[[") []).
Proof.
  intros Hrest. unfold Reader.match_. rewrite Hrest. reflexivity.
Qed.

(** Two opening brackets at the cursor and no bracket link in the window:
    [parseObject] returns [null]. *)
Lemma parseObject_unterminated po restr r s :
  Reader.rest r = "["%char :: "["%char :: s ->
  Reader.match_ linkBracketRe r = None ->
  parseObject po (RSet restr) r = Ok (None, r).
Proof.
  intros Hrest Hlink. unfold parseObject, bind, get, ret, Reader.peek.
  rewrite Hrest. cbn [firstn has]. change (Ascii.eqb "[" "[") with true.
  cbv iota. destruct (existsb _ restr); [|reflexivity].
  unfold parseLink, bind, get, upd, ret, Reader.peek. rewrite Hrest.
  cbn [firstn]. change (text_eqb ["["%char] (txt "[")) with true.
  cbv beta iota. rewrite Hlink. reflexivity.
Qed.

(** An unterminated bracket link at the cursor: [parseObjects] throws
    'no progress'. *)
Lemma parseObjects_unterminated fuel restr r s :
  Reader.rest r = "["%char :: "["%char :: s ->
  Reader.match_ linkBracketRe r = None ->
  parseObjects U (S (S fuel)) (RSet restr) r = Err NoProgress.
Proof.
  intros Hrest Hlink. unfold parseObjects. rewrite parseObjectsLoop_step.
  replace (-1 =? Z.of_nat (Reader.offset r))%Z with false
    by (symmetry; apply Z.eqb_neq; lia).
  rewrite (objectRegexp_brackets r s Hrest). cbv zeta. cbn [index Nat.eqb].
  rewrite (parseObject_unterminated _ restr r s Hrest Hlink).
  rewrite parseObjectsLoop_step. now rewrite Z.eqb_refl.
Qed.

(** C3, on the code.  When the object pattern matches at the cursor
    and [parseObject] returns [null], the cursor has not moved, and
    [parseObjects] does not recover: its next iteration throws
    'no progress'. *)
Theorem parseObjects_null_object_no_progress
    (fuel : nat) (restr : Restriction) (r r' : Reader.t) (m : MatchResult) :
  Reader.match_ (objectRegexp U) r = Some m ->
  index m = 0 ->
  parseObject (fun restr' => parseObjectsLoop U (S fuel) restr' (-1)%Z [])
              restr r = Ok (None, r') ->
  r' = r /\ parseObjects U (S (S fuel)) restr r = Err NoProgress.
Proof.
  intros Hm Hi Hnull. pose proof (parseObject_null _ _ _ _ Hnull) as ->.
  split; [reflexivity|].
  unfold parseObjects. rewrite parseObjectsLoop_step.
  replace (-1 =? Z.of_nat (Reader.offset r))%Z with false
    by (symmetry; apply Z.eqb_neq; lia).
  rewrite Hm. cbv zeta. rewrite Hi. cbn [Nat.eqb]. rewrite Hnull.
  rewrite parseObjectsLoop_step. now rewrite Z.eqb_refl.
Qed.

End WithUtils.

(** The unterminated link of C2 and C3, alone in its window. *)
Lemma parseObjects_null_object_no_progress_witness :
  Reader.new (txt "[[foo") = Reader.new (txt "[[foo") /\
  parseObjects SpecUtils.utils 2 (RSet ["link"; "text"]) (Reader.new (txt "[[foo"))
  = Err NoProgress.
Proof.
  apply (parseObjects_null_object_no_progress SpecUtils.utils 0
           (RSet ["link"; "text"]) (Reader.new (txt "[[foo"))
           (Reader.new (txt "[[foo")) (mkMatch 0 (txt "[[") []));
    reflexivity.
Defined.

(** C9 fails as stated: between two links, [parseObjects] emits a text node
    that holds one space. *)
Lemma parseObjects_whitespace_text_counterexample :
  exists objs r',
    parseObjects SpecUtils.utils 4 (RSet ["link"; "text"])
                 (Reader.new (txt "[[a]] [[b]]")) = Ok (objs, r')
    /\ In (Text [space]) objs
    /\ trim [space] = [].
Proof.
  eexists. eexists. split; [vm_compute; reflexivity|].
  split; [right; left; reflexivity | reflexivity].
Qed.

(** C6, on the code.  The description of a link is parsed with the
    string ['link'] as restriction, not with a set: in the description
    [b[[c] of the link [[[a][b[[c]]] the object pattern matches, [parseObject]
    calls [has] on the string, and the parse throws a TypeError, whatever the
    utilities are. *)
Theorem parseLink_description_throws (U : Utils) (fuel : nat) :
  parseLink (fun restr' => parseObjectsLoop U (S (S fuel)) restr' (-1)%Z [])
            (Reader.new (txt "[[a][b[[c]]"))
  = Err TypeError.
Proof.
  unfold parseLink, bind at 1. unfold get at 1. unfold bind at 1. unfold get at 1.
  change (text_eqb (Reader.peek 1 (Reader.new (txt "[[a][b[[c]]"))) (txt "["))
    with true. cbv iota.
  unfold bind at 1. unfold get at 1.
  change (Reader.match_ linkBracketRe (Reader.new (txt "[[a][b[[c]]")))
    with (Some (mkMatch 0 (txt "[[a][b[[c]]")
                        [("4", txt "[b[[c]"); ("text", txt "b[[c");
                         ("link", txt "a"); ("2", txt "a")])).
  unfold bind at 1. unfold upd at 1.
  cbv beta iota.
  change (group "link" _) with (Some (txt "a")). cbv iota.
  change (group "text" _) with (Some (txt "b[[c")).
  unfold bind at 1. cbn [txt list_ascii_of_string].
  unfold bind at 1. unfold upd at 1. unfold bind at 1.
  rewrite parseObjectsLoop_step.
  match goal with |- context [Reader.match_ ?re ?r] => set (rd := r) end.
  change (-1 =? Z.of_nat (Reader.offset rd))%Z with false. cbv iota.
  unfold Reader.match_. change (Reader.rest rd) with (txt "b[[c").
  unfold exec. cbn [execFrom List.length txt list_ascii_of_string].
  generalize (parseObjectsLoop U (S fuel)) as po. intros po.
  cbn [objectRegexp source multiline matcher chr nth_error endIndex captures].
  change (Ascii.eqb "[" "b") with false. cbv iota.
  destruct (matcher _ false (linkPlainRe U) {| endIndex := 0; captures := [] |} Some)
    as [y|].
  - cbn [toMatch index Nat.eqb]. reflexivity.
  - change (Ascii.eqb "[" "[") with true. cbv iota.
    cbn [toMatch index Nat.eqb]. reflexivity.
Qed.

End ObjectFacts.

(* ================================================================== *)
(** ** The list structure scanner *)

Module ScannerFacts.
Import Js Ast Parser Notions ReaderFacts.

Lemma movedForward_refl r : movedForward r r.
Proof. repeat split; auto. Qed.

Lemma movedForward_trans r1 r2 r3 :
  movedForward r1 r2 -> movedForward r2 r3 -> movedForward r1 r3.
Proof.
  intros (? & ? & ? & ? & ?) (? & ? & ? & ? & ?).
  repeat split; try congruence. lia.
Qed.

Lemma movedForward_advance n r : movedForward r (Reader.advance n r).
Proof. repeat split; simpl; lia. Qed.

Lemma movedForward_reset r r' :
  movedForward r r' -> Reader.resetOffset (Reader.offset r) r' = r.
Proof.
  destruct r, r'. unfold movedForward, Reader.resetOffset. simpl.
  intros (-> & -> & -> & -> & _). reflexivity.
Qed.

Lemma parseMulti_forward fuel : forall acc r x r',
  parseMulti fuel emptyLine acc r = Ok (x, r') -> movedForward r r'.
Proof.
  induction fuel as [|fuel IH]; intros acc r x r'; [discriminate|].
  simpl. unfold bind at 1. unfold emptyLine at 1.
  unfold bind, get, upd, ret.
  destruct (List.length (trim (Reader.line r)) =? 0)%nat.
  - destruct (Reader.line r) as [|c ln] eqn:Hline.
    + intros [= _ <-]. apply movedForward_advance.
    + intros H. apply IH in H.
      eapply movedForward_trans; [apply movedForward_advance | exact H].
  - intros [= _ <-]. apply movedForward_refl.
Qed.

Lemma parseEmptyLines_forward fuel r x r' :
  parseEmptyLines fuel r = Ok (x, r') -> movedForward r r'.
Proof. apply parseMulti_forward. Qed.

Section WithUtils.
Variable U : Utils.

Lemma parseListStructureLoop_forward fuel : forall items struct r x r',
  parseListStructureLoop U fuel items struct r = Ok (x, r') ->
  movedForward r r'.
Proof.
  induction fuel as [|fuel IH]; intros items struct r x r'; [discriminate|].
  cbn [parseListStructureLoop]. unfold bind, get, upd, ret, throw.
  destruct (Reader.eof r || _).
  { intros [= _ <-]. apply movedForward_refl. }
  destruct (Reader.match_ (itemRe U) r) as [m|].
  - destruct (group "indent" m); [|discriminate].
    destruct (endPreviousSiblings _ _ _ _) as [items1 struct1].
    destruct (Reader.match_ (fullItemRe U) r); [|discriminate].
    intros H. apply IH in H.
    eapply movedForward_trans; [apply movedForward_advance | exact H].
  - destruct (isSome (Reader.match_ emptyLineRe r)).
    + intros H. apply IH in H.
      eapply movedForward_trans; [apply movedForward_advance | exact H].
    + destruct (Reader.match_ indentRe r); [|discriminate].
      destruct (endPreviousSiblings _ _ _ _) as [[|i items1] struct1].
      * intros [= _ <-]. apply movedForward_refl.
      * intros H. apply IH in H.
        eapply movedForward_trans; [apply movedForward_advance | exact H].
Qed.


(** The two phases of [parseListStructure]: its loop, then the trailing
    blank lines. *)
Lemma parseListStructure_split fuel r s r1 :
  parseListStructure U fuel r = Ok (s, r1) ->
  exists items struct r0 x,
    parseListStructureLoop U fuel [] [] r = Ok ((items, struct), r0)
    /\ parseEmptyLines fuel r0 = Ok (x, r1).
Proof.
  intros Hscan. unfold parseListStructure in Hscan. unfold bind at 1 in Hscan.
  destruct (parseListStructureLoop U fuel [] [] r)
    as [[[items struct] r0]|] eqn:Hl; [|discriminate].
  cbv beta iota in Hscan. unfold bind at 1 in Hscan.
  destruct (parseEmptyLines fuel r0) as [[x r0']|] eqn:He; [|discriminate].
  unfold bind, get, ret in Hscan. injection Hscan as _ <-.
  exists items, struct, r0, x. split; [reflexivity | exact He].
Qed.

(** The scanner only moves the cursor forward. *)
Lemma parseListStructure_forward fuel r s r1 :
  parseListStructure U fuel r = Ok (s, r1) -> movedForward r r1.
Proof.
  intros Hscan.
  destruct (parseListStructure_split _ _ _ _ Hscan)
    as (items & struct & r0 & x & Hloop & Hempty).
  eapply movedForward_trans.
  - eapply parseListStructureLoop_forward, Hloop.
  - eapply parseEmptyLines_forward, Hempty.
Qed.


End WithUtils.



End ScannerFacts.

(* ================================================================== *)
(** ** The windows of the Reader across parseObjects *)

Module WindowFacts.
Import Js Ast Parser Notions ObjectFacts.

Lemma sameWindow_refl r : sameWindow r r.
Proof. repeat split. Qed.

Lemma sameWindow_trans r1 r2 r3 :
  sameWindow r1 r2 -> sameWindow r2 r3 -> sameWindow r1 r3.
Proof.
  intros (? & ? & ? & ?) (? & ? & ? & ?). repeat split; congruence.
Qed.

Lemma sameWindow_advance n r : sameWindow r (Reader.advance n r).
Proof. repeat split. Qed.

Lemma sameWindow_advanceMatch m r : sameWindow r (Reader.advanceMatch m r).
Proof. destruct m; repeat split. Qed.

(** A window that is narrowed, used by a parse that keeps the stack, and
    widened, is the window before. *)
Lemma sameWindow_narrow_widen b e keep r r' :
  sameWindow (Reader.narrow b e r) r' -> sameWindow r (Reader.widen keep r').
Proof.
  unfold sameWindow, Reader.widen. simpl. intros (Hb & _ & _ & Hn).
  rewrite Hn. simpl. auto.
Qed.

(** The recursive call of [parseLink] keeps the windows. *)
Definition keepsWindow (po : Restriction -> M (list node)) : Prop :=
  forall restr r objs r', po restr r = Ok (objs, r') -> sameWindow r r'.

Lemma parseLink_window po r o r' :
  keepsWindow po -> parseLink po r = Ok (o, r') -> sameWindow r r'.
Proof.
  intros Hpo. unfold parseLink, bind, get, upd, ret, throw.
  destruct (text_eqb (Reader.peek 1 r) (txt "[")).
  - destruct (Reader.match_ linkBracketRe r) as [m|]; simpl.
    + destruct (group "link" m) as [link|]; [|discriminate].
      destruct (group "text" m) as [[|c0 tx]|].
      * intros [= _ <-]. apply sameWindow_advance.
      * destruct (po _ _) as [[ch r2]|] eqn:Hch; [|discriminate].
        intros [= _ <-]. apply Hpo in Hch.
        apply (sameWindow_narrow_widen _ _ false) in Hch.
        eapply sameWindow_trans; [|exact Hch]. apply sameWindow_advance.
      * intros [= _ <-]. apply sameWindow_advance.
    + intros [= _ <-]. apply sameWindow_refl.
  - destruct (Reader.match_ plainLinkRe r) as [m|]; simpl.
    + intros [= _ <-]. apply sameWindow_advance.
    + intros [= _ <-]. apply sameWindow_refl.
Qed.

Lemma parseObject_window po restr r o r' :
  keepsWindow po -> parseObject po restr r = Ok (o, r') -> sameWindow r r'.
Proof.
  intros Hpo. unfold parseObject, bind, get, ret.
  assert (Hdefault :
    match (match has "link" restr with
           | Ok b => Ok (b, r)
           | Err e => Err e
           end) with
    | Ok (h, r1) => (if h then parseLink po else (fun r0 => Ok (None, r0))) r1
    | Err e => Err e
    end = Ok (o, r') -> sameWindow r r').
  { destruct (has "link" restr) as [[|]|]; try discriminate.
    - now apply parseLink_window.
    - intros [= _ <-]. apply sameWindow_refl. }
  destruct (Reader.peek 2 r) as [|c0 [|c1 tx]]; try exact Hdefault.
  - destruct (Ascii.eqb c0 "["); [|exact Hdefault].
    intros [= _ <-]. apply sameWindow_refl.
  - destruct (Ascii.eqb c0 "["); [|exact Hdefault].
    destruct (Ascii.eqb c1 "["); [exact Hdefault|].
    intros [= _ <-]. apply sameWindow_refl.
Qed.

(** [parseObjects] leaves the buffer, the window and the stack of windows as
    it found them: every [narrow] of [parseLink] is undone by its [widen]. *)
Lemma parseObjectsLoop_window (U : Utils) fuel :
  forall restr prevOffset objects r objs r',
    parseObjectsLoop U fuel restr prevOffset objects r = Ok (objs, r') ->
    sameWindow r r'.
Proof.
  induction fuel as [|fuel IH]; intros restr prevOffset objects r objs r' H.
  - discriminate.
  - rewrite parseObjectsLoop_step in H.
    destruct (prevOffset =? Z.of_nat (Reader.offset r))%Z; [discriminate|].
    destruct (Reader.match_ (objectRegexp U) r) as [m|].
    + cbv zeta in H.
      destruct (parseObject _ restr _) as [[o r2]|] eqn:Ho; [|discriminate].
      apply parseObject_window in Ho.
      * apply IH in H. eapply sameWindow_trans; [|exact H].
        eapply sameWindow_trans; [|exact Ho].
        destruct (index m =? 0)%nat;
          [apply sameWindow_refl | apply sameWindow_advance].
      * intros restr' ra objs' rb. apply IH.
    + injection H as _ <-. apply sameWindow_advance.
Qed.

Lemma parseObjects_window (U : Utils) fuel restr r objs r' :
  parseObjects U fuel restr r = Ok (objs, r') -> sameWindow r r'.
Proof. apply parseObjectsLoop_window. Qed.

End WindowFacts.

(* ================================================================== *)
(** ** The loop of parseElements *)

Module ElementFacts.
Import Js Ast Parser Positions Notions ObjectFacts WindowFacts ScannerFacts.

Section WithUtils.
Variable U : Utils.

(** One iteration of the loop of [parseElements]. *)
Lemma parseElementsLoop_step fuel mode structure prevOffset elements r :
  parseElementsLoop U (S fuel) mode structure prevOffset elements r
  = if Reader.eof r then Ok (elements, r)
    else if (Z.of_nat (Reader.offset r) =? prevOffset)%Z then Err NoProgressElements
    else
      match parseElement U fuel mode structure r with
      | Ok (element, r1) =>
          match withChildren U fuel mode structure element r1 with
          | Ok (element', r2) =>
              parseElementsLoop U fuel (nextMode mode (Ast.type element) false)
                structure (Z.of_nat (Reader.offset r)) (elements ++ [element']) r2
          | Err e => Err e
          end
      | Err e => Err e
      end.
Proof.
  cbn [parseElementsLoop]. unfold bind at 1. unfold get at 1.
  destruct (Reader.eof r); [reflexivity|].
  unfold bind at 1. unfold get at 1.
  destruct (Z.of_nat (Reader.offset r) =? prevOffset)%Z; [reflexivity|].
  unfold bind at 1.
  destruct (parseElement U fuel mode structure r) as [[element r1]|]; [|reflexivity].
  unfold bind at 1. unfold withChildren.
  destruct (Ast.contentsBegin element), (Ast.contentsEnd element); reflexivity.
Qed.

(** The elements accumulated so far are a prefix of the result. *)
Lemma parseElementsLoop_prefix fuel :
  forall mode structure prevOffset elements r l r',
    parseElementsLoop U fuel mode structure prevOffset elements r = Ok (l, r') ->
    exists rest, l = elements ++ rest.
Proof.
  induction fuel as [|fuel IH]; intros mode structure prevOffset elements r l r' H.
  - discriminate.
  - rewrite parseElementsLoop_step in H.
    destruct (Reader.eof r).
    { injection H as <- _. exists []. now rewrite app_nil_r. }
    destruct (_ =? _)%Z; [discriminate|].
    destruct (parseElement U fuel mode structure r) as [[element r1]|]; [|discriminate].
    destruct (withChildren U fuel mode structure element r1) as [[element' r2]|];
      [|discriminate].
    apply IH in H. destruct H as [rest ->].
    rewrite <- app_assoc. eauto.
Qed.

(** The descent keeps the positions of the element. *)
Lemma withChildren_begin fuel mode structure element r element' r' :
  withChildren U fuel mode structure element r = Ok (element', r') ->
  Ast.contentsBegin element' = Ast.contentsBegin element.
Proof.
  unfold withChildren, bind, upd, ret.
  destruct (Ast.contentsBegin element) eqn:Hb, (Ast.contentsEnd element);
    try (intros [= <- _]; exact Hb).
  destruct (existsb _ _).
  - destruct (parseElementsLoop _ _ _ _ _ _ _) as [[ch r2]|]; [|discriminate].
    intros [= <- _]. rewrite <- Hb. now destruct element.
  - destruct (parseObjects _ _ _ _) as [[ch r2]|]; [|discriminate].
    intros [= <- _]. rewrite <- Hb. now destruct element.
Qed.

(** Outside the modes 'item', 'section' and 'first-section' and not at a
    heading, the element that [parseElement] returns begins at the cursor. *)
Lemma parseElement_begin fuel r element r' :
  atHeading r = false ->
  parseElement U fuel NullMode None r = Ok (element, r') ->
  Ast.contentsBegin element = Some (Reader.offset r).
Proof.
  intros Hh. unfold parseElement. cbn [ParseMode_eqb].
  unfold bind at 1. unfold get at 1. rewrite Hh.
  unfold bind at 1. unfold get at 1.
  destruct (isSome (Reader.match_ (itemRe U) r)).
  - unfold bind at 1. unfold bind at 1. unfold get at 1. unfold bind at 1.
    destruct (parseListStructure U fuel r) as [[s r1]|] eqn:Hscan; [|discriminate].
    apply parseListStructure_forward, movedForward_reset in Hscan.
    unfold bind at 1. unfold upd at 1. unfold ret at 1. rewrite Hscan.
    unfold parseList, bind, get, upd, ret, throw.
    destruct (find _ s); [|discriminate].
    destruct (parseListLoop _ _ _ _); [|discriminate].
    now intros [= <- _].
  - unfold parseParagraph, bind, get, upd, ret.
    destruct (parseEmptyLines _ _) as [[x r2]|]; [|discriminate].
    now intros [= <- _].
Qed.

End WithUtils.

End ElementFacts.

(* ================================================================== *)
(** ** More fuel changes nothing *)

Module FuelFacts.
Import Js Ast Parser Notions ObjectFacts ElementFacts.

(** [m2] does what [m1] does, wherever [m1] does not run out of fuel. *)
Definition le {A} (m1 m2 : M A) : Prop :=
  forall r res, m1 r = res -> res <> Err OutOfFuel -> m2 r = res.

Lemma le_refl {A} (m : M A) : le m m.
Proof. intros r res H _. exact H. Qed.

Lemma le_trans {A} (m1 m2 m3 : M A) : le m1 m2 -> le m2 m3 -> le m1 m3.
Proof. intros H12 H23 r res H Hd. apply H23; [apply H12|]; assumption. Qed.

Lemma le_throw {A} (m : M A) : le (throw OutOfFuel) m.
Proof. intros r res <- Hd. now elim Hd. Qed.

Lemma le_bind {A B} (m1 m2 : M A) (k1 k2 : A -> M B) :
  le m1 m2 -> (forall a, le (k1 a) (k2 a)) -> le (bind m1 k1) (bind m2 k2).
Proof.
  intros Hm Hk r res H Hd. unfold bind in *.
  destruct (m1 r) as [[a r1]|e] eqn:H1.
  - rewrite (Hm r _ H1) by discriminate. now apply Hk.
  - subst res. rewrite (Hm r _ H1); [reflexivity|].
    intros [= ->]. now elim Hd.
Qed.

Ltac le_step :=
  first [ apply le_refl
        | apply le_throw
        | apply le_bind; [|intros ?] ].

Lemma parseMulti_le p fuel : forall acc,
  le (parseMulti fuel p acc) (parseMulti (S fuel) p acc).
Proof.
  induction fuel as [|fuel IH]; intros acc; [apply le_throw|].
  change (le (x <- p ;; match x with
                        | Some (c :: s) => parseMulti fuel p (acc ++ [c :: s])
                        | _ => ret acc
                        end)
             (x <- p ;; match x with
                        | Some (c :: s) => parseMulti (S fuel) p (acc ++ [c :: s])
                        | _ => ret acc
                        end)).
  apply le_bind; [apply le_refl|]. intros [[|c s]|]; try apply le_refl. apply IH.
Qed.

Lemma parseEmptyLines_le fuel : le (parseEmptyLines fuel) (parseEmptyLines (S fuel)).
Proof. apply parseMulti_le. Qed.

Lemma parseListLoop_le fuel : forall structure indent pos final,
  parseListLoop fuel structure indent pos = Some final ->
  parseListLoop (S fuel) structure indent pos = Some final.
Proof.
  induction fuel as [|fuel IH]; intros structure indent pos final; [discriminate|].
  cbn [parseListLoop]. destruct (find _ structure) as [next|]; [|trivial].
  intros H. apply IH in H. exact H.
Qed.

Lemma parseList_le fuel structure :
  le (parseList fuel structure) (parseList (S fuel) structure).
Proof.
  unfold parseList. apply le_bind; [apply le_refl|]. intros contentsBegin.
  destruct (find _ structure) as [item|]; [|apply le_refl].
  destruct (parseListLoop fuel _ _ _) as [final|] eqn:Hloop; [|apply le_throw].
  rewrite (parseListLoop_le _ _ _ _ _ Hloop). apply le_refl.
Qed.

Section WithUtils.
Variable U : Utils.

Lemma parseParagraph_le fuel : le (parseParagraph U fuel) (parseParagraph U (S fuel)).
Proof.
  unfold parseParagraph. repeat le_step. apply parseEmptyLines_le.
Qed.

Lemma parseListStructureLoop_le fuel : forall items struct,
  le (parseListStructureLoop U fuel items struct)
     (parseListStructureLoop U (S fuel) items struct).
Proof.
  induction fuel as [|fuel IH]; intros items struct; [apply le_throw|].
  remember (S fuel) as fuel1 eqn:Hf. cbn [parseListStructureLoop].
  subst fuel1. cbn [parseListStructureLoop].
  apply le_bind; [apply le_refl|]. intros eof.
  apply le_bind; [apply le_refl|]. intros listEnd.
  destruct (eof || _); [apply le_refl|].
  apply le_bind; [apply le_refl|]. intros [m|].
  - destruct (group "indent" m); [|apply le_refl].
    apply le_bind; [apply le_refl|]. intros offset.
    destruct (endPreviousSiblings _ _ _ _) as [items1 struct1].
    apply le_bind; [apply le_refl|]. intros [fm|]; [|apply le_refl].
    apply le_bind; [apply le_refl|]. intros line.
    apply le_bind; [apply le_refl|]. intros _. apply IH.
  - apply le_bind; [apply le_refl|]. intros e.
    destruct (isSome e).
    + apply le_bind; [apply le_refl|]. intros line.
      apply le_bind; [apply le_refl|]. intros _. apply IH.
    + apply le_bind; [apply le_refl|]. intros [im|]; [|apply le_refl].
      apply le_bind; [apply le_refl|]. intros offset.
      destruct (endPreviousSiblings _ _ _ _) as [[|i items1] struct1];
        [apply le_refl|].
      apply le_bind; [apply le_refl|]. intros line.
      apply le_bind; [apply le_refl|]. intros _. apply IH.
Qed.

Lemma parseListStructure_le fuel :
  le (parseListStructure U fuel) (parseListStructure U (S fuel)).
Proof.
  unfold parseListStructure.
  apply le_bind; [apply parseListStructureLoop_le|]. intros [items struct].
  apply le_bind; [apply parseEmptyLines_le|]. intros _. apply le_refl.
Qed.

Lemma parseLink_le po1 po2 :
  (forall restr, le (po1 restr) (po2 restr)) -> le (parseLink po1) (parseLink po2).
Proof.
  intros Hpo. unfold parseLink.
  apply le_bind; [apply le_refl|]. intros initialOffset.
  apply le_bind; [apply le_refl|]. intros c.
  destruct (text_eqb c (txt "[")); [|apply le_refl].
  apply le_bind; [apply le_refl|]. intros m.
  apply le_bind; [apply le_refl|]. intros _.
  destruct m as [m|]; [|apply le_refl].
  destruct (group "link" m) as [link|]; [|apply le_refl].
  apply le_bind; [|intros children; apply le_refl].
  destruct (group "text" m) as [[|c0 tx]|]; try apply le_refl.
  apply le_bind; [apply le_refl|]. intros _.
  apply le_bind; [apply Hpo|]. intros children. apply le_refl.
Qed.

Lemma parseObject_le po1 po2 restr :
  (forall restr', le (po1 restr') (po2 restr')) ->
  le (parseObject po1 restr) (parseObject po2 restr).
Proof.
  intros Hpo. unfold parseObject.
  apply le_bind; [apply le_refl|]. intros c.
  assert (Hdefault :
    le (h <- (fun r => match has "link" restr with
                      | Ok b => Ok (b, r)
                      | Err e => Err e
                      end) ;;
        if h then parseLink po1 else ret None)
       (h <- (fun r => match has "link" restr with
                      | Ok b => Ok (b, r)
                      | Err e => Err e
                      end) ;;
        if h then parseLink po2 else ret None)).
  { apply le_bind; [apply le_refl|]. intros [|]; [|apply le_refl].
    now apply parseLink_le. }
  destruct c as [|c0 [|c1 tx]]; try exact Hdefault.
  - destruct (Ascii.eqb c0 "["); [apply le_refl | exact Hdefault].
  - destruct (Ascii.eqb c0 "["); [|exact Hdefault].
    destruct (Ascii.eqb c1 "["); [exact Hdefault | apply le_refl].
Qed.

Lemma parseObjectsLoop_le fuel : forall restr prevOffset objects,
  le (parseObjectsLoop U fuel restr prevOffset objects)
     (parseObjectsLoop U (S fuel) restr prevOffset objects).
Proof.
  induction fuel as [|fuel IH]; intros restr prevOffset objects; [apply le_throw|].
  intros r res H Hd.
  rewrite parseObjectsLoop_step in H. rewrite parseObjectsLoop_step.
  destruct (prevOffset =? Z.of_nat (Reader.offset r))%Z; [exact H|].
  destruct (Reader.match_ (objectRegexp U) r) as [m|]; [|exact H].
  cbv zeta in H |- *.
  pose proof (parseObject_le
                (fun restr' => parseObjectsLoop U fuel restr' (-1)%Z [])
                (fun restr' => parseObjectsLoop U (S fuel) restr' (-1)%Z [])
                restr (fun restr' => IH restr' (-1)%Z [])) as Hobj.
  destruct (parseObject (fun restr' => parseObjectsLoop U fuel restr' (-1)%Z [])
                        restr _) as [[o r2]|e] eqn:Ho.
  - rewrite (Hobj _ _ Ho) by discriminate. now apply IH.
  - subst res. rewrite (Hobj _ _ Ho); [reflexivity|].
    intros [= ->]. now elim Hd.
Qed.

Lemma parseObjects_le fuel restr :
  le (parseObjects U fuel restr) (parseObjects U (S fuel) restr).
Proof. apply parseObjectsLoop_le. Qed.

Lemma parseHeadline_le fuel : le (parseHeadline U fuel) (parseHeadline U (S fuel)).
Proof.
  unfold parseHeadline.
  apply le_bind; [apply le_refl|]. intros stars.
  apply le_bind; [apply le_refl|]. intros _.
  destruct stars as [st|]; [|apply le_refl].
  destruct (group "1" st) as [s1|]; [|apply le_refl].
  apply le_bind; [apply le_refl|]. intros [tm|]; [|apply le_refl].
  do 4 (apply le_bind; [apply le_refl|]; intros ?).
  apply le_bind; [apply parseObjects_le|]. intros title.
  do 3 (apply le_bind; [apply le_refl|]; intros ?).
  apply le_bind; [apply parseEmptyLines_le|]. intros _.
  apply le_refl.
Qed.

Lemma parseElement_le fuel mode structure :
  le (parseElement U fuel mode structure) (parseElement U (S fuel) mode structure).
Proof.
  unfold parseElement.
  destruct (ParseMode_eqb mode ItemMode); [apply le_refl|].
  apply le_bind; [apply le_refl|]. intros [|]; [apply parseHeadline_le|].
  destruct (ParseMode_eqb mode SectionMode); [apply le_refl|].
  destruct (ParseMode_eqb mode FirstSection); [apply le_refl|].
  apply le_bind; [apply le_refl|]. intros im.
  destruct (isSome im); [|apply parseParagraph_le].
  apply le_bind; [|intros s; apply parseList_le].
  destruct structure as [s|]; [apply le_refl|].
  apply le_bind; [apply le_refl|]. intros offset.
  apply le_bind; [apply parseListStructure_le|]. intros s. apply le_refl.
Qed.

Lemma parseElementsLoop_le fuel : forall mode structure prevOffset elements,
  le (parseElementsLoop U fuel mode structure prevOffset elements)
     (parseElementsLoop U (S fuel) mode structure prevOffset elements).
Proof.
  induction fuel as [|fuel IH]; intros mode structure prevOffset elements;
    [apply le_throw|].
  assert (Hwith : forall element,
             le (withChildren U fuel mode structure element)
                (withChildren U (S fuel) mode structure element)).
  { intros element. unfold withChildren.
    destruct (Ast.contentsBegin element), (Ast.contentsEnd element);
      try apply le_refl.
    destruct (existsb _ _).
    - apply le_bind; [apply le_refl|]. intros _.
      apply le_bind; [apply IH|]. intros children. apply le_refl.
    - apply le_bind; [apply le_refl|]. intros _.
      apply le_bind; [apply parseObjects_le|]. intros children. apply le_refl. }
  intros r res H Hd.
  rewrite parseElementsLoop_step in H. rewrite parseElementsLoop_step.
  destruct (Reader.eof r); [exact H|].
  destruct (_ =? _)%Z; [exact H|].
  destruct (parseElement U fuel mode structure r) as [[element r1]|e] eqn:He.
  - rewrite (parseElement_le _ _ _ _ _ He) by discriminate.
    destruct (withChildren U fuel mode structure element r1)
      as [[element' r2]|e] eqn:Hw.
    + rewrite (Hwith _ _ _ Hw) by discriminate. now apply IH.
    + subst res. rewrite (Hwith _ _ _ Hw); [reflexivity|].
      intros [= ->]. now elim Hd.
  - subst res. rewrite (parseElement_le _ _ _ _ _ He); [reflexivity|].
    intros [= ->]. now elim Hd.
Qed.

Lemma parse_le fuel (s : text) (res : result node) :
  parse U fuel s = res -> res <> Err OutOfFuel -> parse U (S fuel) s = res.
Proof.
  unfold parse.
  assert (Hle : le (parseEmptyLines fuel ;;;
                    children <- parseElements U fuel FirstSection None ;;
                    endOffset <- get Reader.endOffset ;;
                    ret (OrgData 0 endOffset children))
                   (parseEmptyLines (S fuel) ;;;
                    children <- parseElements U (S fuel) FirstSection None ;;
                    endOffset <- get Reader.endOffset ;;
                    ret (OrgData 0 endOffset children))).
  { apply le_bind; [apply parseEmptyLines_le|]. intros _.
    apply le_bind; [apply parseElementsLoop_le|]. intros children. apply le_refl. }
  intros H Hd.
  destruct ((parseEmptyLines fuel ;;; _) (Reader.new s)) as [[ast r1]|e] eqn:Hn.
  - rewrite (Hle _ _ Hn) by discriminate. exact H.
  - rewrite (Hle _ _ Hn); [exact H|]. intros [= ->]. now subst res.
Qed.

(** A result of [parse] other than running out of fuel is its result with
    any larger fuel. *)
Lemma parse_fuel (fuel fuel' : nat) (s : text) (res : result node) :
  parse U fuel s = res -> res <> Err OutOfFuel -> fuel <= fuel' ->
  parse U fuel' s = res.
Proof.
  intros H Hd Hle. induction Hle as [|n _ IH]; [exact H|].
  now apply parse_le.
Qed.

End WithUtils.

(** Runs [parse] with fuel [n] and carries the result to any larger fuel. *)
Ltac run_parse n :=
  let fuel := fresh "fuel" in
  let Hfuel := fresh "Hfuel" in
  intros fuel Hfuel; apply (parse_fuel _ n);
  [vm_compute; reflexivity | discriminate | exact Hfuel].

End FuelFacts.

(* ================================================================== *)
(** ** Sections and headings *)

Module SectionFacts.
Import Js Ast Parser Notions FuelFacts.

(** What [parseSection] does: the section runs from the cursor to the first
    match of its pattern, or to the end of the window, and the cursor moves
    there. *)
Lemma parseSection_eq (r : Reader.t) :
  parseSection r
  = let e := match Reader.match_ sectionEndRe r with
             | Some m => Reader.offset r + index m
             | None => Reader.endOffset r
             end in
    Ok (Section (Reader.offset r) e [], Reader.resetOffset e r).
Proof. reflexivity. Qed.

(** C4, on the code.  In mode 'section' with the cursor not at a
    heading, the section does not stop at a line of asterisks followed by a
    tab, and it stops at a line of asterisks followed by the letter t: in
    [a\n*\tb] the section runs to the end of the window, offset 5, where C4
    has it end at 2, and in [a\n*tb] it ends at 2, where C4 has it run to
    5. *)
Theorem parseSection_heading_pattern (U : Utils) (fuel : nat) :
  let tabbed := Reader.new (txt "a" ++ [nl] ++ txt "*" ++ [tab] ++ txt "b") in
  let lettered := Reader.new (txt "a" ++ [nl] ++ txt "*tb") in
  parseElement U fuel SectionMode None tabbed
  = Ok (Section 0 5 [], Reader.resetOffset 5 tabbed)
  /\ parseElement U fuel SectionMode None lettered
     = Ok (Section 0 2 [], Reader.resetOffset 2 lettered)
  /\ isSome (Reader.match_ nextHeadingRe tabbed) = true
  /\ isSome (Reader.match_ nextHeadingRe lettered) = false.
Proof. repeat split; reflexivity. Qed.

(** Under a headline, a line of two asterisks and a tab does not end the
    section: the section runs to the end of the headline. *)
Example parse_section_tab :
  forall fuel, 8 <= fuel ->
    parse SpecUtils.utils fuel
          (txt "* h" ++ [nl] ++ txt "a" ++ [nl] ++ txt "**" ++ [tab] ++ txt "b")
    = Ok (OrgData 0 10
            [Headline 1 (txt "h") [Text (txt "h")] 4 10
               [Section 4 10
                  [Paragraph 4 10
                     [Text (txt "a" ++ [nl] ++ txt "**" ++ [tab] ++ txt "b")]]]]).
Proof. run_parse 8. Qed.

(** Under a headline, a line that starts with an asterisk and the letter t
    ends the section. *)
Example parse_section_letter_t :
  forall fuel, 8 <= fuel ->
    parse SpecUtils.utils fuel (txt "* h" ++ [nl] ++ txt "a" ++ [nl] ++ txt "*tb")
    = Ok (OrgData 0 9
            [Headline 1 (txt "h") [Text (txt "h")] 4 9
               [Section 4 6 [Paragraph 4 6 [Text (txt "a" ++ [nl])]];
                Paragraph 6 9 [Text (txt "*tb")]]]).
Proof. run_parse 8. Qed.

End SectionFacts.

(* ================================================================== *)
(** ** The type of a bracket link *)

Module LinkFacts.
Import Js Ast Parser Notions ReaderFacts FuelFacts.

Section LinkTypeRe.
Variable input : text.

(** The continuation of the quantifier in [/(.+?):/] for a match that
    starts at [i]: close group 1, then match the colon. *)
Definition afterGroup (i : nat) : Cont :=
  fun y => matcher input false (chr colon)
             (MState (endIndex y) (("1", (i, endIndex y)) :: captures y)) Some.

(** The lazy loop of [.+?] once its first character is taken. *)
Definition lazyDots (fuel i : nat) (x : mstate) : option mstate :=
  repeatMatcher fuel (matcher input false dot) [] false 0 None x (afterGroup i).

Lemma linkTypeRe_matcher i :
  matcher input false (source linkTypeRe) (MState i []) Some
  = match nth_error input i with
    | Some ch => if negb (isLineTerminator ch)
                 then lazyDots (1 + (List.length input - i)) i (MState (S i) [])
                 else None
    | None => None
    end.
Proof.
  unfold linkTypeRe, lazyDots, lazyPlus, dot.
  cbn [source seqs matcher repeatMatcher groupsOf Nat.ltb Nat.leb pred option_map].
  unfold clearCaptures.
  cbn [filter captures endIndex Nat.eqb andb pred option_map].
  destruct (nth_error input i) as [ch|]; [|reflexivity].
  destruct (isLineTerminator ch); reflexivity.
Qed.

Lemma lazyDots_step fuel i p :
  lazyDots (S fuel) i (MState p [])
  = match nth_error input p with
    | Some ch =>
        if Ascii.eqb colon ch then Some (MState (S p) [("1", (i, p))])
        else if negb (isLineTerminator ch) then lazyDots fuel i (MState (S p) [])
        else None
    | None => None
    end.
Proof.
  unfold lazyDots.
  cbn [repeatMatcher Nat.ltb Nat.leb pred option_map].
  unfold afterGroup at 1, clearCaptures, chr, dot.
  cbn [matcher filter captures endIndex].
  destruct (nth_error input p) as [ch|]; [|reflexivity].
  destruct (Ascii.eqb colon ch); [reflexivity|].
  destruct (isLineTerminator ch); [reflexivity|].
  cbn [negb endIndex].
  replace (S p =? p)%nat with false by (symmetry; apply Nat.eqb_neq; lia).
  rewrite andb_false_r. reflexivity.
Qed.

(** No colon after [p]: the lazy loop fails. *)
Lemma lazyDots_none fuel i : forall p,
  (forall q, p <= q -> nth_error input q <> Some colon) ->
  lazyDots fuel i (MState p []) = None.
Proof.
  induction fuel as [|fuel IH]; intros p Hno; [reflexivity|].
  rewrite lazyDots_step.
  destruct (nth_error input p) as [ch|] eqn:Hch; [|reflexivity].
  destruct (Ascii.eqb colon ch) eqn:Hc.
  - apply Ascii.eqb_eq in Hc. subst ch. exfalso. now apply (Hno p).
  - destruct (negb (isLineTerminator ch)); [|reflexivity].
    apply IH. intros q Hq. apply Hno. lia.
Qed.

Lemma execFrom_linkTypeRe_none n : forall i,
  (forall q, i < q -> nth_error input q <> Some colon) ->
  execFrom linkTypeRe input n i = None.
Proof.
  induction n as [|n IH]; intros i Hno; [reflexivity|].
  cbn [execFrom]. change (multiline linkTypeRe) with false.
  rewrite linkTypeRe_matcher.
  replace (match nth_error input i with
           | Some ch => if negb (isLineTerminator ch)
                        then lazyDots (1 + (List.length input - i)) i (MState (S i) [])
                        else None
           | None => None
           end) with (@None mstate).
  - apply IH. intros q Hq. apply Hno. lia.
  - destruct (nth_error input i); [|reflexivity].
    destruct (negb _); [|reflexivity].
    symmetry. apply lazyDots_none. intros q Hq. apply Hno. lia.
Qed.
End LinkTypeRe.

(** The lazy loop stops at the first colon it meets. *)
Lemma lazyDots_colon mid : forall pre post fuel i,
  ~ In colon mid ->
  Forall (fun c => isLineTerminator c = false) mid ->
  List.length mid < fuel ->
  lazyDots (pre ++ mid ++ colon :: post) fuel i (MState (List.length pre) [])
  = Some (MState (S (List.length pre + List.length mid))
                 [("1", (i, List.length pre + List.length mid))]).
Proof.
  induction mid as [|c mid IH]; intros pre post fuel i Hno Hlt Hfuel;
    (destruct fuel as [|fuel]; [simpl in Hfuel; lia|]);
    rewrite lazyDots_step, nth_error_app2, Nat.sub_diag by lia; cbn [app nth_error].
  - unfold colon at 1. rewrite Ascii.eqb_refl. simpl. now rewrite Nat.add_0_r.
  - replace (Ascii.eqb colon c) with false.
    + inversion Hlt as [|? ? Hc Hmid]; subst. rewrite Hc. cbn [negb].
      specialize (IH (pre ++ [c]) post fuel i).
      rewrite <- app_assoc, length_app in IH. cbn [app List.length] in IH.
      replace (List.length pre + 1) with (S (List.length pre)) in IH by lia.
      rewrite IH.
      * do 2 f_equal; [simpl; lia | do 3 f_equal; simpl; lia].
      * intros Hin. apply Hno. now right.
      * assumption.
      * simpl in Hfuel. lia.
    + symmetry. apply Ascii.eqb_neq. intros <-. apply Hno. now left.
Qed.

(** A colon after the first character: the type is the text before the
    first such colon. *)
Lemma linkTypeOf_colon c0 mid post :
  ~ In colon mid ->
  Forall (fun c => isLineTerminator c = false) (c0 :: mid) ->
  linkTypeOf (c0 :: mid ++ colon :: post) = c0 :: mid.
Proof.
  intros Hno Hlt. inversion Hlt as [|? ? Hc0 Hmid]; subst.
  unfold linkTypeOf, exec. cbn [execFrom List.length].
  change (multiline linkTypeRe) with false.
  rewrite linkTypeRe_matcher. cbn [nth_error]. rewrite Hc0. cbn [negb].
  rewrite (lazyDots_colon mid [c0] post _ 0 Hno Hmid)
    by (simpl; rewrite length_app; simpl; lia).
  unfold group1, group, toMatch. cbn [groups map fst snd assoc captures].
  cbn [String.eqb Ascii.eqb Bool.eqb]. cbn [List.length Nat.add].
  unfold substring. cbn [skipn Nat.sub firstn]. f_equal.
  rewrite firstn_app, firstn_all, Nat.sub_diag. simpl. apply app_nil_r.
Qed.

(** No colon after the first character: the type is 'fuzzy'. *)
Lemma linkTypeOf_fuzzy target :
  ~ In colon (tl target) -> linkTypeOf target = txt "fuzzy".
Proof.
  intros Hno. unfold linkTypeOf, exec.
  rewrite execFrom_linkTypeRe_none; [reflexivity|].
  intros q Hq Hnth. apply Hno. destruct target as [|c t]; [now destruct q|].
  destruct q as [|q]; [lia|]. simpl in *. eapply nth_error_In, Hnth.
Qed.

(** What [parseLink] returns for the bracket form: the target as [rawLink]
    and [linkTypeOf] of the target as [linkType]. *)
Lemma parseLink_bracket po r n r' :
  text_eqb (Reader.peek 1 r) (txt "[") = true ->
  parseLink po r = Ok (Some n, r') ->
  exists m link children,
    Reader.match_ linkBracketRe r = Some m
    /\ group "link" m = Some link
    /\ n = Link (linkTypeOf link) link children.
Proof.
  intros Hc. unfold parseLink, bind, get, upd, ret, throw. rewrite Hc.
  destruct (Reader.match_ linkBracketRe r) as [m|]; [|discriminate].
  simpl. destruct (group "link" m) as [link|] eqn:Hlink; [|discriminate].
  intros H. exists m, link.
  destruct (group "text" m) as [[|c0 tx]|].
  - injection H as <- _. exists []. auto.
  - destruct (po _ _) as [[ch r2]|]; [|discriminate].
    injection H as <- _. exists ch. auto.
  - injection H as <- _. exists []. auto.
Qed.

(** C7, amended.  For a bracket link [parseLink] sets [rawLink] to
    the target and [linkType] to group 1 of the first match of [/(.+?):/] in
    the target, or to 'fuzzy' when there is none.  For a target without line
    terminators before it, that is the text before the first colon that is
    not the first character of the target; it is 'fuzzy' when no colon follows
    the first character, so also when the target has no colon.  And
    [[[link][text]]] parses to org-data, section, paragraph, and a link of
    type 'fuzzy' to [link] whose one child is the text [text]. *)
Theorem parseLink_linkType :
  (forall po r n r',
      text_eqb (Reader.peek 1 r) (txt "[") = true ->
      parseLink po r = Ok (Some n, r') ->
      exists m link children,
        Reader.match_ linkBracketRe r = Some m
        /\ group "link" m = Some link
        /\ n = Link (linkTypeOf link) link children)
  /\ (forall c0 mid post,
        ~ In colon mid ->
        Forall (fun c => isLineTerminator c = false) (c0 :: mid) ->
        linkTypeOf (c0 :: mid ++ colon :: post) = c0 :: mid)
  /\ (forall target, ~ In colon (tl target) -> linkTypeOf target = txt "fuzzy")
  /\ (forall fuel, 6 <= fuel ->
      parse SpecUtils.utils fuel (txt "[[link][text]]")
      = Ok (OrgData 0 14
              [Section 0 14
                 [Paragraph 0 14
                    [Link (txt "fuzzy") (txt "link") [Text (txt "text")]]]])).
Proof.
  split; [exact parseLink_bracket|].
  split; [exact linkTypeOf_colon|].
  split; [exact linkTypeOf_fuzzy|].
  run_parse 6.
Qed.

(** The target [http://example.com] has type [http]. *)
Lemma parseLink_linkType_witness :
  linkTypeOf (txt "http://example.com") = txt "http".
Proof.
  apply (proj1 (proj2 parseLink_linkType) "h"%char (txt "ttp") (txt "//example.com")).
  - simpl. unfold colon. intros [H | [H | [H | []]]]; discriminate.
  - repeat (constructor; [reflexivity|]). constructor.
Defined.

(** C7 fails as stated: the target of [[[:a]]] contains a colon, with
    nothing before it, and the link gets the type 'fuzzy'; the target of
    [[[::a]]] gets the type [:]; and the target of [[[a\nb:c]]], with a
    newline before the colon, gets the type [b]. *)
Lemma parseLink_linkType_counterexample :
  let po := fun restr => parseObjects SpecUtils.utils 1 restr in
  let r1 := Reader.new (txt "[[:a]]") in
  let r2 := Reader.new (txt "[[::a]]") in
  let r3 := Reader.new (txt "[[a" ++ [nl] ++ txt "b:c]]") in
  parseLink po r1 = Ok (Some (Link (txt "fuzzy") (txt ":a") []), Reader.advance 6 r1)
  /\ parseLink po r2 = Ok (Some (Link (txt ":") (txt "::a") []), Reader.advance 7 r2)
  /\ parseLink po r3
     = Ok (Some (Link (txt "b") (txt "a" ++ [nl] ++ txt "b:c") []), Reader.advance 9 r3)
  /\ In colon (txt ":a")
  /\ In colon (txt "::a").
Proof.
  repeat split; try reflexivity; left; reflexivity.
Qed.

End LinkFacts.

(* ================================================================== *)
(** ** Whole documents *)

Module DocumentFacts.
Import Js Ast Parser Positions Notions ObjectFacts WindowFacts ScannerFacts.
Import ElementFacts FuelFacts.

(** C2, on the code.  With two opening brackets at the cursor and no
    bracket link in the window, [parseObjects] does not return: [parseLink]
    finds no link and returns [null] with the cursor where it was, and the
    next iteration throws 'no progress', whatever the utilities and the
    restriction set are.  So [parse] throws on the document [[[foo], and on
    [see [[foo], where text precedes the brackets. *)
Theorem parse_unterminated_link_throws :
  (forall (U : Utils) (fuel : nat) (restr : list string) (r : Reader.t) (s : text),
      Reader.rest r = "["%char :: "["%char :: s ->
      Reader.match_ linkBracketRe r = None ->
      parseObjects U (S (S fuel)) (RSet restr) r = Err NoProgress)
  /\ (forall fuel, 6 <= fuel ->
      parse SpecUtils.utils fuel (txt "[[foo") = Err NoProgress)
  /\ (forall fuel, 6 <= fuel ->
      parse SpecUtils.utils fuel (txt "see [[foo") = Err NoProgress).
Proof.
  split; [exact parseObjects_unterminated|].
  split; run_parse 6.
Qed.

(** The window that holds [[[foo] and nothing else. *)
Lemma parse_unterminated_link_throws_witness :
  parseObjects SpecUtils.utils 2 (RSet ["link"; "text"]) (Reader.new (txt "[[foo"))
  = Err NoProgress.
Proof.
  apply (proj1 parse_unterminated_link_throws SpecUtils.utils 0 ["link"; "text"]
               (Reader.new (txt "[[foo")) (txt "foo")); reflexivity.
Defined.

(** A link whose description holds two opening brackets, as a document:
    the parse of the description throws a TypeError. *)
Example parse_nested_brackets_throws :
  forall fuel, 8 <= fuel ->
    parse SpecUtils.utils fuel (txt "[[a][b[[c]]") = Err TypeError.
Proof. run_parse 8. Qed.

(** [parseLink] searches the link pattern from the cursor on and computes the
    range of the description as if the match were at the cursor: in
    [[[[a][b]]] the match is one character further, and the description that
    is parsed is the bracket before [b]. *)
Example parse_shifted_description :
  forall fuel, 8 <= fuel ->
    parse SpecUtils.utils fuel (txt "[[[a][b]]")
    = Ok (OrgData 0 9
            [Section 0 9
               [Paragraph 0 9 [Link (txt "fuzzy") (txt "a") [Text (txt "[")]]]]).
Proof. run_parse 8. Qed.

(** The headline of [tabbedHeading]: its contents are empty, at offset 4. *)
Lemma parseHeadline_tabbed (U : Utils) (fuel : nat) (h : node) (r' : Reader.t) :
  parseHeadline U fuel (Reader.new tabbedHeading) = Ok (h, r') ->
  (exists title, h = Headline 1 (txt "a") title 4 4 [])
  /\ r' = Reader.resetOffset 4 (Reader.new tabbedHeading).
Proof.
  destruct fuel as [|fuel]; [discriminate|].
  unfold parseHeadline.
  pose proof (parseObjects_window U (S fuel)) as Hpo.
  revert Hpo. generalize (parseObjects U (S fuel)) as po. intros po Hpo.
  intros H. vm_compute in H.
  destruct (po _ _) as [[title rT]|] eqn:Ht; [|discriminate].
  apply Hpo in Ht. destruct rT as [buf off wb we ns].
  destruct Ht as (Hb & Hwb & Hwe & Hns). simpl in Hb, Hwb, Hwe, Hns. subst.
  vm_compute in H. injection H as <- <-. split; [eexists|]; reflexivity.
Qed.

(** The descent into that headline leaves the cursor at offset 4. *)
Lemma withChildren_tabbed (U : Utils) (fuel : nat) title h' r' :
  withChildren U fuel FirstSection None (Headline 1 (txt "a") title 4 4 [])
               (Reader.resetOffset 4 (Reader.new tabbedHeading)) = Ok (h', r') ->
  r' = Reader.resetOffset 4 (Reader.new tabbedHeading).
Proof.
  unfold withChildren. cbn [Ast.type Ast.contentsBegin Ast.contentsEnd].
  destruct (existsb _ _).
  - destruct fuel as [|fuel]; [discriminate|].
    unfold bind at 1. unfold upd at 1. unfold bind at 1.
    rewrite parseElementsLoop_step.
    change (Reader.eof _) with true. cbv iota.
    unfold bind, upd, ret. now intros [= _ <-].
  - unfold bind at 1. unfold upd at 1. unfold bind at 1.
    destruct (parseObjects _ _ _ _) as [[ch rC]|] eqn:Hch; [|discriminate].
    apply parseObjects_window in Hch. destruct rC as [buf off wb we ns].
    destruct Hch as (Hb & Hwb & Hwe & Hns). simpl in Hb, Hwb, Hwe, Hns. subst.
    unfold bind, upd, ret. now intros [= _ <-].
Qed.

(** C1, on the code.  Whatever the utilities are, when [parse] returns
    on [* a\n*\tb] the first two children of the root are the headline and an
    element that both have [contentsBegin] 4: the children of the root are not
    strictly increasing. *)
Theorem parse_tabbed_heading_unordered (U : Utils) (fuel : nat) (ast : node) :
  parse U fuel tabbedHeading = Ok ast ->
  exists e headline second rest,
    ast = OrgData 0 e (headline :: second :: rest)
    /\ contentsBegin headline = Some 4
    /\ contentsBegin second = Some 4
    /\ childrenIncreasing ast = false.
Proof.
  unfold parse. destruct fuel as [|fuel]; [discriminate|].
  unfold bind at 1.
  change (parseEmptyLines (S fuel) (Reader.new tabbedHeading))
    with (@Ok (list text * Reader.t) ([], Reader.new tabbedHeading)).
  cbv iota. unfold bind at 1. unfold parseElements.
  rewrite parseElementsLoop_step.
  change (Reader.eof (Reader.new tabbedHeading)) with false. cbv iota.
  change (Z.of_nat (Reader.offset (Reader.new tabbedHeading)) =? -1)%Z with false.
  cbv iota.
  change (parseElement U fuel FirstSection None (Reader.new tabbedHeading))
    with (parseHeadline U fuel (Reader.new tabbedHeading)).
  destruct (parseHeadline U fuel (Reader.new tabbedHeading)) as [[h r1]|] eqn:Hh;
    [|discriminate].
  apply parseHeadline_tabbed in Hh. destruct Hh as [[title ->] ->].
  destruct (withChildren U fuel FirstSection None _ _) as [[h' r2]|] eqn:Hh';
    [|discriminate].
  pose proof (withChildren_begin _ _ _ _ _ _ _ _ Hh') as Hb1.
  apply withChildren_tabbed in Hh'. subst r2.
  destruct fuel as [|fuel]; [discriminate|].
  rewrite parseElementsLoop_step.
  change (Reader.eof _) with false. cbv iota.
  change (Z.of_nat (Reader.offset (Reader.resetOffset 4 (Reader.new tabbedHeading))) =?
          Z.of_nat (Reader.offset (Reader.new tabbedHeading)))%Z with false.
  cbv iota. cbn [nextMode Ast.type String.eqb Ascii.eqb Bool.eqb ParseMode_eqb andb].
  destruct (parseElement U fuel NullMode None _) as [[second r3]|] eqn:Hs;
    [|discriminate].
  apply parseElement_begin in Hs; [|reflexivity].
  destruct (withChildren U fuel NullMode None second r3) as [[second' r4]|] eqn:Hs';
    [|discriminate].
  apply withChildren_begin in Hs'. rewrite Hs in Hs'.
  destruct (parseElementsLoop U fuel _ _ _ _ _) as [[l r5]|] eqn:Hl; [|discriminate].
  apply parseElementsLoop_prefix in Hl. destruct Hl as [rest ->].
  unfold bind, get, ret. intros [= <-].
  exists (Reader.endOffset r5), h', second', rest.
  repeat split; try assumption.
  unfold childrenIncreasing, begins. cbn [children app flat_map].
  rewrite Hb1, Hs'. reflexivity.
Qed.

(** With the utilities modelled from the specification, [parse] does return
    on that document: a headline, then a plain list. *)
Example parse_tabbed_heading :
  forall fuel, 6 <= fuel ->
    parse SpecUtils.utils fuel tabbedHeading
    = Ok (OrgData 0 7
            [Headline 1 (txt "a") [Text (txt "a")] 4 4 [];
             PlainList 0 4 7 [mkItem 4 0 (Some (txt "*")) None None None 7]
               [Item 0 (Some (txt "*")) None 6 7 [Paragraph 6 7 [Text (txt "b")]]]]).
Proof. run_parse 6. Qed.

(** The headline and the plain list of that run. *)
Lemma parse_tabbed_heading_unordered_witness :
  exists e headline second rest,
    OrgData 0 7
      [Headline 1 (txt "a") [Text (txt "a")] 4 4 [];
       PlainList 0 4 7 [mkItem 4 0 (Some (txt "*")) None None None 7]
         [Item 0 (Some (txt "*")) None 6 7 [Paragraph 6 7 [Text (txt "b")]]]]
    = OrgData 0 e (headline :: second :: rest)
    /\ contentsBegin headline = Some 4
    /\ contentsBegin second = Some 4
    /\ childrenIncreasing
         (OrgData 0 7
            [Headline 1 (txt "a") [Text (txt "a")] 4 4 [];
             PlainList 0 4 7 [mkItem 4 0 (Some (txt "*")) None None None 7]
               [Item 0 (Some (txt "*")) None 6 7 [Paragraph 6 7 [Text (txt "b")]]]])
       = false.
Proof.
  apply (parse_tabbed_heading_unordered SpecUtils.utils 6).
  vm_compute. reflexivity.
Defined.

End DocumentFacts.

(* ================================================================== *)
(** ** The matcher against what a pattern matches *)

Module SemanticsFacts.
Import Js Semantics.

Section Sound.
Variable input : text.
Variable flagM : bool.

(** A matcher that succeeds has handed its continuation a state that [R]
    allows, and the continuation has accepted it. *)
Definition sound (R : mstate -> mstate -> Prop)
    (ma : mstate -> Cont -> option mstate) : Prop :=
  forall x c z, ma x c = Some z -> exists y, R x y /\ c y = Some z.

Lemma repeatMatcher_sound R ma gs greedy :
  sound R ma ->
  forall fuel lo hi x c z,
    repeatMatcher fuel ma gs greedy lo hi x c = Some z ->
    exists n y, rounds lo hi <= n /\ atMost n hi /\ Iter R gs n x y /\ c y = Some z.
Proof.
  intros Hma. induction fuel as [|fuel IH]; intros lo hi x c z H; [discriminate|].
  cbn [repeatMatcher] in H.
  assert (Hstop : c x = Some z -> rounds lo hi = 0 ->
                  exists n y, rounds lo hi <= n /\ atMost n hi /\ Iter R gs n x y /\ c y = Some z).
  { intros Hc Hr. exists 0, x. rewrite Hr. split; [lia|]. split; [|cbn; auto].
    destruct hi; cbn; [lia | exact I]. }
  assert (Hgo : ma (clearCaptures gs x)
                   (fun y => if ((lo =? 0)%nat && (endIndex y =? endIndex x)%nat)%bool
                             then None
                             else repeatMatcher fuel ma gs greedy (pred lo)
                                    (option_map pred hi) y c) = Some z ->
                hi <> Some 0 ->
                exists n y, rounds lo hi <= n /\ atMost n hi /\ Iter R gs n x y /\ c y = Some z).
  { intros Hd Hhi. apply Hma in Hd. destruct Hd as (m & HR & Hd).
    destruct (_ && _)%bool; [discriminate|].
    apply IH in Hd. destruct Hd as (n & y & Hn & Hmax & Hit & Hc).
    exists (S n), y.
    split; [|split; [|split; [exists m; auto | exact Hc]]].
    - unfold rounds in *. destruct hi as [[|h]|]; cbn [option_map pred] in Hn;
        [congruence | lia | lia].
    - unfold atMost in *. destruct hi as [[|h]|]; cbn [option_map pred] in Hmax;
        [congruence | lia | exact I]. }
  destruct hi as [[|h]|].
  - apply Hstop; [exact H | unfold rounds; lia].
  - destruct (0 <? lo)%nat eqn:Hlo; [apply Hgo; [exact H | discriminate]|].
    apply Nat.ltb_ge in Hlo.
    destruct greedy.
    + destruct (ma _ _) eqn:Hd; [apply Hgo; [congruence | discriminate]|].
      apply Hstop; [exact H | unfold rounds; lia].
    + destruct (c x) eqn:Hc; [apply Hstop; [congruence | unfold rounds; lia]|].
      apply Hgo; [exact H | discriminate].
  - destruct (0 <? lo)%nat eqn:Hlo; [apply Hgo; [exact H | discriminate]|].
    apply Nat.ltb_ge in Hlo.
    destruct greedy.
    + destruct (ma _ _) eqn:Hd; [apply Hgo; [congruence | discriminate]|].
      apply Hstop; [exact H | unfold rounds; lia].
    + destruct (c x) eqn:Hc; [apply Hstop; [congruence | unfold rounds; lia]|].
      apply Hgo; [exact H | discriminate].
Qed.

(** The backtracking matcher only finds matches of the pattern. *)
Lemma matcher_sound r : sound (Matches input flagM r) (matcher input flagM r).
Proof.
  induction r as [|p|a IHa b IHb|a IHa b IHb|greedy lo hi a IHa|g a IHa| |];
    intros x c z H; cbn [matcher] in H; cbn [Matches].
  - eauto.
  - destruct (nth_error input (endIndex x)) as [ch|] eqn:Hch; [|discriminate].
    destruct (p ch) eqn:Hp; [|discriminate]. eauto 7.
  - apply IHa in H. destruct H as (m & Ha & H).
    apply IHb in H. destruct H as (y & Hb & H). eauto.
  - destruct (matcher input flagM a x c) eqn:Ha.
    + injection H as ->. apply IHa in Ha. destruct Ha as (y & ? & ?). eauto.
    + apply IHb in H. destruct H as (y & ? & ?). eauto.
  - apply (repeatMatcher_sound _ _ _ _ IHa) in H.
    destruct H as (n & y & ? & ? & ? & ?). eauto 6.
  - apply IHa in H. destruct H as (m & Ha & H). eauto.
  - destruct (atLineStart _ _ _) eqn:Hb; [|discriminate]. eauto.
  - destruct (atLineEnd _ _ _) eqn:Hb; [|discriminate]. eauto.
Qed.

Lemma clearCaptures_nil x : clearCaptures [] x = x.
Proof.
  destruct x as [e caps]. unfold clearCaptures. cbn. f_equal.
  induction caps as [|p caps IH]; cbn; [reflexivity | now rewrite IH].
Qed.

Lemma endIndex_clearCaptures gs x : endIndex (clearCaptures gs x) = endIndex x.
Proof. reflexivity. Qed.

(** A match moves forward, by at least the least length of the pattern, and
    stays inside the input. *)
Lemma Matches_bounds r : forall x y,
  Matches input flagM r x y ->
  endIndex x <= List.length input ->
  endIndex x + minLength r <= endIndex y <= List.length input.
Proof.
  induction r as [|p|a IHa b IHb|a IHa b IHb|greedy lo hi a IHa|g a IHa| |];
    intros x y H Hx; cbn [Matches minLength] in *.
  - subst. lia.
  - destruct H as (ch & Hch & _ & ->). cbn.
    assert (endIndex x < List.length input) by (apply nth_error_Some; congruence).
    lia.
  - destruct H as (m & Ha & Hb). apply IHa in Ha; [|exact Hx].
    apply IHb in Hb; lia.
  - destruct H as [H | H]; [apply IHa in H | apply IHb in H]; lia.
  - destruct H as (n & Hn & _ & Hit).
    assert (Hiter : forall k u v, Iter (Matches input flagM a) (groupsOf a) k u v ->
                      endIndex u <= List.length input ->
                      endIndex u + k * minLength a <= endIndex v <= List.length input).
    { induction k as [|k IHk]; intros u v Hk Hu; cbn in Hk.
      - subst. lia.
      - destruct Hk as (m & Hm & Hk). apply IHa in Hm; [|exact Hu].
        rewrite endIndex_clearCaptures in Hm. apply IHk in Hk; lia. }
    apply Hiter in Hit; [|exact Hx]. nia.
  - destruct H as (m & Ha & ->). cbn. apply IHa in Ha; lia.
  - destruct H as [_ ->]. lia.
  - destruct H as [_ ->]. lia.
Qed.

(** A pattern without groups leaves the captures as they are. *)
Lemma Matches_captures r : forall x y,
  Matches input flagM r x y -> groupsOf r = [] -> captures y = captures x.
Proof.
  induction r as [|p|a IHa b IHb|a IHa b IHb|greedy lo hi a IHa|g a IHa| |];
    intros x y H Hg; cbn [Matches groupsOf] in *.
  - now subst.
  - destruct H as (ch & _ & _ & ->). reflexivity.
  - apply app_eq_nil in Hg. destruct Hg as [Hga Hgb].
    destruct H as (m & Ha & Hb).
    rewrite (IHb _ _ Hb Hgb). now apply IHa.
  - apply app_eq_nil in Hg. destruct Hg as [Hga Hgb].
    destruct H as [H | H]; auto.
  - destruct H as (n & _ & _ & Hit). rewrite Hg in Hit. clear - Hit IHa Hg.
    revert x Hit. induction n as [|n IHn]; intros x Hit; cbn in Hit.
    + now subst.
    + destruct Hit as (m & Hm & Hit). rewrite clearCaptures_nil in Hm.
      rewrite (IHn _ Hit). now apply IHa.
  - discriminate.
  - now destruct H as [_ ->].
  - now destruct H as [_ ->].
Qed.

(** The characters a match takes are in the classes of the pattern. *)
Lemma Matches_classes (P : ascii -> Prop) r : forall x y,
  Matches input flagM r x y ->
  classesIn P r ->
  endIndex x <= List.length input ->
  Forall P (substring input (endIndex x) (endIndex y)).
Proof.
  assert (Hsplit : forall a b c, a <= b <= c ->
            substring input a c = substring input a b ++ substring input b c).
  { intros a b c Habc. unfold substring.
    replace (c - a) with ((b - a) + (c - b)) by lia.
    rewrite <- (firstn_skipn (b - a) (firstn _ _)).
    rewrite firstn_firstn, skipn_firstn_comm, skipn_skipn.
    f_equal; [f_equal; lia|]. f_equal; [lia | f_equal; lia]. }
  induction r as [|p|a IHa b IHb|a IHa b IHb|greedy lo hi a IHa|g a IHa| |];
    intros x y H HP Hx; cbn [Matches classesIn] in *.
  - subst. unfold substring. rewrite Nat.sub_diag. constructor.
  - destruct H as (ch & Hch & Hp & ->). cbn [endIndex]. unfold substring.
    replace (S (endIndex x) - endIndex x) with 1 by lia.
    destruct (nth_error_split _ _ Hch) as (l1 & l2 & Hin & Hlen).
    rewrite Hin, <- Hlen, skipn_app, skipn_all, Nat.sub_diag. cbn. auto.
  - destruct H as (m & Ha & Hb). destruct HP as [HPa HPb].
    pose proof (Matches_bounds _ _ _ Ha Hx) as Hba.
    pose proof (Matches_bounds _ _ _ Hb ltac:(lia)) as Hbb.
    rewrite (Hsplit _ (endIndex m)) by lia.
    apply Forall_app. split; [now apply IHa | apply IHb; auto; lia].
  - destruct HP as [HPa HPb]. destruct H as [H | H]; auto.
  - destruct H as (n & _ & _ & Hit). clear - Hit IHa HP Hx Hsplit.
    revert x Hit Hx. induction n as [|n IHn]; intros x Hit Hx; cbn in Hit.
    + subst. unfold substring. rewrite Nat.sub_diag. constructor.
    + destruct Hit as (m & Hm & Hit).
      pose proof (Matches_bounds _ _ _ Hm Hx) as Hbm.
      rewrite endIndex_clearCaptures in Hbm.
      assert (Hby : endIndex m <= endIndex y <= List.length input).
      { clear - Hit Hbm. revert m Hit Hbm.
        induction n as [|n IHn]; intros m Hit Hbm; cbn in Hit.
        - subst. lia.
        - destruct Hit as (m' & Hm' & Hit).
          apply Matches_bounds in Hm'; [|rewrite endIndex_clearCaptures; lia].
          rewrite endIndex_clearCaptures in Hm'. apply IHn in Hit; lia. }
      rewrite (Hsplit _ (endIndex m)) by lia.
      apply Forall_app. split.
      * apply (IHa _ _ Hm HP Hx).
      * apply IHn; [exact Hit | lia].
  - destruct H as (m & Ha & ->). cbn [endIndex]. now apply IHa.
  - destruct H as [_ ->]. unfold substring. rewrite Nat.sub_diag. constructor.
  - destruct H as [_ ->]. unfold substring. rewrite Nat.sub_diag. constructor.
Qed.

End Sound.

(** What [exec] returns is a match of the pattern, found at its index. *)
Lemma execFrom_sound re input n : forall i m,
  execFrom re input n i = Some m ->
  exists y, i <= index m
            /\ Matches input (multiline re) (source re) (MState (index m) []) y
            /\ m = toMatch input (index m) y.
Proof.
  induction n as [|n IH]; intros i m H; [discriminate|]. cbn [execFrom] in H.
  destruct (matcher input (multiline re) (source re) (MState i []) Some) as [y|] eqn:Hy.
  - injection H as <-. apply matcher_sound in Hy. destruct Hy as (y' & Hm & [= ->]).
    exists y. cbn. auto.
  - apply IH in H. destruct H as (y & Hi & Hm & ->). exists y. cbn in *.
    repeat split; auto. lia.
Qed.

Lemma execFrom_index re input n : forall i m,
  execFrom re input n i = Some m -> index m < i + n.
Proof.
  induction n as [|n IH]; intros i m H; [discriminate|]. cbn [execFrom] in H.
  destruct (matcher _ _ _ _ _); [injection H as <-; cbn; lia|].
  apply IH in H. lia.
Qed.

Lemma exec_sound re input m :
  exec re input = Some m ->
  exists y, index m <= List.length input
            /\ Matches input (multiline re) (source re) (MState (index m) []) y
            /\ m = toMatch input (index m) y.
Proof.
  intros H. unfold exec in H. pose proof (execFrom_index _ _ _ _ _ H).
  apply execFrom_sound in H. destruct H as (y & _ & Hm & Heq).
  exists y. repeat split; auto. lia.
Qed.

Lemma substring_length s a b :
  a <= b <= List.length s -> List.length (substring s a b) = b - a.
Proof.
  intros H. unfold substring. rewrite length_firstn, length_skipn. lia.
Qed.

(** The match that [exec] returns lies inside the input, and is the text of
    the input at its index. *)
Lemma exec_bounds re input m :
  exec re input = Some m ->
  index m + List.length (matched m) <= List.length input
  /\ matched m = firstn (List.length (matched m)) (skipn (index m) input)
  /\ minLength (source re) <= List.length (matched m).
Proof.
  intros H. apply exec_sound in H. destruct H as (y & Hi & Hm & ->).
  apply Matches_bounds in Hm; [|exact Hi]. cbn [endIndex index matched toMatch] in *.
  rewrite substring_length by lia. repeat split; lia.
Qed.

End SemanticsFacts.

(* ================================================================== *)
(** ** Blank lines, paragraphs and sections *)

Module LineFacts.
Import Js Ast Parser Notions WindowNotions ReaderFacts SemanticsFacts.

Lemma rest_length r :
  inWindow r -> List.length (Reader.rest r) = Reader.windowEnd r - Reader.offset r.
Proof.
  intros [Ho He]. unfold Reader.rest, Reader.endOffset.
  apply substring_length. lia.
Qed.

Lemma match_bounds re r m :
  Reader.match_ re r = Some m ->
  index m + List.length (matched m) <= List.length (Reader.rest r).
Proof. intros H. now apply exec_bounds in H. Qed.

Lemma inWindow_advance n r :
  inWindow r -> n <= List.length (Reader.rest r) -> inWindow (Reader.advance n r).
Proof.
  intros Hw Hn. rewrite (rest_length _ Hw) in Hn. destruct Hw as [Ho He].
  split; cbn; lia.
Qed.

Lemma line_length r : List.length (Reader.line r) <= List.length (Reader.rest r).
Proof.
  unfold Reader.line. rewrite (throughNewline_firstn (Reader.rest r)) at 1.
  rewrite length_firstn. lia.
Qed.

Lemma trimStart_head s :
  trimStart s = [] \/ exists c t, trimStart s = c :: t /\ isWhite c = false.
Proof.
  induction s as [|c s IH]; cbn [trimStart]; [now left|].
  destruct (isWhite c) eqn:Hc; [exact IH | right; eauto].
Qed.

Lemma trimStart_nil s : trimStart s = [] -> allWhite s.
Proof.
  induction s as [|c s IH]; cbn [trimStart]; [constructor|].
  destruct (isWhite c) eqn:Hc; [|discriminate].
  intros H. constructor; [exact Hc | exact (IH H)].
Qed.

(** [s.trim()] is empty only when [s] is all whitespace. *)
Lemma trim_nil s : trim s = [] -> allWhite s.
Proof.
  unfold trim, trimEnd. intros H.
  assert (Hr : trimStart (rev (trimStart s)) = []).
  { destruct (trimStart (rev (trimStart s))); [reflexivity|].
    cbn in H. now apply app_eq_nil in H. }
  apply trimStart_nil in Hr.
  destruct (trimStart_head s) as [Hs | (c & t & Hs & Hc)].
  - now apply trimStart_nil.
  - rewrite Hs in Hr. apply Forall_rev in Hr. rewrite rev_involutive in Hr.
    inversion Hr; congruence.
Qed.

Lemma trim_length_0 s : (List.length (trim s) =? 0)%nat = true -> allWhite s.
Proof.
  intros H. apply Nat.eqb_eq in H. apply trim_nil.
  now destruct (trim s).
Qed.

Lemma parseMulti_emptyLine fuel : forall acc r,
  List.length (Reader.rest r) < fuel ->
  exists lines,
    parseMulti fuel emptyLine acc r
    = Ok (acc ++ lines, Reader.advance (List.length (List.concat lines)) r)
    /\ List.concat lines = firstn (List.length (List.concat lines)) (Reader.rest r)
    /\ allWhite (List.concat lines)
    /\ Forall (fun l => l <> []) lines
    /\ (Reader.rest (Reader.advance (List.length (List.concat lines)) r) = []
        \/ trim (Reader.line (Reader.advance (List.length (List.concat lines)) r)) <> []).
Proof.
  induction fuel as [|fuel IH]; intros acc r Hfuel; [lia|].
  cbn [parseMulti]. unfold bind at 1. unfold emptyLine at 1.
  unfold bind, get, upd, ret.
  destruct (List.length (trim (Reader.line r)) =? 0)%nat eqn:Hblank.
  - destruct (Reader.line r) as [|c ln] eqn:Hline.
    + exists []. cbn [List.concat List.length firstn]. rewrite app_nil_r, advance_0.
      split; [reflexivity|]. split; [reflexivity|].
      split; [constructor|]. split; [constructor|].
      left. unfold Reader.line in Hline.
      destruct (Reader.rest r) as [|c s]; [reflexivity|].
      cbn in Hline. destruct (Ascii.eqb c nl); discriminate.
    + pose proof (line_length r) as Hll. rewrite Hline in Hll.
      pose proof (trim_length_0 _ Hblank) as Hwhite.
      set (r1 := Reader.advance (List.length (c :: ln)) r).
      assert (Hr1 : Reader.rest r1 = skipn (List.length (c :: ln)) (Reader.rest r)).
      { apply rest_advance. }
      destruct (IH (acc ++ [c :: ln]) r1) as (lines & Hrun & Hcat & Hw & Hne & Hstop).
      { rewrite Hr1, length_skipn. cbn in *. lia. }
      exists ((c :: ln) :: lines). rewrite Hrun.
      assert (Hlen : List.length (List.concat ((c :: ln) :: lines))
                     = List.length (c :: ln) + List.length (List.concat lines)).
      { cbn [List.concat]. now rewrite length_app. }
      assert (Hadv : Reader.advance (List.length (List.concat lines)) r1
                     = Reader.advance (List.length (List.concat ((c :: ln) :: lines))) r).
      { unfold r1. now rewrite advance_advance, Hlen. }
      rewrite <- Hadv. split; [now rewrite <- app_assoc|].
      split; [|split; [|split]].
      * rewrite Hlen. cbn [List.concat].
        rewrite <- (firstn_skipn (List.length (c :: ln)) (Reader.rest r)) at 1.
        rewrite firstn_app, firstn_firstn, length_firstn.
        replace (Nat.min (List.length (c :: ln) + _) (List.length (c :: ln)))
          with (List.length (c :: ln)) by lia.
        replace (Nat.min (List.length (c :: ln)) (List.length (Reader.rest r)))
          with (List.length (c :: ln)) by lia.
        replace (List.length (c :: ln) + List.length (List.concat lines)
                 - List.length (c :: ln)) with (List.length (List.concat lines)) by lia.
        rewrite <- Hr1, <- Hcat. f_equal.
        rewrite <- Hline. unfold Reader.line. apply throughNewline_firstn.
      * cbn [List.concat]. apply Forall_app. split; assumption.
      * constructor; [discriminate | assumption].
      * exact Hstop.
  - exists []. cbn [List.concat List.length firstn]. rewrite app_nil_r, advance_0.
    split; [reflexivity|]. split; [reflexivity|].
    split; [constructor|]. split; [constructor|].
    right. intros Ht. rewrite Ht in Hblank. discriminate.
Qed.

(** X1.  [parseEmptyLines] never throws: with fuel above the length of the
    visible text, it returns the lines it has skipped, each non-empty, which
    together are a prefix of the visible text made of whitespace only, and it
    leaves the cursor after them, at the end of the window or at a line that
    holds a character other than whitespace. *)
Theorem parseEmptyLines_skips_blank_lines (fuel : nat) (r : Reader.t) :
  List.length (Reader.rest r) < fuel ->
  exists lines,
    let r' := Reader.advance (List.length (List.concat lines)) r in
    parseEmptyLines fuel r = Ok (lines, r')
    /\ List.concat lines = firstn (List.length (List.concat lines)) (Reader.rest r)
    /\ allWhite (List.concat lines)
    /\ Forall (fun l => l <> []) lines
    /\ (Reader.rest r' = [] \/ trim (Reader.line r') <> []).
Proof.
  intros Hfuel. destruct (parseMulti_emptyLine fuel [] r Hfuel) as (lines & H).
  exists lines. exact H.
Qed.

(** Two blank lines before a word. *)
Lemma parseEmptyLines_skips_blank_lines_witness :
  exists lines,
    let r := Reader.new ([space; nl; nl] ++ txt "hi") in
    let r' := Reader.advance (List.length (List.concat lines)) r in
    parseEmptyLines 6 r = Ok (lines, r')
    /\ List.concat lines = firstn (List.length (List.concat lines)) (Reader.rest r)
    /\ allWhite (List.concat lines)
    /\ Forall (fun l => l <> []) lines
    /\ (Reader.rest r' = [] \/ trim (Reader.line r') <> []).
Proof.
  apply (parseEmptyLines_skips_blank_lines 6 (Reader.new ([space; nl; nl] ++ txt "hi"))).
  cbn. lia.
Defined.

Lemma inWindow_resetOffset e r :
  inWindow r -> e <= Reader.windowEnd r -> inWindow (Reader.resetOffset e r).
Proof. intros [Ho He] Hle. split; cbn; lia. Qed.

Lemma stopAt_bounds re r :
  inWindow r ->
  Reader.offset r <= stopAt (Reader.match_ re r) r <= Reader.endOffset r.
Proof.
  intros Hw. unfold stopAt.
  destruct (Reader.match_ re r) as [m|] eqn:Hm.
  - apply match_bounds in Hm. rewrite (rest_length _ Hw) in Hm.
    destruct Hw. unfold Reader.endOffset. lia.
  - destruct Hw. unfold Reader.endOffset. lia.
Qed.

Lemma parseParagraph_eq (U : Utils) fuel r :
  parseParagraph U fuel r
  = let e := stopAt (Reader.match_ (paragraphSeparateRe U) r) r in
    match parseEmptyLines fuel (Reader.resetOffset e r) with
    | Ok (_, r') => Ok (Paragraph (Reader.offset r) e [], r')
    | Err err => Err err
    end.
Proof.
  unfold parseParagraph, bind, get, upd, ret, stopAt. cbv zeta.
  destruct (parseEmptyLines _ _) as [[x r']|]; reflexivity.
Qed.

Lemma parseElement_first_section_eq (U : Utils) fuel structure r :
  atHeading r = false ->
  parseElement U fuel FirstSection structure r
  = let limit := stopAt (Reader.match_ nextHeadingRe r) r in
    let r0 := Reader.narrow (Reader.offset r) limit r in
    let e := stopAt (Reader.match_ sectionEndRe r0) r0 in
    Ok (Section (Reader.offset r) e [], Reader.widen true (Reader.resetOffset e r0)).
Proof.
  intros Hh. unfold parseElement. cbn [ParseMode_eqb].
  unfold bind at 1. unfold get at 1. rewrite Hh. reflexivity.
Qed.

(** X2.  [parseParagraph] never throws on a Reader whose cursor is inside its
    window: with fuel above the length of the visible text it returns a
    paragraph that begins at the cursor and ends at the separator or at the
    end of the window, and it leaves the cursor inside the window, after
    nothing but whitespace that follows the paragraph, at the end of the
    window or at a line that is not blank. *)
Theorem parseParagraph_range (U : Utils) (fuel : nat) (r : Reader.t) :
  inWindow r ->
  List.length (Reader.rest r) < fuel ->
  exists e r',
    parseParagraph U fuel r = Ok (Paragraph (Reader.offset r) e [], r')
    /\ e = stopAt (Reader.match_ (paragraphSeparateRe U) r) r
    /\ Reader.offset r <= e /\ e <= Reader.offset r'
    /\ Reader.offset r' <= Reader.endOffset r
    /\ sameWindow r r'
    /\ allWhite (Reader.substring e (Reader.offset r') r)
    /\ (Reader.rest r' = [] \/ trim (Reader.line r') <> []).
Proof.
  intros Hw Hfuel.
  pose proof (stopAt_bounds (paragraphSeparateRe U) r Hw) as He.
  set (e := stopAt (Reader.match_ (paragraphSeparateRe U) r) r) in *.
  set (r0 := Reader.resetOffset e r).
  assert (Hw0 : inWindow r0) by (apply inWindow_resetOffset; [exact Hw | apply He]).
  pose proof (rest_length _ Hw) as Hl. pose proof (rest_length _ Hw0) as Hl0.
  cbn [Reader.offset Reader.windowEnd r0 Reader.resetOffset] in Hl0.
  destruct (parseMulti_emptyLine fuel [] r0) as (lines & Hrun & Hcat & Hwhite & _ & Hstop).
  { unfold Reader.endOffset in He. lia. }
  set (n := List.length (List.concat lines)) in *.
  assert (Hn : n <= Reader.windowEnd r - e).
  { rewrite <- Hl0. unfold n. rewrite Hcat at 1. rewrite length_firstn. lia. }
  exists e, (Reader.advance n r0).
  split; [|split; [reflexivity|]].
  { rewrite parseParagraph_eq. cbv zeta. fold e. fold r0.
    unfold parseEmptyLines. rewrite Hrun. reflexivity. }
  unfold Reader.endOffset in *. cbn [Reader.offset Reader.advance Reader.resetOffset r0].
  repeat split; try lia; try exact Hstop.
  unfold Reader.substring, substring.
  replace (e + n - e) with n by lia.
  rewrite Hcat in Hwhite. fold n in Hwhite. unfold Reader.rest, substring in Hwhite.
  cbn [Reader.buffer Reader.offset Reader.endOffset Reader.windowEnd r0
       Reader.resetOffset] in Hwhite.
  rewrite firstn_firstn in Hwhite.
  replace (Nat.min n (Reader.windowEnd r - e)) with n in Hwhite by lia.
  exact Hwhite.
Qed.

(** A word, a blank line, and another word. *)
Lemma parseParagraph_range_witness :
  let r := Reader.new (txt "hi" ++ [nl; nl] ++ txt "ho") in
  exists e r',
    parseParagraph SpecUtils.utils 7 r = Ok (Paragraph (Reader.offset r) e [], r')
    /\ e = stopAt (Reader.match_ (paragraphSeparateRe SpecUtils.utils) r) r
    /\ Reader.offset r <= e /\ e <= Reader.offset r'
    /\ Reader.offset r' <= Reader.endOffset r
    /\ sameWindow r r'
    /\ allWhite (Reader.substring e (Reader.offset r') r)
    /\ (Reader.rest r' = [] \/ trim (Reader.line r') <> []).
Proof.
  intros r. apply (parseParagraph_range SpecUtils.utils 7 r).
  - split; cbn; lia.
  - cbn; lia.
Defined.

(** X3.  Not at a heading and in mode 'first-section', [parseElement] never
    throws on a Reader whose cursor is inside its window: it returns a
    section that begins at the cursor and ends no later than the first line
    that [/^\*+[ \t]/m] finds and no later than the end of the window, moves
    the cursor to the end of the section, and restores the window it has
    narrowed. *)
Theorem parseElement_first_section (U : Utils) (fuel : nat)
    (structure : option (list ListStructureItem)) (r : Reader.t) :
  inWindow r ->
  atHeading r = false ->
  exists e,
    parseElement U fuel FirstSection structure r
    = Ok (Section (Reader.offset r) e [], Reader.resetOffset e r)
    /\ Reader.offset r <= e
    /\ e <= stopAt (Reader.match_ nextHeadingRe r) r
    /\ stopAt (Reader.match_ nextHeadingRe r) r <= Reader.endOffset r.
Proof.
  intros Hw Hh.
  pose proof (stopAt_bounds nextHeadingRe r Hw) as Hlim.
  set (limit := stopAt (Reader.match_ nextHeadingRe r) r) in *.
  set (r0 := Reader.narrow (Reader.offset r) limit r).
  assert (Hw0 : inWindow r0).
  { destruct Hw. unfold Reader.endOffset in Hlim. split; cbn; lia. }
  pose proof (stopAt_bounds sectionEndRe r0 Hw0) as He.
  set (e := stopAt (Reader.match_ sectionEndRe r0) r0) in *.
  cbn [Reader.offset Reader.endOffset Reader.windowEnd r0 Reader.narrow] in He.
  exists e. split; [|lia].
  rewrite (parseElement_first_section_eq U fuel structure r Hh). cbv zeta.
  fold limit. fold r0. fold e. destruct r; reflexivity.
Qed.

(** A line of text before a heading. *)
Lemma parseElement_first_section_witness :
  let r := Reader.new (txt "hello" ++ [nl] ++ txt "* hi") in
  exists e,
    parseElement SpecUtils.utils 0 FirstSection None r
    = Ok (Section (Reader.offset r) e [], Reader.resetOffset e r)
    /\ Reader.offset r <= e
    /\ e <= stopAt (Reader.match_ nextHeadingRe r) r
    /\ stopAt (Reader.match_ nextHeadingRe r) r <= Reader.endOffset r.
Proof.
  intros r. apply (parseElement_first_section SpecUtils.utils 0 None r).
  - split; cbn; lia.
  - reflexivity.
Defined.

End LineFacts.

(* ================================================================== *)
(** ** The windows of the Reader across the whole parser *)

Module DisciplineFacts.
Import Js Ast Parser Notions WindowNotions ReaderFacts ObjectFacts WindowFacts.
Import ScannerFacts ElementFacts LineFacts.

Lemma sameWindow_resetOffset e r : sameWindow r (Reader.resetOffset e r).
Proof. repeat split. Qed.

Lemma movedForward_sameWindow r r' : movedForward r r' -> sameWindow r r'.
Proof. intros (? & ? & ? & ? & _). repeat split; assumption. Qed.

Lemma parseEmptyLines_window fuel r x r' :
  parseEmptyLines fuel r = Ok (x, r') -> sameWindow r r'.
Proof. intros H. eapply movedForward_sameWindow, parseEmptyLines_forward, H. Qed.

Section WithUtils.
Variable U : Utils.

Lemma parseItem_window structure r e r' :
  parseItem U structure r = Ok (e, r') -> sameWindow r r'.
Proof.
  unfold parseItem, bind, get, upd, ret, throw.
  destruct (Reader.match_ (fullItemRe U) r) as [m|]; [|discriminate].
  destruct structure as [s|]; [|discriminate].
  destruct (find _ s); [|discriminate].
  intros [= _ <-].
  eapply sameWindow_trans; [apply (sameWindow_advanceMatch (Some m))|].
  apply sameWindow_resetOffset.
Qed.

Lemma parseHeadline_window fuel r e r' :
  parseHeadline U fuel r = Ok (e, r') -> sameWindow r r'.
Proof.
  unfold parseHeadline. unfold bind at 1. unfold get at 1.
  unfold bind at 1. unfold upd at 1.
  destruct (Reader.match_ starsRe r) as [st|]; [|discriminate].
  destruct (group "1" st) as [s1|]; [|discriminate].
  set (r1 := Reader.advanceMatch (Some st) r).
  unfold bind at 1. unfold get at 1.
  destruct (Reader.match_ titleRe r1) as [tm|] eqn:Htm; [|discriminate].
  unfold bind at 1. unfold get at 1. unfold bind at 1. unfold get at 1.
  unfold bind at 1. unfold upd at 1. unfold bind at 1. unfold upd at 1.
  set (r2 := Reader.advanceMatch (Some tm) r1).
  unfold bind at 1.
  destruct (parseObjects U fuel _ _) as [[title r3]|] eqn:Hobj; [|discriminate].
  apply parseObjects_window, (sameWindow_narrow_widen _ _ false) in Hobj.
  unfold bind at 1. unfold upd at 1. unfold bind at 1. unfold get at 1.
  unfold bind at 1. unfold upd at 1. unfold bind at 1.
  destruct (parseEmptyLines fuel _) as [[x r4]|] eqn:Hel; [|discriminate].
  apply parseEmptyLines_window in Hel.
  unfold bind, get, upd, ret. intros [= _ <-].
  eapply sameWindow_trans; [|apply sameWindow_resetOffset].
  eapply sameWindow_trans; [|exact Hel].
  eapply sameWindow_trans; [|apply sameWindow_advance].
  eapply sameWindow_trans; [|exact Hobj].
  eapply sameWindow_trans; [apply (sameWindow_advanceMatch (Some st))|].
  apply (sameWindow_advanceMatch (Some tm)).
Qed.

Lemma parseList_window fuel s r e r' :
  parseList fuel s r = Ok (e, r') -> sameWindow r r'.
Proof.
  unfold parseList, bind, get, upd, ret, throw.
  destruct (find _ s); [|discriminate].
  destruct (parseListLoop _ _ _ _); [|discriminate].
  intros [= _ <-]. apply sameWindow_resetOffset.
Qed.

Lemma parseElement_window fuel mode structure r e r' :
  parseElement U fuel mode structure r = Ok (e, r') -> sameWindow r r'.
Proof.
  unfold parseElement.
  destruct (ParseMode_eqb mode ItemMode); [apply parseItem_window|].
  unfold bind at 1. unfold get at 1.
  destruct (atHeading r) eqn:Hh; [apply parseHeadline_window|].
  destruct (ParseMode_eqb mode SectionMode).
  { unfold parseSection, bind, get, upd, ret. intros [= _ <-].
    apply sameWindow_resetOffset. }
  destruct (ParseMode_eqb mode FirstSection).
  { unfold parseSection, bind, get, upd, ret. intros [= _ <-]. repeat split. }
  unfold bind at 1. unfold get at 1.
  destruct (isSome (Reader.match_ (itemRe U) r)).
  - unfold bind at 1.
    destruct structure as [s|].
    + unfold ret at 1. apply parseList_window.
    + unfold bind at 1. unfold get at 1. unfold bind at 1.
      destruct (parseListStructure U fuel r) as [[s r1]|] eqn:Hscan; [|discriminate].
      apply parseListStructure_forward, movedForward_reset in Hscan.
      unfold bind at 1. unfold upd at 1. unfold ret at 1. rewrite Hscan.
      apply parseList_window.
  - rewrite parseParagraph_eq. cbv zeta.
    destruct (parseEmptyLines fuel _) as [[x r1]|] eqn:Hel; [|discriminate].
    intros [= _ <-]. apply parseEmptyLines_window in Hel.
    eapply sameWindow_trans; [apply sameWindow_resetOffset | exact Hel].
Qed.

Lemma parseElementsLoop_window fuel :
  forall mode structure prevOffset elements r l r',
    parseElementsLoop U fuel mode structure prevOffset elements r = Ok (l, r') ->
    sameWindow r r' /\ Reader.eof r' = true.
Proof.
  induction fuel as [|fuel IH]; intros mode structure prevOffset elements r l r' H.
  - discriminate.
  - rewrite parseElementsLoop_step in H.
    destruct (Reader.eof r) eqn:Heof.
    { injection H as _ <-. split; [apply sameWindow_refl | exact Heof]. }
    destruct (_ =? _)%Z; [discriminate|].
    destruct (parseElement U fuel mode structure r) as [[element r1]|] eqn:He;
      [|discriminate].
    apply parseElement_window in He.
    destruct (withChildren U fuel mode structure element r1) as [[element' r2]|] eqn:Hw;
      [|discriminate].
    assert (Hw' : sameWindow r1 r2).
    { revert Hw. unfold withChildren, bind, upd, ret.
      destruct (Ast.contentsBegin element), (Ast.contentsEnd element);
        try (intros [= _ <-]; apply sameWindow_refl).
      destruct (existsb _ _).
      - match goal with
        | |- match ?x with _ => _ end = _ -> _ =>
            destruct x as [[ch r3]|] eqn:Hch; [|discriminate]
        end.
        intros [= _ <-]. apply IH in Hch. destruct Hch as [Hch _].
        now apply (sameWindow_narrow_widen _ _ false) in Hch.
      - destruct (parseObjects _ _ _ _) as [[ch r3]|] eqn:Hch; [|discriminate].
        intros [= _ <-]. apply parseObjects_window in Hch.
        now apply (sameWindow_narrow_widen _ _ false) in Hch. }
    apply IH in H. destruct H as [H Heof'].
    split; [|exact Heof'].
    eapply sameWindow_trans; [exact He|].
    eapply sameWindow_trans; [exact Hw' | exact H].
Qed.

(** X4.  Every [narrow] is undone: when [parseElements] returns, the buffer,
    the window and the stack of windows of the Reader are those it was
    entered with, whatever elements it has descended into, and the cursor is
    at the end of that window. *)
Theorem parseElements_restores_window (fuel : nat) (mode : ParseMode)
    (structure : option (list ListStructureItem)) (r r' : Reader.t)
    (elements : list node) :
  parseElements U fuel mode structure r = Ok (elements, r') ->
  sameWindow r r' /\ Reader.offset r' = Reader.endOffset r.
Proof.
  intros H. apply parseElementsLoop_window in H. destruct H as [Hw Heof].
  split; [exact Hw|]. apply Nat.eqb_eq in Heof.
  destruct Hw as (_ & _ & He & _). unfold Reader.endOffset in *. congruence.
Qed.

Lemma parseElementsLoop_items fuel :
  forall structure prevOffset elements r l r',
    parseElementsLoop U fuel ItemMode structure prevOffset elements r = Ok (l, r') ->
    Forall (fun n => Ast.type n = "item") elements ->
    Forall (fun n => Ast.type n = "item") l.
Proof.
  induction fuel as [|fuel IH]; intros structure prevOffset elements r l r' H Hacc.
  - discriminate.
  - rewrite parseElementsLoop_step in H.
    destruct (Reader.eof r); [now injection H as <- _|].
    destruct (_ =? _)%Z; [discriminate|].
    destruct (parseElement U fuel ItemMode structure r) as [[element r1]|] eqn:He;
      [|discriminate].
    assert (Hty : Ast.type element = "item").
    { revert He. unfold parseElement. cbn [ParseMode_eqb].
      unfold parseItem, bind, get, upd, ret, throw.
      destruct (Reader.match_ (fullItemRe U) r); [|discriminate].
      destruct structure as [s|]; [|discriminate].
      destruct (find _ s); [|discriminate].
      now intros [= <- _]. }
    destruct (withChildren U fuel ItemMode structure element r1)
      as [[element' r2]|] eqn:Hw; [|discriminate].
    assert (Hty' : Ast.type element' = "item").
    { revert Hw. unfold withChildren, bind, upd, ret.
      destruct (Ast.contentsBegin element), (Ast.contentsEnd element);
        try (intros [= <- _]; exact Hty).
      destruct (existsb _ _).
      - match goal with
        | |- match ?x with _ => _ end = _ -> _ =>
            destruct x as [[ch r3]|]; [|discriminate]
        end.
        intros [= <- _]. rewrite <- Hty. now destruct element.
      - destruct (parseObjects _ _ _ _) as [[ch r3]|]; [|discriminate].
        intros [= <- _]. rewrite <- Hty. now destruct element. }
    apply IH in H; [exact H|].
    apply Forall_app. split; [exact Hacc | constructor; [exact Hty' | constructor]].
Qed.

Lemma withChildren_plain_list fuel mode structure indent b e s r r' n :
  existsb (String.eqb "plain-list") (greaterElements U) = true ->
  withChildren U fuel mode structure (PlainList indent b e s []) r = Ok (n, r') ->
  exists items,
    n = PlainList indent b e s items
    /\ Forall (fun i => Ast.type i = "item") items.
Proof.
  intros Hg. unfold withChildren.
  cbn [Ast.type Ast.contentsBegin Ast.contentsEnd]. rewrite Hg.
  unfold bind at 1. unfold upd at 1. unfold bind at 1.
  replace (nextMode mode "plain-list" true) with ItemMode by (now destruct mode).
  destruct (parseElementsLoop _ _ _ _ _ _ _) as [[items r1]|] eqn:Hch; [|discriminate].
  apply parseElementsLoop_items in Hch; [|constructor].
  unfold bind, upd, ret. intros [= <- _]. exists items. auto.
Qed.

Lemma parseElement_no_children fuel mode structure r element r' :
  parseElement U fuel mode structure r = Ok (element, r') ->
  Ast.children element = [].
Proof.
  unfold parseElement.
  destruct (ParseMode_eqb mode ItemMode).
  { unfold parseItem, bind, get, upd, ret, throw.
    destruct (Reader.match_ (fullItemRe U) r); [|discriminate].
    destruct structure as [s|]; [|discriminate].
    destruct (find _ s); [|discriminate].
    now intros [= <- _]. }
  unfold bind at 1. unfold get at 1.
  destruct (atHeading r) eqn:Hh.
  { intros H. pose proof H as H'. revert H. unfold parseHeadline.
    unfold bind at 1. unfold get at 1. unfold bind at 1. unfold upd at 1.
    destruct (Reader.match_ starsRe r) as [st|]; [|discriminate].
    destruct (group "1" st) as [s1|]; [|discriminate].
    unfold bind at 1. unfold get at 1.
    destruct (Reader.match_ titleRe _) as [tm|]; [|discriminate].
    unfold bind at 1. unfold get at 1. unfold bind at 1. unfold get at 1.
    unfold bind at 1. unfold upd at 1. unfold bind at 1. unfold upd at 1.
    unfold bind at 1.
    destruct (parseObjects U fuel _ _) as [[title r3]|]; [|discriminate].
    unfold bind at 1. unfold upd at 1. unfold bind at 1. unfold get at 1.
    unfold bind at 1. unfold upd at 1. unfold bind at 1.
    destruct (parseEmptyLines fuel _) as [[x r4]|]; [|discriminate].
    unfold bind, get, upd, ret. now intros [= <- _]. }
  destruct (ParseMode_eqb mode SectionMode).
  { unfold parseSection, bind, get, upd, ret. now intros [= <- _]. }
  destruct (ParseMode_eqb mode FirstSection).
  { unfold parseSection, bind, get, upd, ret. now intros [= <- _]. }
  unfold bind at 1. unfold get at 1.
  destruct (isSome (Reader.match_ (itemRe U) r)).
  - unfold bind at 1.
    assert (Hl : forall s r0, parseList fuel s r0 = Ok (element, r') ->
                              Ast.children element = []).
    { intros s r0. unfold parseList, bind, get, upd, ret, throw.
      destruct (find _ s); [|discriminate].
      destruct (parseListLoop _ _ _ _); [|discriminate].
      now intros [= <- _]. }
    destruct structure as [s|].
    + unfold ret at 1. apply Hl.
    + unfold bind at 1. unfold get at 1. unfold bind at 1.
      destruct (parseListStructure U fuel r) as [[s r1]|]; [|discriminate].
      unfold bind at 1. unfold upd at 1. unfold ret at 1. apply Hl.
  - rewrite parseParagraph_eq. cbv zeta.
    destruct (parseEmptyLines fuel _) as [[x r1]|]; [|discriminate].
    now intros [= <- _].
Qed.

Lemma withChildren_listOfItems fuel mode structure element r element' r' :
  existsb (String.eqb "plain-list") (greaterElements U) = true ->
  Ast.children element = [] ->
  withChildren U fuel mode structure element r = Ok (element', r') ->
  listOfItems element'.
Proof.
  intros Hg Hnil H.
  destruct element as [b e c|l v t b e c|b e c|b e c|i b e s c|i bu ch b e c|lt rl c|v];
    try (revert H; unfold withChildren, bind, upd, ret;
         cbn [Ast.type Ast.contentsBegin Ast.contentsEnd];
         repeat match goal with
                | |- context [if ?b then _ else _] => destruct b
                | |- context [match ?x with Ok _ => _ | Err _ => _ end] =>
                    destruct x as [[? ?]|]
                end;
         try discriminate; intros [= <- _]; exact I).
  cbn in Hnil. subst c.
  apply withChildren_plain_list in H; [|exact Hg].
  destruct H as (items & -> & Hitems). exact Hitems.
Qed.

Lemma parseElementsLoop_listOfItems fuel :
  existsb (String.eqb "plain-list") (greaterElements U) = true ->
  forall mode structure prevOffset elements r l r',
    parseElementsLoop U fuel mode structure prevOffset elements r = Ok (l, r') ->
    Forall listOfItems elements -> Forall listOfItems l.
Proof.
  intros Hg.
  induction fuel as [|fuel IH];
    intros mode structure prevOffset elements r l r' H Hacc; [discriminate|].
  rewrite parseElementsLoop_step in H.
  destruct (Reader.eof r); [now injection H as <- _|].
  destruct (_ =? _)%Z; [discriminate|].
  destruct (parseElement U fuel mode structure r) as [[element r1]|] eqn:He;
    [|discriminate].
  apply parseElement_no_children in He.
  destruct (withChildren U fuel mode structure element r1)
    as [[element' r2]|] eqn:Hw; [|discriminate].
  apply withChildren_listOfItems in Hw; [|exact Hg|exact He].
  apply IH in H; [exact H|].
  apply Forall_app. split; [exact Hacc | constructor; [exact Hw | constructor]].
Qed.

(** X5.  When plain lists are greater elements, every plain-list node that
    [parseElements] returns has items for children, and nothing else: the
    descent into a list runs in mode 'item', where every element is parsed
    by [parseItem] and the mode stays 'item'. *)
Theorem parseElements_list_children (fuel : nat) (mode : ParseMode)
    (structure : option (list ListStructureItem)) (r r' : Reader.t)
    (elements : list node) :
  existsb (String.eqb "plain-list") (greaterElements U) = true ->
  parseElements U fuel mode structure r = Ok (elements, r') ->
  Forall listOfItems elements.
Proof.
  intros Hg H. eapply parseElementsLoop_listOfItems in H; [exact H|exact Hg|constructor].
Qed.

End WithUtils.

(** The document of the two-item list, parsed as the first section. *)
Lemma parseElements_restores_window_witness :
  let r := Reader.new (txt "- hi" ++ [nl] ++ txt "- there") in
  sameWindow r (Reader.resetOffset 12 r)
  /\ Reader.offset (Reader.resetOffset 12 r) = Reader.endOffset r.
Proof.
  intros r.
  eapply (parseElements_restores_window SpecUtils.utils 6 FirstSection None r).
  vm_compute. reflexivity.
Defined.

(** The list of two items. *)
Lemma parseElements_list_children_witness :
  let s := [mkItem 0 0 (Some (txt "-")) None None None 5;
            mkItem 5 0 (Some (txt "-")) None None None 12] in
  Forall listOfItems
    [PlainList 0 0 12 s
       [Item 0 (Some (txt "-")) None 2 5 [Paragraph 2 5 [Text (txt "hi" ++ [nl])]];
        Item 0 (Some (txt "-")) None 7 12 [Paragraph 7 12 [Text (txt "there")]]]].
Proof.
  intros s.
  eapply (parseElements_list_children SpecUtils.utils 5 NullMode None
            (Reader.new (txt "- hi" ++ [nl] ++ txt "- there"))).
  - reflexivity.
  - vm_compute. reflexivity.
Defined.

End DisciplineFacts.

(* ================================================================== *)
(** ** The captures of a match *)

Module CaptureFacts.
Import Js Semantics SemanticsFacts.

(** The state [x] is at or after [L] and its captures lie between [L] and
    its end index. *)
Definition capsFrom (L : nat) (x : mstate) : Prop :=
  L <= endIndex x
  /\ Forall (fun p => L <= fst (snd p) /\ snd (snd p) <= endIndex x) (captures x).

Lemma capsFrom_weaken L e caps e' :
  capsFrom L (MState e caps) -> e <= e' -> capsFrom L (MState e' caps).
Proof.
  intros [HL Hc] He. split; cbn in *; [lia|].
  eapply Forall_impl; [|exact Hc]. cbn. intros p [? ?]. split; lia.
Qed.

Lemma capsFrom_clear L gs x : capsFrom L x -> capsFrom L (clearCaptures gs x).
Proof.
  intros [HL Hc]. split; [exact HL|]. unfold clearCaptures. cbn [captures endIndex].
  apply Forall_forall. intros p Hp. apply filter_In in Hp.
  rewrite Forall_forall in Hc. apply Hc, Hp.
Qed.

Section Captures.
Variable input : text.
Variable flagM : bool.

Lemma Matches_capsFrom L r : forall x y,
  Matches input flagM r x y ->
  endIndex x <= List.length input ->
  capsFrom L x -> capsFrom L y.
Proof.
  induction r as [|p|a IHa b IHb|a IHa b IHb|greedy lo hi a IHa|g a IHa| |];
    intros x y H Hx Hc; cbn [Matches] in H.
  - now subst.
  - destruct H as (ch & _ & _ & ->). destruct x as [e caps]. cbn.
    eapply capsFrom_weaken; [exact Hc | lia].
  - destruct H as (m & Ha & Hb).
    pose proof (Matches_bounds input flagM a x m Ha Hx) as Hm.
    apply (IHb m y Hb); [lia|]. now apply (IHa x m).
  - destruct H as [H|H]; [now apply (IHa x y) | now apply (IHb x y)].
  - destruct H as (n & _ & _ & Hn). clear lo hi. revert x Hx Hc Hn.
    induction n as [|n IHn]; intros x Hx Hc Hn; cbn [Iter] in Hn.
    + now subst.
    + destruct Hn as (m & Hm & Hn).
      assert (Hx' : endIndex (clearCaptures (groupsOf a) x) <= List.length input)
        by now rewrite endIndex_clearCaptures.
      pose proof (Matches_bounds input flagM a _ m Hm Hx') as Hb.
      apply (IHn m); [lia| |exact Hn].
      apply (IHa _ m Hm Hx'). now apply capsFrom_clear.
  - destruct H as (m & Hm & ->).
    pose proof (Matches_bounds input flagM a x m Hm Hx) as Hb.
    pose proof (IHa x m Hm Hx Hc) as [HL Hcm].
    split; cbn [endIndex captures]; [exact HL|].
    constructor; [cbn; destruct Hc; lia | exact Hcm].
  - destruct H as [_ ->]. exact Hc.
  - destruct H as [_ ->]. exact Hc.
Qed.

End Captures.

Lemma assoc_captures input g caps tx :
  assoc g (map (fun p => (fst p, substring input (fst (snd p)) (snd (snd p)))) caps)
  = Some tx ->
  exists a b, In (g, (a, b)) caps /\ tx = substring input a b.
Proof.
  induction caps as [|[k [a b]] caps IH]; cbn; [discriminate|].
  destruct (String.eqb k g) eqn:Hk.
  - intros [= <-]. apply String.eqb_eq in Hk. subst. eauto.
  - intros H. destruct (IH H) as (a' & b' & Hin & ->). eauto.
Qed.

(** In a match of a pattern that begins with a character, every group is
    shorter than the match. *)
Lemma group_shorter re p b input m g tx :
  source re = Seq (Chr p) b ->
  exec re input = Some m ->
  group g m = Some tx ->
  List.length tx < List.length (matched m).
Proof.
  intros Hsrc Hm. apply exec_sound in Hm. destruct Hm as (y & Hi & Hy & ->).
  intros Hg. rewrite Hsrc in Hy. cbn [Matches] in Hy.
  destruct Hy as (m1 & (ch & Hch & _ & ->) & Hb). cbn [endIndex captures] in *.
  assert (Hlt : index (toMatch input (index m) y) < List.length input).
  { apply nth_error_Some. cbn [toMatch index] in *. congruence. }
  cbn [toMatch index] in *. set (i := index m) in *.
  pose proof (Matches_bounds input (multiline re) b _ y Hb) as Hbd.
  cbn [endIndex] in Hbd. specialize (Hbd ltac:(lia)).
  assert (Hc : capsFrom (S i) y).
  { apply (Matches_capsFrom input (multiline re) (S i) b _ y Hb); [cbn; lia|].
    split; cbn; [lia | constructor]. }
  unfold group in Hg. cbn [groups matched] in *.
  apply assoc_captures in Hg. destruct Hg as (a' & b' & Hin & ->).
  destruct Hc as [_ Hc]. rewrite Forall_forall in Hc.
  specialize (Hc _ Hin). cbn in Hc.
  cbn [toMatch matched].
  rewrite (substring_length input i (endIndex y)) by lia.
  unfold substring. rewrite length_firstn. lia.
Qed.

End CaptureFacts.

(* ================================================================== *)
(** ** What parseObjects consumes and returns *)

Module ObjectRangeFacts.
Import Js Ast Parser Notions WindowNotions ReaderFacts ObjectFacts WindowFacts.
Import SemanticsFacts CaptureFacts LineFacts.

Lemma narrow_widen_false b e r r' :
  sameWindow (Reader.narrow b e r) r' -> Reader.widen false r' = r.
Proof.
  destruct r, r'. unfold sameWindow, Reader.widen, Reader.narrow. cbn.
  intros (-> & _ & _ & ->). reflexivity.
Qed.

Lemma advances_refl r : advances r r.
Proof. exists 0. split; [lia | now rewrite advance_0]. Qed.

Lemma advances_match re r m :
  Reader.match_ re r = Some m -> advances r (Reader.advanceMatch (Some m) r).
Proof. intros H. apply match_bounds in H. now exists (index m + List.length (matched m)). Qed.

Lemma advances_trans r1 r2 r3 : advances r1 r2 -> advances r2 r3 -> advances r1 r3.
Proof.
  intros (k1 & H1 & ->) (k2 & H2 & ->). exists (k1 + k2).
  rewrite rest_advance, length_skipn in H2. split; [lia|].
  apply advance_advance.
Qed.

Lemma parseLink_advances po r o r' :
  keepsWindow po -> parseLink po r = Ok (o, r') -> advances r r'.
Proof.
  intros Hpo. unfold parseLink, bind, get, upd, ret, throw.
  destruct (text_eqb (Reader.peek 1 r) (txt "[")).
  - destruct (Reader.match_ linkBracketRe r) as [m|] eqn:Hm.
    + apply advances_match in Hm.
      destruct (group "link" m) as [link|]; [|discriminate].
      destruct (group "text" m) as [[|c0 tx]|].
      * intros [= _ <-]. exact Hm.
      * destruct (po _ _) as [[ch r2]|] eqn:Hch; [|discriminate].
        intros [= _ <-]. apply Hpo, narrow_widen_false in Hch.
        rewrite Hch. exact Hm.
      * intros [= _ <-]. exact Hm.
    + intros [= _ <-]. apply advances_refl.
  - destruct (Reader.match_ plainLinkRe r) as [m|] eqn:Hm.
    + apply advances_match in Hm. intros [= _ <-]. exact Hm.
    + intros [= _ <-]. apply advances_refl.
Qed.

Lemma parseObject_advances po restr r o r' :
  keepsWindow po -> parseObject po restr r = Ok (o, r') -> advances r r'.
Proof.
  intros Hpo. unfold parseObject, bind, get, ret.
  assert (Hdefault :
    match (match has "link" restr with
           | Ok b => Ok (b, r)
           | Err e => Err e
           end) with
    | Ok (h, r1) => (if h then parseLink po else (fun r0 => Ok (None, r0))) r1
    | Err e => Err e
    end = Ok (o, r') -> advances r r').
  { destruct (has "link" restr) as [[|]|]; try discriminate.
    - now apply parseLink_advances.
    - intros [= _ <-]. apply advances_refl. }
  destruct (Reader.peek 2 r) as [|c0 [|c1 tx]]; try exact Hdefault.
  - destruct (Ascii.eqb c0 "["); [|exact Hdefault].
    intros [= _ <-]. apply advances_refl.
  - destruct (Ascii.eqb c0 "["); [|exact Hdefault].
    destruct (Ascii.eqb c1 "["); [exact Hdefault|].
    intros [= _ <-]. apply advances_refl.
Qed.

Lemma parseLink_node po r n r' :
  parseLink po r = Ok (Some n, r') -> exists ty raw ch, n = Link ty raw ch.
Proof.
  unfold parseLink, bind, get, upd, ret, throw.
  destruct (text_eqb (Reader.peek 1 r) (txt "[")).
  - destruct (Reader.match_ linkBracketRe r) as [m|]; [|discriminate].
    destruct (group "link" m) as [link|]; [|discriminate].
    destruct (group "text" m) as [[|c0 tx]|].
    + intros [= <- _]. eauto.
    + destruct (po _ _) as [[ch r2]|]; [|discriminate]. intros [= <- _]. eauto.
    + intros [= <- _]. eauto.
  - destruct (Reader.match_ plainLinkRe r) as [m|]; [|discriminate].
    intros [= <- _]. eauto.
Qed.

Lemma parseObject_node po restr r n r' :
  parseObject po restr r = Ok (Some n, r') -> exists ty raw ch, n = Link ty raw ch.
Proof.
  unfold parseObject, bind, get, ret.
  assert (Hdefault :
    match (match has "link" restr with
           | Ok b => Ok (b, r)
           | Err e => Err e
           end) with
    | Ok (h, r1) => (if h then parseLink po else (fun r0 => Ok (None, r0))) r1
    | Err e => Err e
    end = Ok (Some n, r') -> exists ty raw ch, n = Link ty raw ch).
  { destruct (has "link" restr) as [[|]|]; try discriminate.
    apply parseLink_node. }
  destruct (Reader.peek 2 r) as [|c0 [|c1 tx]]; try exact Hdefault.
  - destruct (Ascii.eqb c0 "["); [discriminate | exact Hdefault].
  - destruct (Ascii.eqb c0 "["); [|exact Hdefault].
    destruct (Ascii.eqb c1 "["); [exact Hdefault | discriminate].
Qed.

Section WithUtils.
Variable U : Utils.

Lemma loop_keepsWindow fuel :
  keepsWindow (fun restr' => parseObjectsLoop U fuel restr' (-1)%Z []).
Proof. intros restr r objs r'. apply parseObjectsLoop_window. Qed.

Lemma parseObjectsLoop_end fuel : forall restr prevOffset objects r objs r',
  parseObjectsLoop U fuel restr prevOffset objects r = Ok (objs, r') ->
  r' = Reader.advance (List.length (Reader.rest r)) r.
Proof.
  induction fuel as [|fuel IH]; intros restr prevOffset objects r objs r' H.
  - discriminate.
  - rewrite parseObjectsLoop_step in H.
    destruct (prevOffset =? Z.of_nat (Reader.offset r))%Z; [discriminate|].
    destruct (Reader.match_ (objectRegexp U) r) as [m|] eqn:Hm.
    + cbv zeta in H. apply match_bounds in Hm.
      destruct (parseObject _ restr _) as [[o r2]|] eqn:Ho; [|discriminate].
      apply parseObject_advances in Ho; [|apply loop_keepsWindow].
      apply IH in H. subst r'.
      assert (H1 : advances r r2).
      { eapply advances_trans; [|exact Ho].
        destruct (index m =? 0)%nat; [apply advances_refl|].
        exists (index m). split; [lia | reflexivity]. }
      destruct H1 as (k & Hk & ->).
      rewrite rest_advance, length_skipn, advance_advance. f_equal. lia.
    + now injection H as _ <-.
Qed.

(** X6.  When [parseObjects] returns, the Reader is the one it was entered
    with, the cursor moved to the end of the visible text: to the end of the
    window, when the cursor was inside it. *)
Theorem parseObjects_consumes_window (fuel : nat) (restr : Restriction)
    (r r' : Reader.t) (objs : list node) :
  inWindow r ->
  parseObjects U fuel restr r = Ok (objs, r') ->
  r' = Reader.resetOffset (Reader.endOffset r) r.
Proof.
  intros Hw H. apply parseObjectsLoop_end in H. subst r'.
  rewrite (rest_length _ Hw). destruct Hw as [Ho _].
  unfold Reader.advance, Reader.resetOffset, Reader.endOffset. f_equal. lia.
Qed.

Lemma parseObjectsLoop_nodes fuel : forall restr prevOffset objects r objs r',
  parseObjectsLoop U fuel restr prevOffset objects r = Ok (objs, r') ->
  Forall objectNode objects -> Forall objectNode objs.
Proof.
  induction fuel as [|fuel IH]; intros restr prevOffset objects r objs r' H Hacc.
  - discriminate.
  - rewrite parseObjectsLoop_step in H.
    destruct (prevOffset =? Z.of_nat (Reader.offset r))%Z; [discriminate|].
    destruct (Reader.match_ (objectRegexp U) r) as [m|] eqn:Hm.
    + cbv zeta in H. apply match_bounds in Hm.
      destruct (parseObject _ restr _) as [[o r2]|] eqn:Ho; [|discriminate].
      apply IH in H; [exact H|].
      assert (H1 : Forall objectNode
                     (if (index m =? 0)%nat then objects
                      else objects ++ [Text (Reader.peek (index m) r)])).
      { destruct (index m =? 0)%nat eqn:Hi; [exact Hacc|].
        apply Forall_app. split; [exact Hacc|]. constructor; [|constructor].
        apply Nat.eqb_neq in Hi. cbn. unfold Reader.peek. intros Hnil.
        apply (f_equal (@List.length _)) in Hnil.
        rewrite length_firstn in Hnil. cbn in Hnil. lia. }
      destruct o as [n|]; [|exact H1].
      apply Forall_app. split; [exact H1|]. constructor; [|constructor].
      apply parseObject_node in Ho. destruct Ho as (ty & raw & ch & ->). exact I.
    + injection H as <- _.
      destruct (List.length (trim (Reader.rest r)) =? 0)%nat eqn:Ht; [exact Hacc|].
      apply Forall_app. split; [exact Hacc|]. constructor; [|constructor].
      cbn. intros Hnil. rewrite Hnil in Ht. discriminate.
Qed.

Lemma parseObjects_nodes_aux fuel restr r r' objs :
  parseObjects U fuel restr r = Ok (objs, r') -> Forall objectNode objs.
Proof. intros H. apply parseObjectsLoop_nodes in H; [exact H | constructor]. Qed.

(** X7.  [parseObjects] returns links and texts only, and no text is
    empty. *)
Theorem parseObjects_nodes (fuel : nat) (restr : Restriction)
    (r r' : Reader.t) (objs : list node) :
  parseObjects U fuel restr r = Ok (objs, r') -> Forall objectNode objs.
Proof. intros H. apply parseObjectsLoop_nodes in H; [exact H | constructor]. Qed.

Lemma rest_narrow_length b e r :
  List.length (Reader.rest (Reader.narrow b e r)) <= e - b.
Proof.
  unfold Reader.rest, Reader.narrow, Reader.endOffset, substring. cbn.
  rewrite length_firstn. lia.
Qed.

Lemma parseLink_fuel po r :
  (forall restr' r0,
      List.length (Reader.rest r0) < List.length (Reader.rest r) ->
      po restr' r0 <> Err OutOfFuel) ->
  parseLink po r <> Err OutOfFuel.
Proof.
  intros Hpo. unfold parseLink, bind, get, upd, ret, throw.
  destruct (text_eqb (Reader.peek 1 r) (txt "[")).
  - destruct (Reader.match_ linkBracketRe r) as [m|] eqn:Hm; [|discriminate].
    destruct (group "link" m) as [link|]; [|discriminate].
    destruct (group "text" m) as [[|c0 tx]|] eqn:Hg; try discriminate.
    pose proof (match_bounds _ _ _ Hm) as Hb.
    pose proof (group_shorter linkBracketRe _ _ _ _ _ _ eq_refl Hm Hg) as Hlt.
    match goal with
    | |- context [po ?a ?b] =>
        pose proof (rest_narrow_length
                      (Reader.offset r + 2 + List.length link + 2)
                      (Reader.offset r + 2 + List.length link + 2
                       + List.length (c0 :: tx))
                      (Reader.advanceMatch (Some m) r)) as Hn;
        specialize (Hpo a b); destruct (po a b) as [[ch r2]|e]
    end.
    + discriminate.
    + intros [= ->]. apply Hpo; [|reflexivity]. lia.
  - destruct (Reader.match_ plainLinkRe r) as [m|]; discriminate.
Qed.

Lemma parseObject_fuel po restr r :
  (forall restr' r0,
      List.length (Reader.rest r0) < List.length (Reader.rest r) ->
      po restr' r0 <> Err OutOfFuel) ->
  parseObject po restr r <> Err OutOfFuel.
Proof.
  intros Hpo. unfold parseObject, bind, get, ret.
  assert (Hdefault :
    match (match has "link" restr with
           | Ok b => Ok (b, r)
           | Err e => Err e
           end) with
    | Ok (h, r1) => (if h then parseLink po else (fun r0 => Ok (None, r0))) r1
    | Err e => Err e
    end <> Err OutOfFuel).
  { destruct restr as [s|s]; cbn [has]; [|discriminate].
    destruct (existsb _ s); [now apply parseLink_fuel | discriminate]. }
  destruct (Reader.peek 2 r) as [|c0 [|c1 tx]]; try exact Hdefault.
  - destruct (Ascii.eqb c0 "["); [discriminate | exact Hdefault].
  - destruct (Ascii.eqb c0 "["); [|exact Hdefault].
    destruct (Ascii.eqb c1 "["); [exact Hdefault | discriminate].
Qed.

Lemma parseObjectsLoop_fuel fuel : forall restr prevOffset objects r,
  List.length (Reader.rest r) + 2 <= fuel ->
  parseObjectsLoop U fuel restr prevOffset objects r <> Err OutOfFuel.
Proof.
  induction fuel as [|fuel IH]; intros restr prevOffset objects r Hf; [lia|].
  rewrite parseObjectsLoop_step.
  destruct (prevOffset =? Z.of_nat (Reader.offset r))%Z; [discriminate|].
  destruct (Reader.match_ (objectRegexp U) r) as [m|] eqn:Hm; [|discriminate].
  cbv zeta. apply match_bounds in Hm.
  set (r1 := if (index m =? 0)%nat then r else Reader.advance (index m) r).
  assert (H1 : advances r r1).
  { subst r1. destruct (index m =? 0)%nat; [apply advances_refl|].
    exists (index m). split; [lia | reflexivity]. }
  assert (Hr1 : List.length (Reader.rest r1) <= List.length (Reader.rest r)).
  { destruct H1 as (k & Hk & ->). rewrite rest_advance, length_skipn. lia. }
  destruct (parseObject _ restr r1) as [[o r2]|e] eqn:Ho.
  - apply parseObject_advances in Ho; [|apply loop_keepsWindow].
    pose proof (advances_trans _ _ _ H1 Ho) as (k & Hk & ->).
    destruct k as [|k].
    + rewrite advance_0. destruct fuel as [|fuel']; [lia|].
      rewrite parseObjectsLoop_step. rewrite Z.eqb_refl. discriminate.
    + apply IH. rewrite rest_advance, length_skipn. lia.
  - intros [= ->]. revert Ho. apply parseObject_fuel.
    intros restr' r0 Hlt. apply IH. lia.
Qed.

(** X8.  [parseObjects] terminates: with more fuel than the visible text has
    characters plus one, the loop of the source has returned or thrown, and
    more fuel changes nothing. *)
Theorem parseObjects_terminates (fuel fuel' : nat) (restr : Restriction)
    (r : Reader.t) :
  List.length (Reader.rest r) + 2 <= fuel ->
  fuel <= fuel' ->
  parseObjects U fuel restr r <> Err OutOfFuel
  /\ parseObjects U fuel' restr r = parseObjects U fuel restr r.
Proof.
  intros Hf Hle.
  assert (H : parseObjects U fuel restr r <> Err OutOfFuel)
    by now apply parseObjectsLoop_fuel.
  split; [exact H|].
  induction Hle as [|n _ IH]; [reflexivity|].
  rewrite <- IH. apply FuelFacts.parseObjects_le; [reflexivity|]. now rewrite IH.
Qed.

End WithUtils.

(** A headline title with a link in it. *)
Lemma parseObjects_consumes_window_witness :
  let r := Reader.new (txt "see [[a][b]] now") in
  Reader.resetOffset 16 r = Reader.resetOffset (Reader.endOffset r) r.
Proof.
  intros r.
  eapply (parseObjects_consumes_window SpecUtils.utils 4
            (RSet (restriction SpecUtils.utils "paragraph")) r).
  - split; cbn; lia.
  - vm_compute. reflexivity.
Defined.

Lemma parseObjects_nodes_witness :
  Forall objectNode
    [Text (txt "see "); Link (txt "fuzzy") (txt "a") [Text (txt "b")];
     Text (txt " now")].
Proof.
  eapply (parseObjects_nodes SpecUtils.utils 4
            (RSet (restriction SpecUtils.utils "paragraph"))
            (Reader.new (txt "see [[a][b]] now"))).
  vm_compute. reflexivity.
Defined.

Lemma parseObjects_terminates_witness :
  let r := Reader.new (txt "[[a") in
  let restr := RSet (restriction SpecUtils.utils "paragraph") in
  parseObjects SpecUtils.utils 5 restr r <> Err OutOfFuel
  /\ parseObjects SpecUtils.utils 9 restr r = parseObjects SpecUtils.utils 5 restr r.
Proof.
  intros r restr. apply (parseObjects_terminates SpecUtils.utils 5 9 restr r).
  - cbn. lia.
  - lia.
Defined.

End ObjectRangeFacts.

(* ================================================================== *)
(** ** Plain links and headlines *)

Module HeadlineFacts.
Import Js Ast Parser Notions WindowNotions Semantics ReaderFacts ObjectFacts.
Import WindowFacts SemanticsFacts LineFacts ObjectRangeFacts.

Lemma substring_split (s : text) a b c :
  a <= b <= c -> substring s a c = substring s a b ++ substring s b c.
Proof.
  intros Habc. unfold substring.
  replace (c - a) with ((b - a) + (c - b)) by lia.
  rewrite <- (firstn_skipn (b - a) (firstn _ _)).
  rewrite firstn_firstn, skipn_firstn_comm, skipn_skipn.
  f_equal; [f_equal; lia|]. f_equal; [lia | f_equal; lia].
Qed.

Lemma substring_0 (s : text) e : substring s 0 e = firstn e s.
Proof. unfold substring. now rewrite Nat.sub_0_r. Qed.

Lemma substring_one (s : text) i ch :
  nth_error s i = Some ch -> substring s i (S i) = [ch].
Proof.
  intros H. unfold substring. replace (S i - i) with 1 by lia.
  destruct (nth_error_split _ _ H) as (l1 & l2 & -> & <-).
  now rewrite skipn_app, skipn_all, Nat.sub_diag.
Qed.

Lemma atLineStart_single input i : atLineStart input false i = true -> i = 0.
Proof. destruct i; [reflexivity | discriminate]. Qed.

(** A match of [^(a)b] without the [m] flag, [a] and [b] without groups:
    it is at index 0 and its only group is [a]'s. *)
Lemma exec_anchored_group re g a b input m :
  source re = Seq Bol (Seq (Grp g a) b) ->
  multiline re = false ->
  groupsOf a = [] -> groupsOf b = [] ->
  exec re input = Some m ->
  exists e1 e2,
    Matches input false a (MState 0 []) (MState e1 [])
    /\ Matches input false b (MState e1 [(g, (0, e1))]) (MState e2 [(g, (0, e1))])
    /\ e1 <= e2 <= List.length input
    /\ m = mkMatch 0 (firstn e2 input) [(g, firstn e1 input)].
Proof.
  intros Hsrc Hml Ha Hb Hm. apply exec_sound in Hm.
  destruct Hm as (y & Hi & Hy & Heq). rewrite Hsrc, Hml in Hy.
  cbn [Matches] in Hy.
  destruct Hy as (x0 & [Hbol ->] & x2 & (x1 & H1 & ->) & H2).
  cbn [endIndex] in *. apply atLineStart_single in Hbol. rewrite Hbol in *.
  pose proof (Matches_captures _ _ _ _ _ H1 Ha) as Hc1.
  pose proof (Matches_captures _ _ _ _ _ H2 Hb) as Hc2.
  pose proof (Matches_bounds _ _ _ _ _ H1 ltac:(cbn; lia)) as Hb1.
  pose proof (Matches_bounds _ _ _ _ _ H2 ltac:(cbn; lia)) as Hb2.
  destruct x1 as [e1 c1], y as [e2 c2]. cbn in Hc1, Hc2, Hb1, Hb2. subst c1 c2.
  exists e1, e2. repeat split; try assumption; try lia.
  rewrite Heq. unfold toMatch. cbn [captures endIndex map fst snd]. now rewrite !substring_0.
Qed.

Lemma repeat_eq (c : ascii) (s : text) :
  Forall (fun x => x = c) s -> s = repeat c (List.length s).
Proof. induction 1 as [|x s -> _ IH]; cbn; [reflexivity | now f_equal]. Qed.


Lemma inWindow_advances r r' : inWindow r -> advances r r' -> inWindow r'.
Proof. intros Hw (k & Hk & ->). now apply inWindow_advance. Qed.

Lemma parseMulti_advances fuel : forall acc r x r',
  parseMulti fuel emptyLine acc r = Ok (x, r') -> advances r r'.
Proof.
  induction fuel as [|fuel IH]; intros acc r x r'; [discriminate|].
  simpl. unfold bind at 1. unfold emptyLine at 1.
  unfold bind, get, upd, ret.
  destruct (List.length (trim (Reader.line r)) =? 0)%nat.
  - assert (Hadv : advances r (Reader.advance (List.length (Reader.line r)) r)).
    { eexists. split; [apply line_length | reflexivity]. }
    destruct (Reader.line r) as [|c ln] eqn:Hline.
    + intros [= _ <-]. exact Hadv.
    + intros H. apply IH in H. eapply advances_trans; [exact Hadv | exact H].
  - intros [= _ <-]. apply advances_refl.
Qed.

Lemma rest_substring r n :
  inWindow r -> n <= List.length (Reader.rest r) ->
  Reader.substring (Reader.offset r) (Reader.offset r + n) r
  = firstn n (Reader.rest r).
Proof.
  intros Hw Hn. rewrite (rest_length _ Hw) in Hn.
  unfold Reader.substring, Reader.rest, Reader.endOffset, substring.
  rewrite firstn_firstn. f_equal; lia.
Qed.

Lemma sameWindow_resetOffset_eq e r r' :
  sameWindow r r' -> Reader.resetOffset e r' = Reader.resetOffset e r.
Proof.
  intros (Hb & Hwb & Hwe & Hn). unfold Reader.resetOffset. congruence.
Qed.

Lemma advances_sameWindow r r' : advances r r' -> sameWindow r r'.
Proof. intros (k & _ & ->). apply sameWindow_advance. Qed.

Lemma advances_offset r r' : advances r r' -> Reader.offset r <= Reader.offset r'.
Proof. intros (k & _ & ->). cbn. lia. Qed.

Section WithUtils.
Variable U : Utils.

(** What [parseHeadline] returns and where it leaves the cursor. *)
Lemma parseHeadline_spec (fuel : nat) (r r' : Reader.t) (n : node) :
  inWindow r ->
  parseHeadline U fuel r = Ok (n, r') ->
  exists level raw title cb ce,
    n = Headline level raw title cb ce []
    /\ 1 <= level
    /\ Reader.peek level r = repeat "*"%char level
    /\ Forall (fun c => isLineTerminator c = false) raw
    /\ Reader.offset r + level + 1 + List.length raw <= cb
    /\ ce = stopAt (Reader.match_ (endOfSubtreeRe level) (Reader.resetOffset cb r))
                   (Reader.resetOffset cb r)
    /\ cb <= ce /\ ce <= Reader.endOffset r
    /\ r' = Reader.resetOffset ce r.
Proof.
  intros Hw. unfold parseHeadline. unfold bind at 1. unfold get at 1.
  unfold bind at 1. unfold upd at 1.
  destruct (Reader.match_ starsRe r) as [st|] eqn:Hst; [|discriminate].
  pose proof (advances_match _ _ _ Hst) as Hadv1.
  unfold Reader.match_ in Hst.
  apply (exec_anchored_group starsRe "1" (plus asterisk) (plus blank)) in Hst;
    try reflexivity.
  destruct Hst as (e1 & e2 & Hs1 & Hs2 & Hle & ->).
  cbn [group groups assoc String.eqb Ascii.eqb Bool.eqb]. cbv iota.
  set (r1 := Reader.advanceMatch _ r) in *.
  pose proof (Matches_bounds _ _ _ _ _ Hs1 ltac:(cbn; lia)) as Hb1.
  pose proof (Matches_bounds _ _ _ _ _ Hs2 ltac:(cbn; lia)) as Hb2.
  cbn in Hb1, Hb2.
  assert (Hast : classesIn (fun c => c = "*"%char) (plus asterisk)).
  { unfold plus, asterisk, chr. cbn [classesIn]. intros c Hc.
    apply Ascii.eqb_eq in Hc. now subst. }
  pose proof (Matches_classes _ _ _ _ _ _ Hs1 Hast ltac:(cbn; lia)) as Hstars.
  cbn [endIndex] in Hstars. rewrite substring_0 in Hstars.
  assert (Hlev : List.length (firstn e1 (Reader.rest r)) = e1)
    by (rewrite length_firstn; lia).
  assert (Ho1 : Reader.offset r1 = Reader.offset r + e2).
  { subst r1. cbn. rewrite length_firstn. lia. }
  pose proof (inWindow_advances _ _ Hw Hadv1) as Hw1.
  unfold bind at 1. unfold get at 1.
  destruct (Reader.match_ titleRe r1) as [tm|] eqn:Htm; [|discriminate].
  pose proof (advances_match _ _ _ Htm) as Hadv2.
  pose proof (match_bounds _ _ _ Htm) as Htb.
  unfold Reader.match_ in Htm.
  pose proof (exec_bounds _ _ _ Htm) as (_ & Hfirst & _).
  apply exec_sound in Htm.
  destruct Htm as (y & Hi & Hy & Heq).
  cbn [source titleRe seqs multiline Matches] in Hy.
  destruct Hy as (x0 & [Hbol ->] & Hy).
  cbn [endIndex] in Hbol. apply atLineStart_single in Hbol.
  assert (Hdot : classesIn (fun c => isLineTerminator c = false) (star dot)).
  { unfold star, dot. cbn [classesIn]. intros c Hc.
    now apply negb_true_iff in Hc. }
  assert (Hy' : Matches (Reader.rest r1) false (star dot) (MState (index tm) []) y)
    by exact Hy.
  pose proof (Matches_classes _ _ _ _ _ _ Hy' Hdot ltac:(cbn; lia)) as Hraw.
  cbn [endIndex] in Hraw.
  assert (Hmt : matched tm = substring (Reader.rest r1) (index tm) (endIndex y))
    by (rewrite Heq; reflexivity).
  rewrite <- Hmt in Hraw. clear Hy Hy' Heq Hmt y Hi.
  unfold bind at 1. unfold get at 1. unfold bind at 1. unfold get at 1.
  unfold bind at 1. unfold upd at 1. unfold bind at 1. unfold upd at 1.
  set (r2 := Reader.advanceMatch (Some tm) r1) in *.
  pose proof (inWindow_advances _ _ Hw1 Hadv2) as Hw2.
  assert (Ho2 : Reader.offset r2 = Reader.offset r1 + List.length (matched tm)).
  { subst r2. cbn. lia. }
  unfold bind at 1.
  destruct (parseObjects U fuel _ _) as [[title r3]|] eqn:Hobj; [|discriminate].
  apply parseObjects_window, narrow_widen_false in Hobj.
  unfold bind at 1. unfold upd at 1. rewrite Hobj.
  unfold bind at 1. unfold get at 1.
  unfold bind at 1. unfold upd at 1. unfold bind at 1.
  set (r4 := Reader.advanceText (Reader.line r2) r2).
  assert (Hadv4 : advances r2 r4).
  { eexists. split; [apply line_length | reflexivity]. }
  destruct (parseEmptyLines fuel r4) as [[x r5]|] eqn:Hel; [|discriminate].
  apply parseMulti_advances in Hel.
  assert (Hadv : advances r r5).
  { eapply advances_trans; [exact Hadv1|].
    eapply advances_trans; [exact Hadv2|].
    eapply advances_trans; [exact Hadv4 | exact Hel]. }
  pose proof (inWindow_advances _ _ Hw Hadv) as Hw5.
  pose proof (advances_sameWindow _ _ Hadv) as Hsw.
  pose proof (advances_offset _ _ Hadv4) as Ho4.
  pose proof (advances_offset _ _ Hel) as Ho5.
  assert (Hr5 : r5 = Reader.resetOffset (Reader.offset r5) r).
  { destruct Hadv as (k & _ & ->). reflexivity. }
  unfold bind, get, upd, ret. intros [= <- <-].
  change (Reader.offset r + List.length (firstn e2 (Reader.rest r)))
    with (Reader.offset r1).
  rewrite (rest_substring r1 (List.length (matched tm)) Hw1) by lia.
  rewrite Hbol in Hfirst. cbn [skipn] in Hfirst. rewrite <- Hfirst.
  fold (stopAt (Reader.match_
                  (endOfSubtreeRe (List.length (firstn e1 (Reader.rest r)))) r5) r5).
  rewrite Hlev.
  pose proof (stopAt_bounds (endOfSubtreeRe e1) r5 Hw5) as Hce.
  assert (Hend : Reader.endOffset r5 = Reader.endOffset r).
  { destruct Hsw as (_ & _ & He & _). exact He. }
  exists e1, (matched tm), title, (Reader.offset r5),
    (stopAt (Reader.match_ (endOfSubtreeRe e1) r5) r5).
  split; [reflexivity|].
  split; [lia|].
  split.
  { unfold Reader.peek. rewrite (repeat_eq _ _ Hstars) at 1. now rewrite Hlev. }
  split; [exact Hraw|].
  split; [lia|].
  split; [now rewrite <- Hr5|].
  split; [lia|].
  split; [lia|].
  now apply sameWindow_resetOffset_eq.
Qed.

(** X10.  A headline.  When [parseHeadline] returns on a Reader whose
    cursor is inside its window, the headline has no children yet; its level
    is at least one and the first [level] characters at the cursor are
    asterisks; its rawValue holds no line terminator; its contents begin
    after the asterisks, one more character at least and the rawValue; they
    end where the pattern for a heading of that level or less next matches,
    or at the end of the window; the cursor is left at the end of the
    contents. *)
Theorem parseHeadline_range (fuel : nat) (r r' : Reader.t) (n : node) :
  inWindow r ->
  parseHeadline U fuel r = Ok (n, r') ->
  exists level raw title cb ce,
    n = Headline level raw title cb ce []
    /\ 1 <= level
    /\ Reader.peek level r = repeat "*"%char level
    /\ Forall (fun c => isLineTerminator c = false) raw
    /\ Reader.offset r + level + 1 + List.length raw <= cb
    /\ ce = stopAt (Reader.match_ (endOfSubtreeRe level) (Reader.resetOffset cb r))
                   (Reader.resetOffset cb r)
    /\ cb <= ce /\ ce <= Reader.endOffset r
    /\ r' = Reader.resetOffset ce r.
Proof. exact (parseHeadline_spec fuel r r' n). Qed.

End WithUtils.


(** A headline of level 2 with one line of contents, followed by a headline
    of level 1. *)
Lemma parseHeadline_range_witness :
  let r := Reader.new (txt "** Hi" ++ [nl] ++ txt "text" ++ [nl] ++ txt "* Next") in
  exists level raw title cb ce,
    Headline 2 (txt "Hi") [Text (txt "Hi")] 6 11 []
    = Headline level raw title cb ce []
    /\ 1 <= level
    /\ Reader.peek level r = repeat "*"%char level
    /\ Forall (fun c => isLineTerminator c = false) raw
    /\ Reader.offset r + level + 1 + List.length raw <= cb
    /\ ce = stopAt (Reader.match_ (endOfSubtreeRe level) (Reader.resetOffset cb r))
                   (Reader.resetOffset cb r)
    /\ cb <= ce /\ ce <= Reader.endOffset r
    /\ Reader.resetOffset 11 r = Reader.resetOffset ce r.
Proof.
  intros r. apply (parseHeadline_range SpecUtils.utils 4 r).
  - split; cbn; lia.
  - vm_compute. reflexivity.
Defined.

End HeadlineFacts.

(* ================================================================== *)
(** ** The descriptors of the list structure scanner *)

Module ScannerRangeFacts.
Import Js Ast Parser Positions Notions WindowNotions ReaderFacts ListFacts.
Import ScannerFacts WindowFacts LineFacts ObjectRangeFacts HeadlineFacts.

(** An item that is still open, and one that has been closed, when the
    scan that began at [o0] has reached [o]. *)
Definition opened (o0 o : nat) (x : ListStructureItem) : Prop :=
  o0 <= begin x /\ begin x < o.

Definition closed (o0 o : nat) (x : ListStructureItem) : Prop :=
  o0 <= begin x /\ begin x < end_ x /\ end_ x <= o.

Definition scanning (o0 o : nat) (items struct : list ListStructureItem) : Prop :=
  o0 <= o
  /\ Forall (opened o0 o) items
  /\ Forall (closed o0 o) struct
  /\ NoDup (map begin (items ++ struct)).

Lemma scanning_weaken o0 o o' items struct :
  scanning o0 o items struct -> o <= o' -> scanning o0 o' items struct.
Proof.
  intros (H0 & Hi & Hs & Hn) Hle. repeat split; [lia| | |exact Hn].
  - eapply Forall_impl; [|exact Hi]. intros x [? ?]. split; lia.
  - eapply Forall_impl; [|exact Hs]. intros x (? & ? & ?). repeat split; lia.
Qed.

Lemma endPreviousSiblings_scanning o0 o indent : forall items struct items1 struct1,
  scanning o0 o items struct ->
  endPreviousSiblings indent o items struct = (items1, struct1) ->
  scanning o0 o items1 struct1
  /\ Permutation (map begin (items1 ++ struct1)) (map begin (items ++ struct))
  /\ List.length items1 + List.length struct1
     = List.length items + List.length struct.
Proof.
  induction items as [|item items IH]; intros struct items1 struct1 Hinv; cbn.
  - intros [= <- <-]. repeat split; auto. apply Hinv. apply Hinv. apply Hinv.
  - destruct (indent <=? Ast.indent item)%nat.
    + intros H. apply IH in H.
      * destruct H as (Hinv1 & Hp & Hl). split; [exact Hinv1|]. split.
        -- rewrite Hp. rewrite !map_app. cbn.
           rewrite app_assoc. symmetry. apply Permutation_cons_append.
        -- rewrite Hl, length_app. cbn. lia.
      * destruct Hinv as (H0 & Hi & Hs & Hn). inversion Hi as [|? ? [Hb1 Hb2] Hi']; subst.
        repeat split; [exact H0 | exact Hi' | |].
        -- apply Forall_app. split; [exact Hs|]. constructor; [|constructor].
           unfold closed. cbn. lia.
        -- eapply Permutation_NoDup; [|exact Hn].
           rewrite !map_app. cbn. rewrite app_assoc.
           apply Permutation_cons_append.
    + intros [= <- <-]. repeat split; auto; apply Hinv.
Qed.

Lemma rest_nonempty r : inWindow r -> Reader.eof r = false -> Reader.rest r <> [].
Proof.
  intros Hw Heof Hnil. apply (f_equal (@List.length _)) in Hnil.
  rewrite (rest_length _ Hw) in Hnil. cbn in Hnil.
  unfold Reader.eof, Reader.endOffset in Heof. apply Nat.eqb_neq in Heof.
  destruct Hw. lia.
Qed.

Lemma advances_line r :
  advances r (Reader.advanceText (Reader.line r) r).
Proof. eexists. split; [apply line_length | reflexivity]. Qed.

Lemma line_offset r :
  inWindow r -> Reader.eof r = false ->
  Reader.offset r < Reader.offset (Reader.advanceText (Reader.line r) r).
Proof.
  intros Hw Heof. pose proof (rest_nonempty _ Hw Heof) as Hne.
  pose proof (throughNewline_length _ Hne). unfold Reader.line. cbn. lia.
Qed.

Section WithUtils.
Variable U : Utils.

Lemma parseListStructureLoop_scanning o0 fuel :
  forall items struct r items' struct' r0,
    inWindow r ->
    scanning o0 (Reader.offset r) items struct ->
    parseListStructureLoop U fuel items struct r = Ok ((items', struct'), r0) ->
    scanning o0 (Reader.offset r0) items' struct'
    /\ (forall b, In b (map begin (items ++ struct)) ->
                  In b (map begin (items' ++ struct')))
    /\ List.length items' + List.length struct' + 1
       <= List.length items + List.length struct + fuel
    /\ advances r r0.
Proof.
  induction fuel as [|fuel IH]; intros items struct r items' struct' r0 Hw Hinv;
    [discriminate|].
  cbn [parseListStructureLoop]. unfold bind, get, upd, ret, throw.
  destruct (Reader.eof r) eqn:Heof; cbn [orb].
  { intros [= <- <- <-]. repeat split; auto; try apply Hinv; try lia.
    apply advances_refl. }
  destruct (match Reader.match_ (listEndRe U) r with
            | Some m => (index m =? 0)%nat
            | None => false
            end).
  { intros [= <- <- <-]. repeat split; auto; try apply Hinv; try lia.
    apply advances_refl. }
  pose proof (line_offset _ Hw Heof) as Hline.
  pose proof (advances_line r) as Hadv.
  pose proof (inWindow_advances _ _ Hw Hadv) as Hw'.
  destruct (Reader.match_ (itemRe U) r) as [m|].
  - destruct (group "indent" m) as [ind|]; [|discriminate].
    destruct (endPreviousSiblings _ _ _ _) as [items1 struct1] eqn:Hend.
    apply (endPreviousSiblings_scanning o0) in Hend; [|exact Hinv].
    destruct Hend as (Hinv1 & Hp & Hl).
    destruct (Reader.match_ (fullItemRe U) r) as [fm|]; [|discriminate].
    intros H. apply IH in H; [|exact Hw'|].
    + destruct H as (Hinv' & Hin & Hlen & Hadv').
      split; [exact Hinv'|]. split; [|split].
      * intros b Hb. apply Hin. cbn. right.
        eapply Permutation_in; [symmetry; exact Hp | exact Hb].
      * cbn in Hlen. lia.
      * eapply advances_trans; [exact Hadv | exact Hadv'].
    + apply scanning_weaken with (o' := Reader.offset (Reader.advanceText (Reader.line r) r))
        in Hinv1; [|lia].
      destruct Hinv1 as (H0 & Hi & Hs & Hn).
      destruct Hinv as (H0' & Hi0 & Hs0 & _).
      repeat split; [exact H0| |exact Hs|].
      * constructor; [|exact Hi]. unfold opened. cbn [begin]. lia.
      * cbn. constructor; [|exact Hn]. intros Hb.
        eapply Permutation_in in Hb; [|exact Hp].
        rewrite map_app in Hb. apply in_app_or in Hb. destruct Hb as [Hb|Hb].
        -- apply in_map_iff in Hb. destruct Hb as (x & Hx & Hxin).
           rewrite Forall_forall in Hi0. destruct (Hi0 _ Hxin). lia.
        -- apply in_map_iff in Hb. destruct Hb as (x & Hx & Hxin).
           rewrite Forall_forall in Hs0. destruct (Hs0 _ Hxin) as (? & ? & ?). lia.
  - destruct (isSome (Reader.match_ emptyLineRe r)).
    + intros H. apply IH in H; [|exact Hw'|].
      * destruct H as (Hinv' & Hin & Hlen & Hadv').
        split; [exact Hinv'|]. split; [exact Hin|]. split; [lia|].
        eapply advances_trans; [exact Hadv | exact Hadv'].
      * eapply scanning_weaken; [exact Hinv | lia].
    + destruct (Reader.match_ indentRe r) as [im|]; [|discriminate].
      destruct (endPreviousSiblings _ _ _ _) as [items1 struct1] eqn:Hend.
      apply (endPreviousSiblings_scanning o0) in Hend; [|exact Hinv].
      destruct Hend as (Hinv1 & Hp & Hl).
      destruct items1 as [|i items1].
      * intros [= <- <- <-]. split; [exact Hinv1|]. split; [|split].
        -- intros b Hb. eapply Permutation_in; [symmetry; exact Hp | exact Hb].
        -- cbn in *. lia.
        -- apply advances_refl.
      * intros H. apply IH in H; [|exact Hw'|].
        -- destruct H as (Hinv' & Hin & Hlen & Hadv').
           split; [exact Hinv'|]. split; [|split].
           ++ intros b Hb. apply Hin.
              eapply Permutation_in; [symmetry; exact Hp | exact Hb].
           ++ cbn in *. lia.
           ++ eapply advances_trans; [exact Hadv | exact Hadv'].
        -- eapply scanning_weaken; [exact Hinv1 | lia].
Qed.

End WithUtils.

(** *** The sort *)

Lemma insertByBegin_perm x l : Permutation (insertByBegin x l) (x :: l).
Proof.
  induction l as [|y l IH]; cbn [insertByBegin]; [reflexivity|].
  destruct (begin x <? begin y)%nat; [reflexivity|].
  rewrite IH. apply perm_swap.
Qed.

Lemma fold_insert_perm l : forall acc,
  Permutation (fold_left (fun acc x => insertByBegin x acc) l acc) (acc ++ l).
Proof.
  induction l as [|x l IH]; intros acc; cbn [fold_left]; [now rewrite app_nil_r|].
  rewrite IH, insertByBegin_perm. cbn [app]. apply Permutation_middle.
Qed.

Lemma sortByBegin_perm l : Permutation (sortByBegin l) l.
Proof. unfold sortByBegin. now rewrite fold_insert_perm. Qed.

Lemma increasing_cons a l :
  increasing (a :: l) = true <->
  (match l with [] => True | b :: _ => a < b end) /\ increasing l = true.
Proof.
  destruct l as [|b l]; cbn [increasing].
  - tauto.
  - rewrite andb_true_iff, Nat.ltb_lt. tauto.
Qed.

Lemma insertByBegin_increasing x l :
  increasing (map begin l) = true ->
  ~ In (begin x) (map begin l) ->
  increasing (map begin (insertByBegin x l)) = true.
Proof.
  induction l as [|y l IH]; intros Hinc Hnin; [reflexivity|].
  cbn [insertByBegin]. destruct (begin x <? begin y)%nat eqn:Hlt.
  - cbn [map]. apply increasing_cons. split; [|exact Hinc].
    now apply Nat.ltb_lt.
  - apply Nat.ltb_ge in Hlt. cbn [map] in *.
    apply increasing_cons in Hinc. destruct Hinc as [Hhd Hinc].
    assert (Hne : begin y <> begin x) by (intros Heq; apply Hnin; now left).
    apply increasing_cons. split.
    + destruct l as [|z l]; cbn [insertByBegin map]; [lia|].
      destruct (begin x <? begin z)%nat; cbn [map]; [lia | exact Hhd].
    + apply IH; [exact Hinc|]. intros Hin. apply Hnin. now right.
Qed.

Lemma fold_insert_increasing l : forall acc,
  increasing (map begin acc) = true ->
  NoDup (map begin (acc ++ l)) ->
  increasing (map begin (fold_left (fun acc x => insertByBegin x acc) l acc)) = true.
Proof.
  induction l as [|x l IH]; intros acc Hinc Hnd; cbn [fold_left]; [exact Hinc|].
  assert (Hp : Permutation (map begin (acc ++ x :: l))
                           (begin x :: map begin (acc ++ l))).
  { change (begin x :: map begin (acc ++ l)) with (map begin (x :: acc ++ l)).
    apply (Permutation_map begin). symmetry. apply Permutation_middle. }
  pose proof (Permutation_NoDup Hp Hnd) as Hnd'. inversion Hnd' as [|? ? Hnin Hnd'']; subst.
  apply IH.
  - apply insertByBegin_increasing; [exact Hinc|].
    intros Hin. apply Hnin. rewrite map_app. apply in_or_app. now left.
  - eapply Permutation_NoDup; [|exact Hnd'].
    change (begin x :: map begin (acc ++ l)) with (map begin ((x :: acc) ++ l)).
    apply (Permutation_map begin). symmetry.
    apply Permutation_app_tail, insertByBegin_perm.
Qed.

Lemma sortByBegin_increasing l :
  NoDup (map begin l) -> increasing (map begin (sortByBegin l)) = true.
Proof. intros H. now apply fold_insert_increasing. Qed.

(** *** The walk of parseList, with a bound on its fuel *)

Lemma parseListLoop_total structure indent :
  Forall (fun x => begin x < end_ x) structure ->
  forall fuel pos,
    List.length (filter (fun x => (pos <=? begin x)%nat) structure) < fuel ->
    exists final,
      parseListLoop fuel structure indent pos = Some final
      /\ pos <= final
      /\ (final = pos \/ exists x, In x structure /\ final = end_ x).
Proof.
  intros Hwf. induction fuel as [|fuel IH]; intros pos Hf; [lia|].
  cbn [parseListLoop]. fold (hopb indent pos).
  destruct (find (hopb indent pos) structure) as [next|] eqn:Hfind.
  - pose proof (find_some _ _ Hfind) as [Hin Hhop].
    apply hopb_spec in Hhop. destruct Hhop as [Hb _].
    rewrite Forall_forall in Hwf. pose proof (Hwf _ Hin) as Hlt.
    destruct (IH (end_ next)) as (final & Hloop & Hle & Hfin).
    + eapply Nat.lt_le_trans; [|apply Nat.lt_succ_r; exact Hf].
      apply (filter_length_lt _ _ _ next); auto.
      * intros x Hx. apply Nat.leb_le in Hx. apply Nat.leb_le. lia.
      * apply Nat.leb_le. lia.
      * apply Nat.leb_gt. lia.
    + exists final. split; [exact Hloop|]. split; [lia|].
      destruct Hfin as [-> | Hfin]; [right; eauto | right; exact Hfin].
  - exists pos. auto.
Qed.

Section WithUtils.
Variable U : Utils.

Lemma parseListStructure_scanned fuel r s r1 :
  inWindow r ->
  parseListStructure U fuel r = Ok (s, r1) ->
  exists items struct r0,
    parseListStructureLoop U fuel [] [] r = Ok ((items, struct), r0)
    /\ Permutation s (struct ++ rev (map (setEnd (Reader.offset r1)) items))
    /\ Forall (closed (Reader.offset r) (Reader.offset r1)) s
    /\ increasing (map begin s) = true
    /\ List.length s < fuel
    /\ advances r r1.
Proof.
  intros Hw Hscan. unfold parseListStructure in Hscan. unfold bind at 1 in Hscan.
  destruct (parseListStructureLoop U fuel [] [] r)
    as [[[items struct] r0]|] eqn:Hl; [|discriminate].
  cbv beta iota in Hscan. unfold bind at 1 in Hscan.
  destruct (parseEmptyLines fuel r0) as [[x r0']|] eqn:He; [|discriminate].
  unfold bind, get, ret in Hscan. injection Hscan as <- <-.
  exists items, struct, r0. split; [reflexivity|].
  apply (parseListStructureLoop_scanning U (Reader.offset r)) in Hl;
    [|exact Hw|repeat split; auto; constructor].
  destruct Hl as ((H0 & Hi & Hs & Hn) & _ & Hlen & Hadv0).
  apply parseMulti_advances in He.
  pose proof (advances_offset _ _ He) as Hoff.
  set (e := Reader.offset r0') in *.
  set (l := struct ++ rev (map (setEnd e) items)).
  assert (Hcl : Forall (closed (Reader.offset r) e) l).
  { apply Forall_app. split.
    - eapply Forall_impl; [|exact Hs]. intros y (? & ? & ?). repeat split; lia.
    - apply Forall_rev, Forall_map.
      eapply Forall_impl; [|exact Hi]. intros y [? ?]. unfold closed. cbn. lia. }
  assert (Hbeg : Permutation (map begin l) (map begin (items ++ struct))).
  { unfold l. rewrite !map_app, map_rev, map_map. cbn.
    rewrite <- Permutation_rev. apply Permutation_app_comm. }
  pose proof (sortByBegin_perm l) as Hp.
  split; [exact Hp|]. split; [|split; [|split]].
  - eapply Permutation_Forall; [symmetry; exact Hp | exact Hcl].
  - apply sortByBegin_increasing. eapply Permutation_NoDup; [symmetry; exact Hbeg|exact Hn].
  - rewrite (Permutation_length Hp). unfold l.
    rewrite length_app, length_rev, length_map. cbn in Hlen. lia.
  - eapply advances_trans; [exact Hadv0 | exact He].
Qed.

(** X11.  The descriptors of the scanner.  Entered with the cursor inside
    the window, [parseListStructure] returns descriptors that lie in the
    text it has scanned, each ending after it begins, in strictly increasing
    order of [begin]; the scan stays inside the window. *)
Theorem parseListStructure_descriptors (fuel : nat) (r r1 : Reader.t)
    (s : list ListStructureItem) :
  inWindow r ->
  parseListStructure U fuel r = Ok (s, r1) ->
  Forall (fun x => Reader.offset r <= begin x
                   /\ begin x < end_ x
                   /\ end_ x <= Reader.offset r1) s
  /\ increasing (map begin s) = true
  /\ Reader.offset r1 <= Reader.endOffset r.
Proof.
  intros Hw Hscan.
  destruct (parseListStructure_scanned _ _ _ _ Hw Hscan)
    as (items & struct & r0 & _ & _ & Hcl & Hinc & _ & Hadv).
  split; [exact Hcl|]. split; [exact Hinc|].
  pose proof (inWindow_advances _ _ Hw Hadv) as [Ho _].
  destruct Hadv as (k & _ & ->). exact Ho.
Qed.

(** X12.  The scanner and [parseList] together.  Outside the modes 'item',
    'section' and 'first-section', with the cursor inside the window, not at
    a heading nor at the end of a list, at a line that the item pattern
    matches: whenever the scanner returns, [parseElement] returns a
    plain-list node that begins at the cursor and ends after it, inside the
    text that was scanned, and leaves the cursor at that end.  [parseList]
    always finds its first item and its walk always stops. *)
Theorem parseElement_scanned_list (fuel : nat) (mode : ParseMode)
    (r r1 : Reader.t) (s : list ListStructureItem) :
  inWindow r ->
  ParseMode_eqb mode ItemMode = false ->
  ParseMode_eqb mode SectionMode = false ->
  ParseMode_eqb mode FirstSection = false ->
  atHeading r = false ->
  isSome (Reader.match_ (itemRe U) r) = true ->
  Reader.eof r = false ->
  atListEnd U r = false ->
  parseListStructure U fuel r = Ok (s, r1) ->
  exists indent e,
    parseElement U fuel mode None r
    = Ok (PlainList indent (Reader.offset r) e s [], Reader.resetOffset e r)
    /\ Reader.offset r < e
    /\ e <= Reader.offset r1
    /\ Reader.offset r1 <= Reader.endOffset r.
Proof.
  intros Hw Hm1 Hm2 Hm3 Hh Hitem Heof Hend Hscan.
  destruct (parseListStructure_scanned _ _ _ _ Hw Hscan)
    as (items & struct & r0 & Hloop & Hperm & Hcl & _ & Hlen & Hadv).
  assert (Hfirst : exists x, In x s /\ begin x = Reader.offset r).
  { destruct fuel as [|fuel']; [discriminate|].
    revert Hloop. cbn [parseListStructureLoop]. unfold bind, get, upd, ret, throw.
    fold (atListEnd U r). rewrite Heof, Hend. cbn [orb].
    destruct (Reader.match_ (itemRe U) r) as [m|]; [|discriminate].
    destruct (group "indent" m) as [ind|]; [|discriminate].
    cbn [endPreviousSiblings].
    destruct (Reader.match_ (fullItemRe U) r) as [fm|]; [|discriminate].
    intros H.
    apply (parseListStructureLoop_scanning U (Reader.offset r)) in H.
    - destruct H as (_ & Hin & _).
      specialize (Hin (Reader.offset r) ltac:(now left)).
      assert (Hin' : In (Reader.offset r) (map begin s)).
      { eapply Permutation_in;
          [symmetry; apply (Permutation_map begin); exact Hperm|].
        rewrite map_app, map_rev, map_map. cbn.
        rewrite map_app in Hin. apply in_app_or in Hin. apply in_or_app.
        destruct Hin as [Hin|Hin]; [right|left; exact Hin].
        now apply -> in_rev. }
      apply in_map_iff in Hin'. destruct Hin' as (x & Hx & Hxin). eauto.
    - apply (inWindow_advances r); [exact Hw | apply advances_line].
    - pose proof (line_offset _ Hw Heof) as Hline.
      repeat split; [lia| |constructor|].
      + constructor; [|constructor]. unfold opened. cbn [begin]. lia.
      + cbn. constructor; [intros []|constructor]. }
  pose proof (parseListStructure_forward U _ _ _ _ Hscan) as Hf.
  unfold parseElement. rewrite Hm1, Hm2, Hm3.
  unfold bind at 1. unfold get at 1. rewrite Hh.
  unfold bind at 1. unfold get at 1. rewrite Hitem.
  unfold bind at 1. unfold bind at 1. unfold get at 1.
  unfold bind at 1. rewrite Hscan.
  unfold bind at 1. unfold upd at 1. unfold ret at 1.
  rewrite (movedForward_reset _ _ Hf).
  unfold parseList, bind, get, upd, ret, throw.
  destruct (find (fun x => (begin x =? Reader.offset r)%nat) s) as [item|] eqn:Hfind.
  2:{ destruct Hfirst as (x & Hxin & Hx).
      apply (find_none _ _ Hfind) in Hxin. apply Nat.eqb_neq in Hxin. contradiction. }
  pose proof (find_some _ _ Hfind) as [Hin Hb]. apply Nat.eqb_eq in Hb.
  assert (Hwf : Forall (fun x => begin x < end_ x) s).
  { eapply Forall_impl; [|exact Hcl]. intros y (_ & ? & _). assumption. }
  destruct (parseListLoop_total s (Ast.indent item) Hwf fuel (end_ item))
    as (final & Hloop' & Hle & Hfin).
  { eapply Nat.le_lt_trans; [apply List.filter_length_le|]. exact Hlen. }
  rewrite Hloop'. exists (Ast.indent item), final.
  split; [reflexivity|].
  rewrite Forall_forall in Hcl. pose proof (Hcl _ Hin) as (_ & Hlt & Hce).
  split; [lia|]. split.
  - destruct Hfin as [-> | (x & Hxin & ->)]; [exact Hce|].
    now destruct (Hcl _ Hxin) as (_ & _ & ?).
  - pose proof (inWindow_advances _ _ Hw Hadv) as [Ho _].
    destruct Hadv as (k & _ & ->). exact Ho.
Qed.

End WithUtils.

(** The scan of a list of two items, the second nested in the first. *)
Lemma parseListStructure_descriptors_witness :
  let r := Reader.new (txt "- a" ++ [nl] ++ txt "  - b" ++ [nl]) in
  let s := [mkItem 0 0 (Some (txt "-")) None None None 10;
            mkItem 4 2 (Some (txt "-")) None None None 10] in
  Forall (fun x => Reader.offset r <= begin x
                   /\ begin x < end_ x
                   /\ end_ x <= Reader.offset (Reader.advance 10 r)) s
  /\ increasing (map begin s) = true
  /\ Reader.offset (Reader.advance 10 r) <= Reader.endOffset r.
Proof.
  intros r s.
  apply (parseListStructure_descriptors SpecUtils.utils 4 r (Reader.advance 10 r) s).
  - split; cbn; lia.
  - vm_compute. reflexivity.
Defined.

(** The list of two items, parsed as an element of a section. *)
Lemma parseElement_scanned_list_witness :
  let r := Reader.new (txt "- hi" ++ [nl] ++ txt "- there") in
  let s := [mkItem 0 0 (Some (txt "-")) None None None 5;
            mkItem 5 0 (Some (txt "-")) None None None 12] in
  exists indent e,
    parseElement SpecUtils.utils 4 Planning None r
    = Ok (PlainList indent (Reader.offset r) e s [], Reader.resetOffset e r)
    /\ Reader.offset r < e
    /\ e <= Reader.offset (Reader.advance 12 r)
    /\ Reader.offset (Reader.advance 12 r) <= Reader.endOffset r.
Proof.
  intros r s.
  apply (parseElement_scanned_list SpecUtils.utils 4 Planning r (Reader.advance 12 r) s);
    try reflexivity.
  split; cbn; lia.
Defined.

End ScannerRangeFacts.

(* ================================================================== *)
(** ** removeCommonIndent and intersperse *)

Module OrgToHastFacts.
Import Js OrgToHast WindowNotions.

Lemma Forall_map_fwd {A B} (f : A -> B) (P : B -> Prop) l :
  Forall P (map f l) -> Forall (fun x => P (f x)) l.
Proof. apply Forall_map. Qed.

Lemma Forall_map_bwd {A B} (f : A -> B) (P : B -> Prop) l :
  Forall (fun x => P (f x)) l -> Forall P (map f l).
Proof. apply Forall_map. Qed.

(** The index of the first character of [l] with [p]. *)
Fixpoint firstIndex (p : ascii -> bool) (l : text) : option nat :=
  match l with
  | [] => None
  | c :: l' => if p c then Some 0 else option_map S (firstIndex p l')
  end.

Lemma execFrom_S re input n i :
  execFrom re input (S n) i
  = match matcher input (multiline re) (source re) (MState i []) Some with
    | Some y => Some (toMatch input i y)
    | None => execFrom re input n (S i)
    end.
Proof. reflexivity. Qed.

Lemma execFrom_Chr p flag : forall suf pre,
  option_map index
    (execFrom (mkRegExp (Chr p) flag) (pre ++ suf) (S (List.length suf))
       (List.length pre))
  = option_map (Nat.add (List.length pre)) (firstIndex p suf).
Proof.
  induction suf as [|c suf IH]; intros pre; rewrite execFrom_S;
    cbn [source multiline matcher endIndex].
  - rewrite app_nil_r.
    replace (nth_error pre (List.length pre)) with (@None ascii)
      by (symmetry; apply nth_error_None; lia).
    reflexivity.
  - rewrite nth_error_app2, Nat.sub_diag by lia. cbn [nth_error firstIndex].
    destruct (p c).
    + cbn. f_equal. lia.
    + specialize (IH (pre ++ [c])).
      rewrite <- app_assoc, length_app in IH. cbn [List.length app] in IH.
      rewrite Nat.add_1_r in IH. cbn [List.length]. rewrite IH.
      destruct (firstIndex p suf); cbn; [f_equal; lia | reflexivity].
Qed.

Lemma indexOfNonWhite_first l :
  indexOfNonWhite l = firstIndex (fun c => negb (isWhite c)) l.
Proof.
  unfold indexOfNonWhite, exec.
  pose proof (execFrom_Chr (fun c => negb (isWhite c)) false l []) as H.
  cbn [app List.length] in H.
  change (mkRegExp (Chr (fun c => negb (isWhite c))) false) with nonWhiteRe in H.
  destruct (execFrom nonWhiteRe l _ 0); cbn in H;
    destruct (firstIndex _ l); cbn in H; congruence.
Qed.

Lemma firstIndex_skipn p n : forall l,
  firstIndex p (skipn n l)
  = match firstIndex p l with
    | Some k => if (n <=? k)%nat then Some (k - n) else firstIndex p (skipn n l)
    | None => None
    end.
Proof.
  induction n as [|n IH]; intros l.
  - cbn. destruct (firstIndex p l); [now rewrite Nat.sub_0_r | reflexivity].
  - destruct l as [|c l]; [reflexivity|]. cbn [skipn firstIndex].
    destruct (p c); [reflexivity|]. rewrite IH.
    destruct (firstIndex p l) as [k|]; [|reflexivity]. cbn [option_map].
    change (S n <=? S k)%nat with (n <=? k)%nat.
    destruct (n <=? k)%nat; [reflexivity|]. now rewrite IH at 1.
Qed.

Lemma firstIndex_prefix p n : forall l,
  match firstIndex p l with
  | Some k => n <= k
  | None => True
  end ->
  Forall (fun c => p c = false) (firstn n l).
Proof.
  induction n as [|n IH]; intros l H; [constructor|].
  destruct l as [|c l]; [constructor|]. cbn [firstn firstIndex] in *.
  destruct (p c) eqn:Hc; [lia|].
  constructor; [exact Hc|]. apply IH.
  destruct (firstIndex p l); cbn in H; [lia | exact I].
Qed.

Lemma firstIndex_head p l :
  firstIndex p l = Some 0 -> exists c tl, l = c :: tl /\ p c = true.
Proof.
  destruct l as [|c l]; [discriminate|]. cbn.
  destruct (p c) eqn:Hc; [eauto|]. destruct (firstIndex p l); discriminate.
Qed.

Lemma firstIndex_none p l :
  firstIndex p l = None <-> Forall (fun c => p c = false) l.
Proof.
  induction l as [|c l IH]; cbn; [split; auto|].
  destruct (p c) eqn:Hc.
  - split; [discriminate|]. intros H. inversion H; congruence.
  - destruct (firstIndex p l); cbn.
    + split; [discriminate|]. intros H. inversion H; subst.
      now apply IH in H3.
    + split; [|reflexivity]. intros _. constructor; [exact Hc | now apply IH].
Qed.

(** *** The least of the indents *)

Definition atLeast (n : nat) (x : option nat) : Prop :=
  match x with
  | Some k => n <= k
  | None => True
  end.

Lemma mathMin_cons x xs : mathMin (x :: xs) = min2 x (mathMin xs).
Proof. reflexivity. Qed.

Lemma mathMin_none xs : mathMin xs = None <-> Forall (fun x => x = None) xs.
Proof.
  induction xs as [|x xs IH]; [split; auto|]. rewrite mathMin_cons.
  destruct x as [k|]; cbn [min2].
  - split; [destruct (mathMin xs); discriminate|].
    intros H. inversion H. discriminate.
  - rewrite IH. split; [now constructor|]. intros H. now inversion H.
Qed.

Lemma mathMin_some xs n :
  mathMin xs = Some n -> In (Some n) xs /\ Forall (atLeast n) xs.
Proof.
  revert n. induction xs as [|x xs IH]; intros n; [discriminate|].
  rewrite mathMin_cons. destruct x as [k|]; cbn [min2].
  - destruct (mathMin xs) as [m|] eqn:Hm.
    + intros [= <-]. destruct (IH m eq_refl) as [Hin Hall].
      split.
      * destruct (Nat.min_spec k m) as [[_ ->] | [_ ->]]; [now left | now right].
      * constructor; [cbn; lia|].
        eapply Forall_impl; [|exact Hall]. intros [j|]; cbn; lia.
    + intros [= <-]. split; [now left|]. constructor; [cbn; lia|].
      apply mathMin_none in Hm. eapply Forall_impl; [|exact Hm].
      now intros x ->.
  - intros H. destruct (IH n H) as [Hin Hall]. split; [now right|].
    constructor; [exact I | exact Hall].
Qed.

Lemma mathMin_zero xs : In (Some 0) xs -> mathMin xs = Some 0.
Proof.
  induction xs as [|x xs IH]; [contradiction|]. rewrite mathMin_cons.
  intros [-> | Hin].
  - cbn [min2]. destruct (mathMin xs); reflexivity.
  - rewrite (IH Hin). destruct x as [k|]; cbn [min2]; [f_equal; lia | reflexivity].
Qed.

(** *** Lines *)

Definition noNewline (l : text) : Prop := Forall (fun c => Ascii.eqb c nl = false) l.

Lemma split_cons s : exists l ls, split s = l :: ls.
Proof.
  induction s as [|c s (l & ls & IH)]; cbn; [eauto|].
  destruct (Ascii.eqb c nl); [eauto|]. rewrite IH. eauto.
Qed.

Lemma split_noNewline s : Forall noNewline (split s).
Proof.
  induction s as [|c s IH]; cbn.
  - repeat constructor.
  - destruct (Ascii.eqb c nl) eqn:Hc.
    + constructor; [constructor | exact IH].
    + destruct (split s) as [|l ls]; [repeat constructor; exact Hc|].
      inversion IH; subst. constructor; [now constructor | assumption].
Qed.

Lemma join_cons sep (l l' : text) ls :
  join sep (l :: l' :: ls) = l ++ sep ++ join sep (l' :: ls).
Proof. reflexivity. Qed.

Lemma join_split s : join [nl] (split s) = s.
Proof.
  induction s as [|c s IH]; [reflexivity|]. cbn [split].
  destruct (split_cons s) as (l & ls & Hs).
  destruct (Ascii.eqb c nl) eqn:Hc.
  - apply Ascii.eqb_eq in Hc. rewrite Hc, Hs, join_cons, <- Hs, IH. reflexivity.
  - rewrite Hs in *. destruct ls as [|l' ls].
    + cbn [join] in *. now rewrite IH.
    + rewrite join_cons in *. rewrite <- IH. reflexivity.
Qed.

Lemma split_join l ls :
  Forall noNewline (l :: ls) -> split (join [nl] (l :: ls)) = l :: ls.
Proof.
  revert l. induction ls as [|l' ls IH]; intros l H.
  - cbn [join]. inversion H as [|? ? Hl _]; subst. clear H.
    induction Hl as [|c l Hc _ IHl]; [reflexivity|].
    cbn [split]. now rewrite Hc, IHl.
  - inversion H as [|? ? Hl Hls]; subst. specialize (IH l' Hls).
    change (join [nl] (l :: l' :: ls)) with (l ++ nl :: join [nl] (l' :: ls)).
    clear H. induction Hl as [|c l Hc _ IHl].
    + cbn [app split]. change (Ascii.eqb nl nl) with true. cbv iota.
      now rewrite IH.
    + cbn [app split]. now rewrite Hc, IHl.
Qed.

Lemma noNewline_skipn n l : noNewline l -> noNewline (skipn n l).
Proof. intros H. now apply ReaderFacts.Forall_firstn_skipn. Qed.

Lemma split_join_skipn n s :
  split (join [nl] (map (skipn n) (split s))) = map (skipn n) (split s).
Proof.
  pose proof (split_noNewline s) as Hn.
  destruct (split_cons s) as (l & ls & Hs). rewrite Hs in *.
  cbn [map]. apply split_join.
  change (Forall noNewline (map (skipn n) (l :: ls))).
  apply Forall_map_bwd. eapply Forall_impl; [|exact Hn].
  intros x. apply noNewline_skipn.
Qed.

(** The indent that [removeCommonIndent] removes. *)
Definition indentOf (s : text) : nat :=
  match mathMin (map indexOfNonWhite (split s)) with
  | None => 0
  | Some n => n
  end.

Lemma indentOf_atLeast s :
  Forall (fun l => atLeast (indentOf s) (indexOfNonWhite l)) (split s).
Proof.
  unfold indentOf. destruct (mathMin _) as [n|] eqn:Hm.
  - apply mathMin_some in Hm. destruct Hm as [_ Hall].
    apply Forall_map_fwd in Hall. exact Hall.
  - apply Forall_forall. intros l _. destruct (indexOfNonWhite l); cbn; lia.
Qed.

Lemma indexOfNonWhite_skipn n l :
  atLeast n (indexOfNonWhite l) ->
  indexOfNonWhite (skipn n l) = option_map (fun k => k - n) (indexOfNonWhite l).
Proof.
  rewrite !indexOfNonWhite_first, firstIndex_skipn.
  destruct (firstIndex _ l) as [k|]; cbn; [|reflexivity].
  intros H. apply Nat.leb_le in H. now rewrite H.
Qed.

Lemma indentOf_removed s : indentOf (removeCommonIndent s) = 0.
Proof.
  unfold indentOf at 1. unfold removeCommonIndent. fold (indentOf s).
  rewrite split_join_skipn, map_map.
  pose proof (indentOf_atLeast s) as Hall.
  destruct (mathMin (map indexOfNonWhite (split s))) as [n|] eqn:Hm.
  - assert (Hn : indentOf s = n) by (unfold indentOf; now rewrite Hm).
    apply mathMin_some in Hm. destruct Hm as [Hin _].
    apply in_map_iff in Hin. destruct Hin as (l & Hl & Hin).
    rewrite (mathMin_zero (map _ (split s))); [reflexivity|].
    apply in_map_iff. exists l. split; [|exact Hin].
    rewrite Forall_forall in Hall.
    rewrite (indexOfNonWhite_skipn _ _ (Hall _ Hin)), Hl, Hn. cbn.
    now rewrite Nat.sub_diag.
  - replace (mathMin (map _ (split s))) with (@None nat); [reflexivity|].
    symmetry. apply mathMin_none. apply mathMin_none in Hm.
    apply Forall_map_bwd. apply Forall_map_fwd in Hm.
    rewrite Forall_forall in Hm, Hall. apply Forall_forall. intros l Hl.
    rewrite (indexOfNonWhite_skipn _ _ (Hall _ Hl)), (Hm _ Hl). reflexivity.
Qed.

(** X13.  [removeCommonIndent] is idempotent. *)
Theorem removeCommonIndent_idempotent (s : text) :
  removeCommonIndent (removeCommonIndent s) = removeCommonIndent s.
Proof.
  assert (H : forall t, removeCommonIndent t
                        = join [nl] (map (skipn (indentOf t)) (split t)))
    by reflexivity.
  rewrite (H (removeCommonIndent s)), indentOf_removed.
  rewrite (map_ext _ (fun l => l)) by reflexivity.
  now rewrite map_id, join_split.
Qed.

(** X14.  What [removeCommonIndent] removes.  The result has the lines of
    [s], each without its first [n] characters, for one [n]; the characters
    removed are whitespace; and when some line of [s] is not all whitespace,
    some line of the result begins with a character that is not
    whitespace. *)
Theorem removeCommonIndent_lines (s : text) :
  exists n,
    split (removeCommonIndent s) = map (skipn n) (split s)
    /\ Forall (fun l => allWhite (firstn n l)) (split s)
    /\ (Exists (fun l => ~ allWhite l) (split s) ->
        Exists (fun l => exists c tl, l = c :: tl /\ isWhite c = false)
               (split (removeCommonIndent s))).
Proof.
  exists (indentOf s).
  assert (Hsplit : split (removeCommonIndent s)
                   = map (skipn (indentOf s)) (split s))
    by apply split_join_skipn.
  split; [exact Hsplit|]. split.
  - pose proof (indentOf_atLeast s) as Hall.
    eapply Forall_impl; [|exact Hall]. intros l Hl. cbv beta in Hl.
    rewrite indexOfNonWhite_first in Hl.
    apply (firstIndex_prefix _ (indentOf s)) in Hl.
    eapply Forall_impl; [|exact Hl]. intros c Hc. now apply negb_false_iff in Hc.
  - intros Hex. pose proof (indentOf_removed s) as H0. unfold indentOf in H0.
    destruct (mathMin (map indexOfNonWhite (split (removeCommonIndent s))))
      as [n|] eqn:Hm.
    + subst n. apply mathMin_some in Hm. destruct Hm as [Hin _].
      apply in_map_iff in Hin. destruct Hin as (l & Hl & Hin).
      apply Exists_exists. exists l. split; [exact Hin|].
      rewrite indexOfNonWhite_first in Hl. apply firstIndex_head in Hl.
      destruct Hl as (c & tl & -> & Hc). apply negb_true_iff in Hc. eauto.
    + exfalso. apply mathMin_none in Hm. apply Forall_map_fwd in Hm.
      rewrite Hsplit in Hm. apply Forall_map_fwd in Hm.
      apply Exists_exists in Hex. destruct Hex as (l & Hin & Hnw).
      rewrite Forall_forall in Hm. specialize (Hm _ Hin).
      pose proof (indentOf_atLeast s) as Hall. rewrite Forall_forall in Hall.
      rewrite (indexOfNonWhite_skipn _ _ (Hall _ Hin)) in Hm.
      destruct (indexOfNonWhite l) eqn:Hl; [discriminate|].
      rewrite indexOfNonWhite_first in Hl. apply firstIndex_none in Hl.
      apply Hnw. eapply Forall_impl; [|exact Hl].
      intros c Hc. now apply negb_false_iff in Hc.
Qed.

(** *** intersperse *)

(** X15.  [intersperse] puts [sep] between the items and nowhere else: no
    item gives nothing, and [x] followed by [xs] gives [x] followed by each
    item of [xs] with [sep] before it; [n] items give [2n - 1]
    elements. *)
Theorem intersperse_between {T : Type} (sep x : T) (xs : list T) :
  intersperse [] sep = []
  /\ intersperse (x :: xs) sep = x :: flat_map (fun e => [sep; e]) xs
  /\ List.length (intersperse (x :: xs) sep) = 2 * List.length (x :: xs) - 1.
Proof.
  split; [reflexivity|]. split; [reflexivity|].
  unfold intersperse. cbn [flat_map app skipn List.length].
  induction xs as [|y xs IH]; cbn [flat_map app List.length] in *; lia.
Qed.

End OrgToHastFacts.

(* ================================================================== *)
(** ** The scanner terminates *)

Module ScannerFuelFacts.
Import Js Ast Parser Notions WindowNotions ReaderFacts.
Import LineFacts ObjectRangeFacts HeadlineFacts ScannerRangeFacts.

Section WithUtils.
Variable U : Utils.

Lemma rest_advances r r' :
  advances r r' -> List.length (Reader.rest r') <= List.length (Reader.rest r).
Proof. intros (k & Hk & ->). rewrite rest_advance, length_skipn. lia. Qed.

Lemma rest_line r :
  inWindow r -> Reader.eof r = false ->
  List.length (Reader.rest (Reader.advanceText (Reader.line r) r))
  < List.length (Reader.rest r).
Proof.
  intros Hw Heof. pose proof (rest_nonempty _ Hw Heof) as Hne.
  pose proof (throughNewline_length _ Hne) as Hl.
  unfold Reader.advanceText, Reader.line. rewrite rest_advance, length_skipn. lia.
Qed.

Lemma parseListStructureLoop_fuel fuel : forall items struct r,
  inWindow r ->
  List.length (Reader.rest r) < fuel ->
  parseListStructureLoop U fuel items struct r <> Err OutOfFuel.
Proof.
  induction fuel as [|fuel IH]; intros items struct r Hw Hf; [lia|].
  cbn [parseListStructureLoop]. unfold bind, get, upd, ret, throw.
  destruct (Reader.eof r) eqn:Heof; cbn [orb]; [discriminate|].
  destruct (match Reader.match_ (listEndRe U) r with
            | Some m => (index m =? 0)%nat
            | None => false
            end); [discriminate|].
  pose proof (rest_line _ Hw Heof) as Hline.
  pose proof (inWindow_advances _ _ Hw (advances_line r)) as Hw'.
  destruct (Reader.match_ (itemRe U) r) as [m|].
  - destruct (group "indent" m) as [ind|]; [|discriminate].
    destruct (endPreviousSiblings _ _ _ _) as [items1 struct1].
    destruct (Reader.match_ (fullItemRe U) r) as [fm|]; [|discriminate].
    apply IH; [exact Hw' | lia].
  - destruct (isSome (Reader.match_ emptyLineRe r)).
    + apply IH; [exact Hw' | lia].
    + destruct (Reader.match_ indentRe r) as [im|]; [|discriminate].
      destruct (endPreviousSiblings _ _ _ _) as [[|i items1] struct1];
        [discriminate|].
      apply IH; [exact Hw' | lia].
Qed.

(** X16.  The scanner terminates: entered with the cursor inside the window
    and more fuel than the visible text has characters, the loops of
    [parseListStructure] have returned or thrown, and more fuel changes
    nothing. *)
Theorem parseListStructure_terminates (fuel fuel' : nat) (r : Reader.t) :
  inWindow r ->
  List.length (Reader.rest r) < fuel ->
  fuel <= fuel' ->
  parseListStructure U fuel r <> Err OutOfFuel
  /\ parseListStructure U fuel' r = parseListStructure U fuel r.
Proof.
  intros Hw Hf Hle.
  assert (H : parseListStructure U fuel r <> Err OutOfFuel).
  { unfold parseListStructure. unfold bind at 1.
    pose proof (parseListStructureLoop_fuel fuel [] [] r Hw Hf) as Hloop.
    destruct (parseListStructureLoop U fuel [] [] r)
      as [[[items struct] r0]|e] eqn:Hl; [|congruence].
    apply (parseListStructureLoop_scanning U (Reader.offset r)) in Hl;
      [|exact Hw|repeat split; auto; constructor].
    destruct Hl as (_ & _ & _ & Hadv). apply rest_advances in Hadv.
    cbv beta iota. unfold bind at 1.
    destruct (parseMulti_emptyLine fuel [] r0 ltac:(lia)) as (lines & Hel & _).
    unfold parseEmptyLines. rewrite Hel. discriminate. }
  split; [exact H|].
  induction Hle as [|n _ IH]; [reflexivity|].
  rewrite <- IH. apply FuelFacts.parseListStructure_le; [reflexivity|].
  now rewrite IH.
Qed.

End WithUtils.

(** The scan of a list item followed by a paragraph. *)
Lemma parseListStructure_terminates_witness :
  let r := Reader.new (txt "- a" ++ [nl] ++ txt "b") in
  parseListStructure SpecUtils.utils 6 r <> Err OutOfFuel
  /\ parseListStructure SpecUtils.utils 9 r = parseListStructure SpecUtils.utils 6 r.
Proof.
  intros r. apply (parseListStructure_terminates SpecUtils.utils 6 9 r).
  - split; cbn; lia.
  - cbn. lia.
  - lia.
Defined.

End ScannerFuelFacts.

(* ================================================================== *)
(** ** The ranges of sibling elements *)

Module RangeFacts.
Import Js Ast Parser Notions WindowNotions ReaderFacts ListFacts ObjectFacts.
Import ScannerFacts WindowFacts ElementFacts SectionFacts.
Import LineFacts DisciplineFacts ObjectRangeFacts HeadlineFacts ScannerRangeFacts.

Lemma nextMode_not_item mode type :
  ParseMode_eqb mode ItemMode = false ->
  ParseMode_eqb (nextMode mode type false) ItemMode = false.
Proof.
  unfold nextMode. destruct mode; cbn; intros H; try discriminate H;
    repeat match goal with
           | |- context [String.eqb ?a ?b] => destruct (String.eqb a b)
           end; reflexivity.
Qed.

Lemma laidOut_le lo hi l : laidOut lo hi l -> lo <= hi.
Proof.
  revert lo. induction l as [|n l IH]; intros lo; cbn; [trivial|].
  intros (cb & ce & _ & _ & H1 & H2 & H). apply IH in H. lia.
Qed.

Lemma laidOut_snoc lo mid hi l n cb ce :
  laidOut lo mid l ->
  Ast.contentsBegin n = Some cb -> Ast.contentsEnd n = Some ce ->
  mid <= cb -> cb <= ce -> ce <= hi ->
  laidOut lo hi (l ++ [n]).
Proof.
  intros Hl Hb He H1 H2 H3. revert lo Hl.
  induction l as [|x l IH]; intros lo Hl; cbn in *.
  - exists cb, ce. repeat split; auto; lia.
  - destruct Hl as (xb & xe & Hxb & Hxe & Hlo & Hle & Hl).
    exists xb, xe. repeat split; auto.
Qed.

Lemma laidOut_weaken lo hi hi' l : laidOut lo hi l -> hi <= hi' -> laidOut lo hi' l.
Proof.
  revert lo. induction l as [|n l IH]; intros lo; cbn; [lia|].
  intros (cb & ce & Hb & He & H1 & H2 & H) Hle.
  exists cb, ce. repeat split; auto.
Qed.

Lemma parseListLoop_bounds structure indent :
  Forall (fun x => begin x < end_ x) structure ->
  forall fuel pos final,
    parseListLoop fuel structure indent pos = Some final ->
    pos <= final /\ (final = pos \/ exists x, In x structure /\ final = end_ x).
Proof.
  intros Hwf. induction fuel as [|fuel IH]; intros pos final; [discriminate|].
  cbn [parseListLoop]. fold (hopb indent pos).
  destruct (find (hopb indent pos) structure) as [next|] eqn:Hfind.
  - intros H. apply IH in H. destruct H as [Hle Hfin].
    pose proof (find_some _ _ Hfind) as [Hin Hhop].
    apply hopb_spec in Hhop. destruct Hhop as [Hb _].
    rewrite Forall_forall in Hwf. pose proof (Hwf _ Hin) as Hlt.
    split; [lia|]. destruct Hfin as [-> | Hfin]; right; eauto.
  - intros [= <-]. auto.
Qed.

Section WithUtils.
Variable U : Utils.

(** The element that [parseElement] returns outside the mode 'item', with no
    structure passed in, lies between the cursor before and the cursor
    after. *)
Lemma parseElement_range fuel mode r n r1 :
  inWindow r ->
  ParseMode_eqb mode ItemMode = false ->
  parseElement U fuel mode None r = Ok (n, r1) ->
  exists cb ce,
    Ast.contentsBegin n = Some cb /\ Ast.contentsEnd n = Some ce
    /\ Reader.offset r <= cb /\ cb <= ce /\ ce <= Reader.offset r1
    /\ inWindow r1.
Proof.
  intros Hw Hmode. unfold parseElement. rewrite Hmode.
  unfold bind at 1. unfold get at 1.
  destruct (atHeading r) eqn:Hh.
  { intros H. apply parseHeadline_spec in H; [|exact Hw].
    destruct H as (level & raw & title & cb & ce & -> & _ & _ & _ & Hcb & _
                   & Hle & Hend & ->).
    exists cb, ce. cbn [Ast.contentsBegin Ast.contentsEnd Reader.offset Reader.resetOffset].
    split; [reflexivity|]. split; [reflexivity|].
    split; [lia|]. split; [lia|]. split; [lia|].
    apply inWindow_resetOffset; [exact Hw | exact Hend]. }
  destruct (ParseMode_eqb mode SectionMode).
  { rewrite parseSection_eq. cbv zeta.
    pose proof (stopAt_bounds sectionEndRe r Hw) as Hb. unfold stopAt in Hb.
    intros [= <- <-]. eexists _, _.
    cbn [Ast.contentsBegin Ast.contentsEnd Reader.offset Reader.resetOffset].
    split; [reflexivity|]. split; [reflexivity|].
    split; [lia|]. split; [lia|]. split; [lia|].
    apply inWindow_resetOffset; [exact Hw | apply Hb]. }
  destruct (ParseMode_eqb mode FirstSection) eqn:Hfs.
  { intros H.
    assert (Hm : mode = FirstSection) by (destruct mode; try discriminate; reflexivity).
    pose proof (parseElement_first_section_eq U fuel None r Hh) as Heq.
    cbv zeta in Heq.
    pose proof (stopAt_bounds nextHeadingRe r Hw) as Hlim.
    set (limit := stopAt (Reader.match_ nextHeadingRe r) r) in *.
    set (r0 := Reader.narrow (Reader.offset r) limit r) in *.
    assert (Hw0 : inWindow r0).
    { destruct Hw. unfold Reader.endOffset in Hlim. split; cbn; lia. }
    pose proof (stopAt_bounds sectionEndRe r0 Hw0) as He.
    set (e := stopAt (Reader.match_ sectionEndRe r0) r0) in *.
    cbn [Reader.offset Reader.endOffset Reader.windowEnd r0 Reader.narrow] in He.
    assert (Hrun : parseElement U fuel mode None r
                   = Ok (Section (Reader.offset r) e [],
                         Reader.widen true (Reader.resetOffset e r0))).
    { rewrite Hm. exact Heq. }
    unfold parseElement in Hrun. rewrite Hmode in Hrun.
    unfold bind at 1 in Hrun. unfold get at 1 in Hrun. rewrite Hh in Hrun.
    destruct (ParseMode_eqb mode SectionMode) eqn:Hsm;
      [subst mode; discriminate|].
    rewrite Hfs in Hrun. rewrite Hrun in H. injection H as <- <-.
    exists (Reader.offset r), e.
    unfold Reader.endOffset in *. destruct Hw as [Ho Hb].
    split; [reflexivity|]. split; [reflexivity|].
    split; [lia|]. split; [lia|]. split; [cbn; lia|].
    split; cbn; lia. }
  unfold bind at 1. unfold get at 1.
  destruct (isSome (Reader.match_ (itemRe U) r)).
  - unfold bind at 1. unfold bind at 1. unfold get at 1. unfold bind at 1.
    destruct (parseListStructure U fuel r) as [[s r0]|] eqn:Hscan; [|discriminate].
    pose proof (parseListStructure_forward U _ _ _ _ Hscan) as Hf.
    destruct (parseListStructure_scanned U _ _ _ _ Hw Hscan)
      as (_ & _ & _ & _ & _ & Hcl & _ & _ & Hadv).
    unfold bind at 1. unfold upd at 1. unfold ret at 1.
    rewrite (movedForward_reset _ _ Hf).
    unfold parseList, bind, get, upd, ret, throw.
    destruct (find _ s) as [item|] eqn:Hfind; [|discriminate].
    pose proof (find_some _ _ Hfind) as [Hin Hb]. apply Nat.eqb_eq in Hb.
    assert (Hwf : Forall (fun x => begin x < end_ x) s).
    { eapply Forall_impl; [|exact Hcl]. intros y (_ & ? & _). assumption. }
    destruct (parseListLoop _ _ _ _) as [final|] eqn:Hloop; [|discriminate].
    apply (parseListLoop_bounds _ _ Hwf) in Hloop. destruct Hloop as [Hle Hfin].
    intros [= <- <-].
    rewrite Forall_forall in Hcl. pose proof (Hcl _ Hin) as (_ & Hlt & Hce).
    pose proof (inWindow_advances _ _ Hw Hadv) as [Ho He].
    assert (Hfle : final <= Reader.offset r0).
    { destruct Hfin as [-> | (x & Hxin & ->)]; [exact Hce|].
      now destruct (Hcl _ Hxin) as (_ & _ & ?). }
    assert (Hwe : Reader.windowEnd r0 = Reader.windowEnd r).
    { destruct Hadv as (k & _ & ->). reflexivity. }
    exists (Reader.offset r), final.
    cbn [Ast.contentsBegin Ast.contentsEnd Reader.offset Reader.resetOffset].
    split; [reflexivity|]. split; [reflexivity|].
    split; [lia|]. split; [lia|]. split; [lia|].
    apply inWindow_resetOffset; [exact Hw | lia].
  - rewrite parseParagraph_eq. cbv zeta.
    pose proof (stopAt_bounds (paragraphSeparateRe U) r Hw) as He.
    set (e := stopAt (Reader.match_ (paragraphSeparateRe U) r) r) in *.
    assert (Hw0 : inWindow (Reader.resetOffset e r)).
    { apply inWindow_resetOffset; [exact Hw | apply He]. }
    destruct (parseEmptyLines fuel _) as [[x r0]|] eqn:Hel; [|discriminate].
    apply parseMulti_advances in Hel.
    pose proof (inWindow_advances _ _ Hw0 Hel) as Hw1.
    apply advances_offset in Hel. cbn in Hel.
    intros [= <- <-]. exists (Reader.offset r), e.
    cbn [Ast.contentsBegin Ast.contentsEnd].
    split; [reflexivity|]. split; [reflexivity|].
    split; [lia|]. split; [lia|]. split; [lia | exact Hw1].
Qed.

(** The descent into an element leaves the Reader as it was and the range of
    the element as it was. *)
Lemma withChildren_frame fuel mode structure element r element' r' :
  withChildren U fuel mode structure element r = Ok (element', r') ->
  r' = r
  /\ Ast.contentsBegin element' = Ast.contentsBegin element
  /\ Ast.contentsEnd element' = Ast.contentsEnd element.
Proof.
  unfold withChildren, bind, upd, ret.
  destruct (Ast.contentsBegin element) as [cb|] eqn:Hb,
           (Ast.contentsEnd element) as [ce|] eqn:He;
    try (intros [= <- <-]; auto).
  assert (Hset : forall ch,
             Ast.contentsBegin (setChildren ch element) = Some cb
             /\ Ast.contentsEnd (setChildren ch element) = Some ce).
  { intros ch. rewrite <- Hb, <- He. now destruct element. }
  destruct (existsb _ _).
  - match goal with
    | |- match ?x with _ => _ end = _ -> _ =>
        destruct x as [[ch r3]|] eqn:Hch; [|discriminate]
    end.
    intros [= <- <-]. apply parseElementsLoop_window in Hch.
    destruct Hch as [Hch _]. apply narrow_widen_false in Hch.
    split; [exact Hch | apply Hset].
  - destruct (parseObjects _ _ _ _) as [[ch r3]|] eqn:Hch; [|discriminate].
    intros [= <- <-]. apply parseObjects_window, narrow_widen_false in Hch.
    split; [exact Hch | apply Hset].
Qed.

Lemma parseElementsLoop_laidOut fuel :
  forall mode prevOffset elements r l r' lo,
    inWindow r ->
    ParseMode_eqb mode ItemMode = false ->
    laidOut lo (Reader.offset r) elements ->
    parseElementsLoop U fuel mode None prevOffset elements r = Ok (l, r') ->
    laidOut lo (Reader.endOffset r) l.
Proof.
  induction fuel as [|fuel IH];
    intros mode prevOffset elements r l r' lo Hw Hmode Hacc H; [discriminate|].
  rewrite parseElementsLoop_step in H.
  destruct (Reader.eof r) eqn:Heof.
  { injection H as <- _. eapply laidOut_weaken; [exact Hacc|]. apply Hw. }
  destruct (_ =? _)%Z; [discriminate|].
  destruct (parseElement U fuel mode None r) as [[element r1]|] eqn:He;
    [|discriminate].
  pose proof (parseElement_window U _ _ _ _ _ _ He) as Hsw.
  apply parseElement_range in He; [|exact Hw|exact Hmode].
  destruct He as (cb & ce & Hcb & Hce & H1 & H2 & H3 & Hw1).
  destruct (withChildren U fuel mode None element r1)
    as [[element' r2]|] eqn:Hch; [|discriminate].
  apply withChildren_frame in Hch. destruct Hch as (-> & Hb' & He').
  apply IH with (lo := lo) in H.
  - destruct Hsw as (_ & _ & Hend & _). unfold Reader.endOffset in *.
    now rewrite Hend in H.
  - exact Hw1.
  - now apply nextMode_not_item.
  - eapply laidOut_snoc; [exact Hacc| | | | |];
      [rewrite Hb'; exact Hcb | rewrite He'; exact Hce | lia | lia | lia].
Qed.

(** X17.  Sibling elements do not overlap.  Outside the mode 'item' and with
    no list structure passed in, the elements that [parseElements] returns
    from a Reader whose cursor is inside its window all carry a contents
    range; the first begins at or after the cursor, each ends at or after it
    begins, each begins at or after the end of the one before, and the last
    ends inside the window. *)
Theorem parseElements_ranges (fuel : nat) (mode : ParseMode)
    (r r' : Reader.t) (elements : list node) :
  inWindow r ->
  ParseMode_eqb mode ItemMode = false ->
  parseElements U fuel mode None r = Ok (elements, r') ->
  laidOut (Reader.offset r) (Reader.endOffset r) elements.
Proof.
  intros Hw Hmode H.
  eapply parseElementsLoop_laidOut in H; [exact H|exact Hw|exact Hmode|].
  cbn. lia.
Qed.

End WithUtils.

(** Two paragraphs. *)
Lemma parseElements_ranges_witness :
  let r := Reader.new (txt "hi" ++ [nl; nl] ++ txt "ho") in
  laidOut (Reader.offset r) (Reader.endOffset r)
    [Paragraph 0 3 [Text (txt "hi" ++ [nl])]; Paragraph 4 6 [Text (txt "ho")]].
Proof.
  intros r.
  eapply (parseElements_ranges SpecUtils.utils 5 NullMode r).
  - split; cbn; lia.
  - reflexivity.
  - vm_compute. reflexivity.
Defined.

End RangeFacts.

(* ================================================================== *)
(** ** The description of a bracket link *)

Module DescriptionFacts.
Import Js Ast Parser Notions WindowNotions Semantics ReaderFacts ObjectFacts.
Import SemanticsFacts CaptureFacts LineFacts HeadlineFacts.

Section Inversion.
Variable input : text.
Variable flagM : bool.

Lemma Matches_chr_inv c x y :
  Matches input flagM (chr c) x y ->
  nth_error input (endIndex x) = Some c
  /\ y = MState (S (endIndex x)) (captures x).
Proof.
  cbn [Matches chr]. intros (ch & Hch & Hp & ->).
  apply Ascii.eqb_eq in Hp. subst ch. auto.
Qed.

Lemma Matches_opt_inv a x y :
  Matches input flagM (opt a) x y ->
  y = x \/ Matches input flagM a (clearCaptures (groupsOf a) x) y.
Proof.
  unfold opt. cbn [Matches]. intros (n & _ & Hmax & Hit). cbn in Hmax.
  destruct n as [|[|n]]; [|
    |lia].
  - left. exact Hit.
  - right. cbn [Iter] in Hit. destruct Hit as (m & Hm & ->). exact Hm.
Qed.

(** The captures of a match are those it began with or belong to the groups
    of the pattern. *)
Lemma Matches_keys r : forall x y,
  Matches input flagM r x y ->
  Forall (fun p => In (fst p) (groupsOf r) \/ In p (captures x)) (captures y).
Proof.
  induction r as [|p|a IHa b IHb|a IHa b IHb|greedy lo hi a IHa|g a IHa| |];
    intros x y H; cbn [Matches groupsOf] in *.
  - subst. apply Forall_forall. auto.
  - destruct H as (ch & _ & _ & ->). apply Forall_forall. auto.
  - destruct H as (m & Ha & Hb). apply IHa in Ha. apply IHb in Hb.
    rewrite Forall_forall in *. intros p Hp.
    destruct (Hb p Hp) as [Hg | Hin]; [left; apply in_or_app; auto|].
    destruct (Ha p Hin) as [Hg | Hin']; [left; apply in_or_app; auto | auto].
  - destruct H as [H | H]; [apply IHa in H | apply IHb in H];
      (eapply Forall_impl; [|exact H]); intros p [Hg | Hin]; auto;
      left; apply in_or_app; auto.
  - destruct H as (n & _ & _ & Hit). revert x Hit.
    induction n as [|n IHn]; intros x Hit; cbn [Iter] in Hit.
    + subst. apply Forall_forall. auto.
    + destruct Hit as (m & Hm & Hit). apply IHa in Hm. apply IHn in Hit.
      rewrite Forall_forall in *. intros p Hp.
      destruct (Hit p Hp) as [Hg | Hin]; [auto|].
      destruct (Hm p Hin) as [Hg | Hin']; [auto|].
      right. unfold clearCaptures in Hin'. cbn [captures] in Hin'.
      now apply filter_In in Hin'.
  - destruct H as (m & Hm & ->). apply IHa in Hm. cbn [captures].
    constructor; [left; now left|].
    eapply Forall_impl; [|exact Hm]. intros p [Hg | Hin]; auto.
    left. now right.
  - destruct H as [_ ->]. apply Forall_forall. auto.
  - destruct H as [_ ->]. apply Forall_forall. auto.
Qed.

End Inversion.

(** The target of a bracket link, and the description in its brackets. *)
Definition targetRe : regex :=
  plus (Grp "2"
          (alts notBracket
             [seqs [backslash; star (Grp "3" (Seq backslash backslash)); bracket];
              seqs [plus backslash; notBracket]])).

Definition descriptionRe : regex :=
  Grp "4" (seqs [chr "["%char; Grp "text" (lazyPlus dot); chr "]"%char]).

Lemma linkBracketRe_source :
  source linkBracketRe
  = Seq (chr "["%char)
      (Seq (chr "["%char)
         (Seq (Grp "link" targetRe)
            (Seq (chr "]"%char) (Seq (opt descriptionRe) (chr "]"%char))))).
Proof. reflexivity. Qed.

(** A match of the pattern of bracket links that has a description: where
    the target and the description lie, and what the match is made of. *)
Lemma linkBracketRe_description input m link desc :
  exec linkBracketRe input = Some m ->
  group "link" m = Some link ->
  group "text" m = Some desc ->
  exists e1 eT,
    index m + 3 <= e1 /\ e1 + 3 <= eT /\ eT + 2 <= List.length input
    /\ link = substring input (index m + 2) e1
    /\ desc = substring input (e1 + 2) eT
    /\ matched m = txt "[[" ++ link ++ txt "][" ++ desc ++ txt "]]".
Proof.
  intros Hm. apply exec_sound in Hm. destruct Hm as (y & Hi & Hy & Heq).
  rewrite Heq. clear Heq. set (i := index m) in *. clearbody i. clear m.
  unfold group. cbn [toMatch groups matched index].
  rewrite linkBracketRe_source in Hy. change (multiline linkBracketRe) with false in Hy.
  cbn [Matches] in Hy.
  destruct Hy as (x1 & H1 & x2 & H2 & x3 & (mL & HL & ->) & x4 & H4 & x5 & H5 & H6).
  apply Matches_chr_inv in H1. destruct H1 as [Hc1 ->].
  apply Matches_chr_inv in H2. destruct H2 as [Hc2 ->].
  cbn [endIndex captures] in *.
  apply Matches_chr_inv in H4. destruct H4 as [Hc4 ->].
  cbn [endIndex captures] in *.
  pose proof (Matches_keys _ _ _ _ _ HL) as HkL. cbn [captures] in HkL.
  assert (Hi2 : S (S i) <= List.length input).
  { assert (S i < List.length input) by (apply nth_error_Some; congruence). lia. }
  pose proof (Matches_bounds _ _ _ _ _ HL Hi2) as HbL. cbn [endIndex] in HbL.
  destruct mL as [e1 capsL]. cbn [endIndex captures] in *.
  assert (He1 : e1 < List.length input) by (apply nth_error_Some; congruence).
  apply Matches_chr_inv in H6. destruct H6 as [Hc6 ->].
  apply Matches_opt_inv in H5.
  intros Hlink Htext.
  destruct H5 as [-> | H5].
  - (* no description: the group [text] did not take part *)
    exfalso. apply assoc_captures in Htext.
    destruct Htext as (a & b & Hin & _). cbn [captures In] in Hin.
    destruct Hin as [Hin | Hin]; [discriminate|].
    rewrite Forall_forall in HkL. destruct (HkL _ Hin) as [Hg | []].
    cbn in Hg. destruct Hg as [Hg | [Hg | []]]; discriminate.
  - unfold descriptionRe in H5. cbn [seqs Matches] in H5.
    destruct H5 as (m4 & (xa & Ha & xb & (mT & HT & ->) & Hb) & ->).
    apply Matches_chr_inv in Ha. destruct Ha as [Hca ->].
    cbn [endIndex captures clearCaptures] in *.
    apply Matches_chr_inv in Hb. destruct Hb as [Hcb ->].
    cbn [endIndex captures] in *.
    pose proof (Matches_bounds _ _ _ _ _ HT) as HbT. cbn [endIndex] in HbT.
    specialize (HbT ltac:(assert (S e1 < List.length input)
                             by (apply nth_error_Some; congruence); lia)).
    pose proof (Matches_captures _ _ _ _ _ HT eq_refl) as HcT.
    destruct mT as [eT capsT]. cbn [endIndex captures] in *. subst capsT.
    assert (HeT : eT < List.length input) by (apply nth_error_Some; congruence).
    assert (HeT1 : S eT < List.length input) by (apply nth_error_Some; congruence).
    cbn [map fst snd assoc String.eqb Ascii.eqb Bool.eqb] in Htext.
    unfold clearCaptures in Hlink.
    cbn [captures filter fst groupsOf descriptionRe seqs lazyPlus dot chr app
         existsb negb orb map snd assoc String.eqb Ascii.eqb Bool.eqb] in Hlink.
    injection Htext as <-. injection Hlink as <-.
    exists e1, eT.
    replace (i + 2) with (S (S i)) by lia.
    replace (e1 + 2) with (S (S e1)) by lia.
    cbn [minLength lazyPlus dot rounds] in HbT.
    change (minLength targetRe) with 1 in HbL.
    split; [lia|]. split; [lia|]. split; [lia|].
    split; [reflexivity|]. split; [reflexivity|].
    rewrite (substring_split input i (S (S i)) (S (S eT))) by lia.
    rewrite (substring_split input i (S i) (S (S i))) by lia.
    rewrite (substring_one _ _ _ Hc1), (substring_one _ _ _ Hc2).
    rewrite (substring_split input (S (S i)) e1 (S (S eT))) by lia.
    rewrite (substring_split input e1 (S (S e1)) (S (S eT))) by lia.
    rewrite (substring_split input e1 (S e1) (S (S e1))) by lia.
    rewrite (substring_one _ _ _ Hc4), (substring_one _ _ _ Hca).
    rewrite (substring_split input (S (S e1)) eT (S (S eT))) by lia.
    rewrite (substring_split input eT (S eT) (S (S eT))) by lia.
    rewrite (substring_one _ _ _ Hcb), (substring_one _ _ _ Hc6).
    reflexivity.
Qed.

Lemma substring_rest r a b :
  inWindow r -> a <= b -> b <= List.length (Reader.rest r) ->
  Reader.substring (Reader.offset r + a) (Reader.offset r + b) r
  = substring (Reader.rest r) a b.
Proof.
  intros Hw Hab Hb. rewrite (rest_length _ Hw) in Hb.
  unfold Reader.substring, Reader.rest, Reader.endOffset, substring.
  rewrite skipn_firstn_comm, skipn_skipn, firstn_firstn.
  f_equal; [lia | f_equal; lia].
Qed.

(** X18.  The description of a bracket link.  When the pattern of bracket
    links matches at the cursor itself (index 0) with a description, the
    match is the text [[[link][description]]], and the window that
    [parseLink] narrows to for the recursive [parseObjects('link')] shows
    exactly the description; the link node gets the objects that this call
    returns. *)
Theorem parseLink_description_window (po : Restriction -> M (list node))
    (r : Reader.t) (m : MatchResult) (link desc : text) :
  inWindow r ->
  Reader.peek 1 r = txt "[" ->
  Reader.match_ linkBracketRe r = Some m ->
  index m = 0 ->
  group "link" m = Some link ->
  group "text" m = Some desc ->
  let contentStart := Reader.offset r + 2 + List.length link + 2 in
  let rd := Reader.narrow contentStart (contentStart + List.length desc)
              (Reader.advanceMatch (Some m) r) in
  matched m = txt "[[" ++ link ++ txt "][" ++ desc ++ txt "]]"
  /\ desc <> []
  /\ Reader.rest rd = desc
  /\ parseLink po r
     = match po (RString "link") rd with
       | Ok (children, r') =>
           Ok (Some (Link (linkTypeOf link) link children), Reader.widen false r')
       | Err e => Err e
       end.
Proof.
  intros Hw Hpeek Hm Hi Hlink Htext contentStart rd. subst contentStart rd.
  pose proof (match_bounds _ _ _ Hm) as Hmb.
  destruct (linkBracketRe_description _ _ _ _ Hm Hlink Htext)
    as (e1 & eT & H1 & H2 & H3 & Hl & Hd & Hmatched).
  rewrite Hi in *. cbn [Nat.add] in *.
  assert (Hll : List.length link = e1 - 2).
  { rewrite Hl. apply substring_length. lia. }
  assert (Hdl : List.length desc = eT - (e1 + 2)).
  { rewrite Hd. apply substring_length. lia. }
  assert (Hne : desc <> []).
  { intros Hnil. rewrite Hnil in Hdl. cbn in Hdl. lia. }
  set (cs := Reader.offset r + 2 + List.length link + 2).
  set (ce := cs + List.length desc).
  fold cs. fold ce.
  split; [exact Hmatched|]. split; [exact Hne|]. split.
  - unfold Reader.rest, Reader.narrow, Reader.advanceMatch, Reader.advance,
      Reader.endOffset.
    cbn [Reader.buffer Reader.offset Reader.windowEnd].
    pose proof (substring_rest r (e1 + 2) eT Hw ltac:(lia) ltac:(lia)) as Hs.
    unfold Reader.substring in Hs. rewrite Hd, <- Hs.
    unfold cs, ce. rewrite Hll, Hdl. f_equal; lia.
  - unfold parseLink, bind, get, upd, ret.
    rewrite Hpeek.
    replace (text_eqb (txt "[") (txt "[")) with true by reflexivity.
    rewrite Hm, Hlink, Htext.
    destruct desc as [|c0 tx]; [contradiction|].
    fold cs. fold ce. unfold linkTypeOf.
    destruct (po _ _) as [[children r']|]; reflexivity.
Qed.

(** The link [[a][b]] followed by text. *)
Lemma parseLink_description_window_witness :
  let r := Reader.new (txt "[[a][b]] c") in
  let m := mkMatch 0 (txt "[[a][b]]")
             [("4", txt "[b]"); ("text", txt "b"); ("link", txt "a"); ("2", txt "a")] in
  let contentStart := Reader.offset r + 2 + List.length (txt "a") + 2 in
  let rd := Reader.narrow contentStart (contentStart + List.length (txt "b"))
              (Reader.advanceMatch (Some m) r) in
  matched m = txt "[[" ++ txt "a" ++ txt "][" ++ txt "b" ++ txt "]]"
  /\ txt "b" <> []
  /\ Reader.rest rd = txt "b"
  /\ parseLink (fun _ => ret []) r
     = match (fun _ => ret []) (RString "link") rd with
       | Ok (children, r') =>
           Ok (Some (Link (linkTypeOf (txt "a")) (txt "a") children),
               Reader.widen false r')
       | Err e => Err e
       end.
Proof.
  intros r m.
  apply (parseLink_description_window (fun _ => ret []) r m (txt "a") (txt "b")).
  - split; cbn; lia.
  - reflexivity.
  - vm_compute. reflexivity.
  - reflexivity.
  - reflexivity.
  - reflexivity.
Defined.

End DescriptionFacts.

(* ================================================================== *)
(** ** The ranges of the whole tree *)

Module TreeFacts.
Import Js Ast Parser Notions WindowNotions ReaderFacts ObjectFacts WindowFacts.
Import ElementFacts LineFacts DisciplineFacts ObjectRangeFacts HeadlineFacts.
Import RangeFacts.

Lemma placed_all g l :
  (fix all (l : list node) : Prop :=
     match l with
     | [] => True
     | x :: l' => placed g x /\ all l'
     end) l <-> Forall (placed g) l.
Proof.
  induction l as [|x l IH]; [split; auto|].
  rewrite IH. split; [intros [? ?]; now constructor | intros H; now inversion H].
Qed.

Lemma placed_objects g l : Forall objectNode l -> Forall (placed g) l.
Proof.
  intros H. eapply Forall_impl; [|exact H].
  intros [| | | | | | |] Hn; try contradiction; exact I.
Qed.

Lemma placed_setChildren g n cb ce ch :
  Ast.contentsBegin n = Some cb -> Ast.contentsEnd n = Some ce ->
  (existsb (String.eqb (Ast.type n)) g = true ->
   Ast.structure n = None -> laidOut cb ce ch) ->
  Forall (placed g) ch ->
  (match n with OrgData _ _ _ => False | _ => True end) ->
  placed g (setChildren ch n).
Proof.
  intros Hb He Hl Hall Hroot.
  destruct n; cbn in *; try exact I; try contradiction;
    injection Hb as <-; injection He as <-;
    (split; [intros Hg; now apply Hl | now apply placed_all]).
Qed.

Lemma nextMode_parent_not_item mode n :
  Ast.structure n = None ->
  ParseMode_eqb (nextMode mode (Ast.type n) true) ItemMode = false.
Proof.
  intros Hs. destruct n; try discriminate Hs; destruct mode; reflexivity.
Qed.

Section WithUtils.
Variable U : Utils.

Lemma parseElement_not_root fuel mode structure r n r1 :
  parseElement U fuel mode structure r = Ok (n, r1) ->
  match n with OrgData _ _ _ => False | _ => True end.
Proof.
  intros H.
  assert (Ht : Ast.type n <> "org-data"); [|destruct n; auto; now elim Ht].
  revert H. unfold parseElement.
  destruct (ParseMode_eqb mode ItemMode).
  { unfold parseItem, bind, get, upd, ret, throw.
    destruct (Reader.match_ (fullItemRe U) r); [|discriminate].
    destruct structure as [s|]; [|discriminate].
    destruct (find _ s); [|discriminate].
    intros [= <- _]. discriminate. }
  unfold bind at 1. unfold get at 1.
  destruct (atHeading r) eqn:Hh.
  { unfold parseHeadline.
    unfold bind at 1. unfold get at 1. unfold bind at 1. unfold upd at 1.
    destruct (Reader.match_ starsRe r) as [st|]; [|discriminate].
    destruct (group "1" st) as [s1|]; [|discriminate].
    unfold bind at 1. unfold get at 1.
    destruct (Reader.match_ titleRe _) as [tm|]; [|discriminate].
    unfold bind at 1. unfold get at 1. unfold bind at 1. unfold get at 1.
    unfold bind at 1. unfold upd at 1. unfold bind at 1. unfold upd at 1.
    unfold bind at 1.
    destruct (parseObjects U fuel _ _) as [[title r3]|]; [|discriminate].
    unfold bind at 1. unfold upd at 1. unfold bind at 1. unfold get at 1.
    unfold bind at 1. unfold upd at 1. unfold bind at 1.
    destruct (parseEmptyLines fuel _) as [[x r4]|]; [|discriminate].
    unfold bind, get, upd, ret. intros [= <- _]. discriminate. }
  destruct (ParseMode_eqb mode SectionMode).
  { unfold parseSection, bind, get, upd, ret. intros [= <- _]. discriminate. }
  destruct (ParseMode_eqb mode FirstSection).
  { unfold parseSection, bind, get, upd, ret. intros [= <- _]. discriminate. }
  unfold bind at 1. unfold get at 1.
  destruct (isSome (Reader.match_ (itemRe U) r)).
  - unfold bind at 1.
    assert (Hl : forall s r0, parseList fuel s r0 = Ok (n, r1) ->
                              Ast.type n <> "org-data").
    { intros s r0. unfold parseList, bind, get, upd, ret, throw.
      destruct (find _ s); [|discriminate].
      destruct (parseListLoop _ _ _ _); [|discriminate].
      intros [= <- _]. discriminate. }
    destruct structure as [s|].
    + unfold ret at 1. apply Hl.
    + unfold bind at 1. unfold get at 1. unfold bind at 1.
      destruct (parseListStructure U fuel r) as [[s r0]|]; [|discriminate].
      unfold bind at 1. unfold upd at 1. unfold ret at 1. apply Hl.
  - rewrite parseParagraph_eq. cbv zeta.
    destruct (parseEmptyLines fuel _) as [[x r0]|]; [|discriminate].
    intros [= <- _]. discriminate.
Qed.

Lemma parseElementsLoop_placed fuel :
  forall mode prevOffset elements r l r',
    inWindow r ->
    ParseMode_eqb mode ItemMode = false ->
    Forall (placed (greaterElements U)) elements ->
    parseElementsLoop U fuel mode None prevOffset elements r = Ok (l, r') ->
    Forall (placed (greaterElements U)) l.
Proof.
  induction fuel as [|fuel IH];
    intros mode prevOffset elements r l r' Hw Hmode Hacc H; [discriminate|].
  rewrite parseElementsLoop_step in H.
  destruct (Reader.eof r) eqn:Heof; [now injection H as <- _|].
  destruct (_ =? _)%Z; [discriminate|].
  destruct (parseElement U fuel mode None r) as [[element r1]|] eqn:He;
    [|discriminate].
  pose proof (parseElement_not_root _ _ _ _ _ _ He) as Hroot.
  pose proof (parseElement_range U _ _ _ _ _ Hw Hmode He)
    as (cb & ce & Hcb & Hce & H1 & H2 & H3 & Hw1).
  destruct (withChildren U fuel mode None element r1)
    as [[element' r2]|] eqn:Hch; [|discriminate].
  pose proof (withChildren_frame U _ _ _ _ _ _ _ Hch) as (-> & _ & _).
  assert (Hp : placed (greaterElements U) element').
  { revert Hch. unfold withChildren. rewrite Hcb, Hce.
    assert (Hwn : inWindow (Reader.narrow cb ce r1)).
    { destruct Hw1 as [Ho Hb]. split; cbn; lia. }
    destruct (existsb _ _) eqn:Hg.
    - unfold bind at 1. unfold upd at 1. unfold bind at 1.
      match goal with
      | |- match ?x with _ => _ end = _ -> _ =>
          destruct x as [[ch r3]|] eqn:Hrec; [|discriminate]
      end.
      unfold bind, upd, ret. intros [= <- _].
      destruct (Ast.structure element) as [s|] eqn:Hs.
      + destruct element; try discriminate Hs. exact I.
      + apply (placed_setChildren _ _ cb ce); auto.
        * intros _ _.
          apply (parseElementsLoop_laidOut U _ _ _ _ _ _ _ cb) in Hrec;
            [exact Hrec | exact Hwn | now apply nextMode_parent_not_item
            | cbn; lia].
        * apply IH in Hrec; [exact Hrec | exact Hwn
                            | now apply nextMode_parent_not_item | constructor].
    - unfold bind at 1. unfold upd at 1. unfold bind at 1.
      destruct (parseObjects U fuel _ _) as [[ch r3]|] eqn:Hrec; [|discriminate].
      unfold bind, upd, ret. intros [= <- _].
      apply (parseObjects_nodes_aux U) in Hrec.
      apply (placed_setChildren _ _ cb ce); auto.
      + intros Hg'. congruence.
      + now apply placed_objects. }
  apply IH in H; [exact H | exact Hw1 | now apply nextMode_not_item|].
  apply Forall_app. split; [exact Hacc | constructor; [exact Hp | constructor]].
Qed.

(** X19.  The ranges of the tree.  Whenever [parse] returns, the root is an
    org-data node from 0 to the length of the text whose children lie inside
    that range, one after the other without overlap; and the same holds,
    all the way down, for the children of every headline, section and
    paragraph that is a greater element, inside the contents range of their
    parent.  (The children of plain lists, whose ranges come from the
    scanner, are not covered.) *)
Theorem parse_tree_ranges (fuel : nat) (s : text) (ast : node) :
  parse U fuel s = Ok ast ->
  exists children,
    ast = OrgData 0 (List.length s) children
    /\ placed (greaterElements U) ast.
Proof.
  unfold parse. unfold bind at 1.
  destruct (parseEmptyLines fuel (Reader.new s)) as [[x r1]|] eqn:Hel; [|discriminate].
  apply parseMulti_advances in Hel.
  assert (Hw : inWindow (Reader.new s)) by (split; cbn; lia).
  pose proof (inWindow_advances _ _ Hw Hel) as Hw1.
  unfold bind at 1.
  destruct (parseElements U fuel FirstSection None r1) as [[ch r2]|] eqn:Hch;
    [|discriminate].
  pose proof (parseElementsLoop_window U _ _ _ _ _ _ _ _ Hch) as [Hsw _].
  assert (Hlaid : laidOut 0 (Reader.endOffset r1) ch).
  { apply (parseElementsLoop_laidOut U fuel FirstSection (-1)%Z [] r1 ch r2 0);
      [exact Hw1 | reflexivity | cbn; lia | exact Hch]. }
  apply parseElementsLoop_placed in Hch; [|exact Hw1|reflexivity|constructor].
  unfold bind, get, ret. intros [= <-].
  assert (Hend : Reader.endOffset r2 = List.length s).
  { destruct Hsw as (_ & _ & He2 & _). destruct Hel as (k & _ & ->).
    unfold Reader.endOffset. rewrite He2. reflexivity. }
  rewrite Hend. exists ch. split; [reflexivity|].
  cbn [placed]. split; [|now apply placed_all].
  destruct Hel as (k & _ & ->). exact Hlaid.
Qed.

End WithUtils.

(** A first section, and a headline with a section under it. *)
Lemma parse_tree_ranges_witness :
  let s := txt "a" ++ [nl] ++ txt "* b" ++ [nl] ++ txt "c" in
  let ast :=
    OrgData 0 7
      [Section 0 2 [Paragraph 0 2 [Text (txt "a" ++ [nl])]];
       Headline 1 (txt "b") [Text (txt "b")] 6 7
         [Section 6 7 [Paragraph 6 7 [Text (txt "c")]]]] in
  exists children,
    ast = OrgData 0 (List.length s) children
    /\ placed (greaterElements SpecUtils.utils) ast.
Proof.
  intros s ast. apply (parse_tree_ranges SpecUtils.utils 7 s ast).
  vm_compute. reflexivity.
Defined.

End TreeFacts.

(* ================================================================== *)
(** ** The text nodes of parseObjects *)

Module TextNodeFacts.
Import Js Ast Parser Notions WindowNotions ReaderFacts ObjectFacts FuelFacts.
Import LineFacts.

Lemma allWhite_trim s : allWhite s <-> (List.length (trim s) =? 0)%nat = true.
Proof.
  split; [|apply trim_length_0].
  intros H. unfold trim, trimEnd. now rewrite (trimStart_white s H).
Qed.

Section WithUtils.
Variable U : Utils.

Lemma parseObjectsLoop_pushed fuel : forall restr prevOffset objects r objs r',
  parseObjectsLoop U fuel restr prevOffset objects r = Ok (objs, r') ->
  exists tl, objs = objects ++ tl /\ Pushed U restr r tl.
Proof.
  induction fuel as [|fuel IH]; intros restr prevOffset objects r objs r' H;
    [discriminate|].
  rewrite parseObjectsLoop_step in H.
  destruct (prevOffset =? Z.of_nat (Reader.offset r))%Z; [discriminate|].
  destruct (Reader.match_ (objectRegexp U) r) as [m|] eqn:Hm.
  - cbv zeta in H.
    destruct (index m =? 0)%nat eqn:Hi.
    + apply Nat.eqb_eq in Hi.
      destruct (parseObject _ restr r) as [[o r2]|] eqn:Ho; [|discriminate].
      apply IH in H. destruct H as (tl & -> & Htl).
      exists (objectOf o ++ tl). split.
      * destruct o; cbn [objectOf app]; [now rewrite <- app_assoc | reflexivity].
      * eapply PushedAtCursor; eassumption.
    + apply Nat.eqb_neq in Hi.
      destruct (parseObject _ restr _) as [[o r2]|] eqn:Ho; [|discriminate].
      apply IH in H. destruct H as (tl & -> & Htl).
      exists (Text (Reader.peek (index m) r) :: objectOf o ++ tl). split.
      * destruct o; cbn [objectOf app]; rewrite <- ?app_assoc; reflexivity.
      * eapply PushedAfterText; eassumption.
  - injection H as <- _.
    destruct (List.length (trim (Reader.rest r)) =? 0)%nat eqn:Ht.
    + exists []. split; [now rewrite app_nil_r|].
      apply PushedBlank; [exact Hm | now apply allWhite_trim].
    + exists [Text (Reader.rest r)]. split; [reflexivity|].
      apply PushedTrailing; [exact Hm|].
      intros Hw. apply allWhite_trim in Hw. congruence.
Qed.

Lemma parseObjectsLoop_more fuel fuel' restr :
  fuel <= fuel' ->
  le (parseObjectsLoop U fuel restr (-1)%Z []) (parseObjectsLoop U fuel' restr (-1)%Z []).
Proof.
  induction 1 as [|n _ IH]; [apply le_refl|].
  eapply le_trans; [exact IH | apply parseObjectsLoop_le].
Qed.

(** What [parseObject] returns does not depend on the fuel of its recursive
    call. *)
Lemma parseObject_fuel_independent f1 f2 restr r x1 x2 :
  parseObject (fun restr' => parseObjectsLoop U f1 restr' (-1)%Z []) restr r = Ok x1 ->
  parseObject (fun restr' => parseObjectsLoop U f2 restr' (-1)%Z []) restr r = Ok x2 ->
  x1 = x2.
Proof.
  intros H1 H2.
  assert (Hmax : forall f x,
             f <= Nat.max f1 f2 ->
             parseObject (fun restr' => parseObjectsLoop U f restr' (-1)%Z []) restr r
             = Ok x ->
             parseObject (fun restr' => parseObjectsLoop U (Nat.max f1 f2) restr' (-1)%Z [])
                         restr r = Ok x).
  { intros f x Hf H.
    eapply (parseObject_le
              (fun restr' => parseObjectsLoop U f restr' (-1)%Z [])
              (fun restr' => parseObjectsLoop U (Nat.max f1 f2) restr' (-1)%Z []));
      [|exact H|discriminate].
    intros restr'. now apply parseObjectsLoop_more. }
  apply Hmax in H1; [|lia]. apply Hmax in H2; [|lia]. congruence.
Qed.

(** The description [Pushed] determines the objects. *)
Lemma Pushed_functional restr r objs :
  Pushed U restr r objs -> forall objs', Pushed U restr r objs' -> objs' = objs.
Proof.
  induction 1 as [r Hm Hw | r Hm Hw | r m fuel o r2 tl Hm Hi Ho _ IH
                 | r m fuel o r2 tl Hm Hi Ho _ IH];
    intros objs' H'; inversion H' as [? Hm' Hw' | ? Hm' Hw'
                                     | ? m' fuel' o' r2' tl' Hm' Hi' Ho' Htl'
                                     | ? m' fuel' o' r2' tl' Hm' Hi' Ho' Htl'];
    subst; try congruence; try contradiction.
  - rewrite Hm in Hm'. injection Hm' as <-.
    pose proof (parseObject_fuel_independent _ _ _ _ _ _ Ho Ho') as Heq.
    injection Heq as <- <-. f_equal. now apply IH.
  - rewrite Hm in Hm'. injection Hm' as <-.
    pose proof (parseObject_fuel_independent _ _ _ _ _ _ Ho Ho') as Heq.
    injection Heq as <- <-. do 2 f_equal. now apply IH.
Qed.

(** C9, amended.  At every iteration of the loop of [parseObjects], the
    trailing text is pushed only when it is not all whitespace, and the text
    before a matched object is pushed whenever the match is not at the
    cursor, whatever that text is: the objects that [parseObjects] returns
    are those that [Pushed] describes, and no others.  When the object
    pattern does not match at all, [parseObjects] returns, with the trailing
    text alone or with nothing. *)
Theorem parseObjects_text_nodes (fuel : nat) (restr : Restriction) (r : Reader.t) :
  (forall objs r',
      parseObjects U fuel restr r = Ok (objs, r') ->
      Pushed U restr r objs
      /\ (forall objs', Pushed U restr r objs' -> objs' = objs))
  /\
  (Reader.match_ (objectRegexp U) r = None ->
   parseObjects U (S fuel) restr r
   = Ok (if (List.length (trim (Reader.rest r)) =? 0)%nat then []
         else [Text (Reader.rest r)],
         Reader.advance (List.length (Reader.rest r)) r)).
Proof.
  split.
  - intros objs r' H. apply parseObjectsLoop_pushed in H.
    destruct H as (tl & -> & Htl). cbn [app].
    split; [exact Htl | now apply Pushed_functional].
  - intros Hm. unfold parseObjects. rewrite parseObjectsLoop_step.
    replace (-1 =? Z.of_nat (Reader.offset r))%Z with false
      by (symmetry; apply Z.eqb_neq; lia).
    rewrite Hm. reflexivity.
Qed.

End WithUtils.

(** Two links with a blank between them: the blank is pushed as a text
    node. *)
Lemma parseObjects_text_nodes_witness :
  let r := Reader.new (txt "[[a]] [[b]]") in
  let restr := RSet ["link"; "text"] in
  let objs := [Link (txt "fuzzy") (txt "a") []; Text [space];
               Link (txt "fuzzy") (txt "b") []] in
  Pushed SpecUtils.utils restr r objs
  /\ (forall objs', Pushed SpecUtils.utils restr r objs' -> objs' = objs).
Proof.
  intros r restr objs.
  eapply (proj1 (parseObjects_text_nodes SpecUtils.utils 4 restr r) objs).
  vm_compute. reflexivity.
Defined.

End TextNodeFacts.
